(** * mutagen: filesystem scanner, endpoint connect and URL formatting

    A shallow embedding of

    - [url.Format] and its helpers (package [url]), with [url.Parse]
      modelled from the specification, its source being absent,
    - [session.connect] and [session.reconnect] (package [session]),
    - [sync.Scan] with [scanner.file], [scanner.symlink] and
      [scanner.directory] (package [sync]),

    followed by the properties of that code.  The modules [Url], [Errors],
    [Session] and [Sync] hold the program; [UrlTerms], [SessionTerms] and
    [SyncTerms] hold the vocabulary of the properties and a small host for
    the examples; the theorems follow in [UrlSpec], [SyncSpec] and
    [SessionSpec]. *)

From stdpp Require Import gmap strings list fin_maps.
From Stdlib Require Import ZArith NArith Ascii String DecimalString DecimalN DecimalPos Lia.

#[local] Open Scope string_scope.

(* ===================================================================== *)
(** * Package [url] *)
(* ===================================================================== *)

Module Url.

(** The protobuf enumeration [Protocol].  A Go enumeration is an [int32], so
    besides the three named values a [URL] can carry any other number. *)
Inductive Protocol :=
| Protocol_Local
| Protocol_SSH
| Protocol_Custom
| Protocol_Unknown (n : Z).

#[export] Instance Protocol_eq_dec : EqDecision Protocol.
Proof. solve_decision. Defined.

(** The message [URL]; [Port] is a [uint32]. *)
Record URL := mkURL {
  Protocol_ : Protocol;
  Username : string;
  Hostname : string;
  Port : N;
  Path : string
}.

#[export] Instance URL_eq_dec : EqDecision URL.
Proof. solve_decision. Defined.

(** [%d] of an unsigned integer. *)
Definition format_decimal (n : N) : string :=
  NilEmpty.string_of_uint (N.to_uint n).

(** [formatLocal] formats a local URL. *)
Definition formatLocal (u : URL) : string := Path u.

(** [formatSSH] formats an SSH URL into an SCP-style URL. *)
Definition formatSSH (u : URL) : string :=
  (* Create the base result. *)
  let result := Hostname u in
  (* Add username if present. *)
  let result :=
    if String.eqb (Username u) "" then result
    else Username u ++ "@" ++ result in
  (* Add port if present. *)
  let result :=
    if N.eqb (Port u) 0 then result
    else result ++ ":" ++ format_decimal (Port u) in
  (* Add path. *)
  result ++ ":" ++ Path u.

(** [formatCustom] returns the opaque value of a custom URL. *)
Definition formatCustom (u : URL) : string := Path u.

(** [Format]; [None] is the [panic("unknown URL protocol")]. *)
Definition Format (u : URL) : option string :=
  match Protocol_ u with
  | Protocol_Local => Some (formatLocal u)
  | Protocol_SSH => Some (formatSSH u)
  | Protocol_Custom => Some (formatCustom u)
  | Protocol_Unknown _ => None
  end.

(** ** String helpers used by the parser *)

(** [cut c s] splits [s] around the first occurrence of the character [c]. *)
Fixpoint cut (c : ascii) (s : string) : option (string * string) :=
  match s with
  | "" => None
  | String a s' =>
      if Ascii.eqb a c then Some ("", s')
      else match cut c s' with
           | Some (l, r) => Some (String a l, r)
           | None => None
           end
  end.

(** [contains c s]: the character [c] occurs in [s]. *)
Fixpoint contains (c : ascii) (s : string) : bool :=
  match s with
  | "" => false
  | String a s' => Ascii.eqb a c || contains c s'
  end.

(** [has_prefix p s]: the string [s] begins with [p]. *)
Fixpoint has_prefix (p s : string) : bool :=
  match p with
  | "" => true
  | String a p' =>
      match s with
      | "" => false
      | String b s' => Ascii.eqb a b && has_prefix p' s'
      end
  end.

(** [scheme_prefix s] is the text before the first [://] of [s]. *)
Fixpoint scheme_prefix (s : string) : option string :=
  match s with
  | "" => None
  | String a s' =>
      if has_prefix "://" s then Some ""
      else match scheme_prefix s' with
           | Some p => Some (String a p)
           | None => None
           end
  end.

Definition is_letter (a : ascii) : bool :=
  let n := nat_of_ascii a in
  ((65 <=? n)%nat && (n <=? 90)%nat) || ((97 <=? n)%nat && (n <=? 122)%nat).

Definition is_digit (a : ascii) : bool :=
  let n := nat_of_ascii a in (48 <=? n)%nat && (n <=? 57)%nat.

Definition is_scheme_char (a : ascii) : bool :=
  is_letter a || is_digit a || Ascii.eqb a "+" || Ascii.eqb a "." || Ascii.eqb a "-".

Fixpoint all_chars (p : ascii -> bool) (s : string) : bool :=
  match s with
  | "" => true
  | String a s' => p a && all_chars p s'
  end.

(** The grammar [[A-Za-z][A-Za-z0-9+.\-]*]. *)
Definition valid_scheme (s : string) : bool :=
  match s with
  | "" => false
  | String a s' => is_letter a && all_chars is_scheme_char s'
  end.

(** [cut_host s] splits [s] around its first [:], provided no [/] comes
    before it. *)
Fixpoint cut_host (s : string) : option (string * string) :=
  match s with
  | "" => None
  | String a s' =>
      if Ascii.eqb a ":" then Some ("", s')
      else if Ascii.eqb a "/" then None
      else match cut_host s' with
           | Some (l, r) => Some (String a l, r)
           | None => None
           end
  end.

(** A non-empty, entirely decimal string and its value. *)
Definition parse_decimal (s : string) : option N :=
  match s with
  | "" => None
  | _ => option_map N.of_uint (NilEmpty.uint_of_string s)
  end.

(** Port extraction: [digits:rest] with the digits a number of at most
    65535. *)
Definition parse_port (tail : string) : option (N * string) :=
  match cut ":" tail with
  | Some (digits, rest) =>
      match parse_decimal digits with
      | Some n => if (n <=? 65535)%N then Some (n, rest) else None
      | None => None
      end
  | None => None
  end.

(** Modelled from the spec: [url.Parse] is not part of the sources at hand
    (only its tests are); this follows the parsing algorithm of the
    specification, steps 1 to 6:

    - the empty string fails;
    - a string containing [://] is Custom, with the whole string as path,
      when the text before the first [://] matches the scheme grammar, and
      fails otherwise;
    - the string is split at its first [@] into user and host-and-path (no
      [@]: empty user, the whole string is host-and-path);
    - host-and-path without a host-ending [:] makes the URL Local with the
      whole original string as path; as the corpus entry
      ["/this/is/a:path"] (test [TestParsePath]) is Local, a [:] that
      follows a [/] does not end a host;
    - otherwise the host is the text before the first [:], an empty host
      fails, and the tail gives the optional port and the path.

    [None] is a parse error. *)
Definition Parse (raw : string) : option URL :=
  if String.eqb raw "" then None
  else
    match scheme_prefix raw with
    | Some scheme =>
        if valid_scheme scheme
        then Some (mkURL Protocol_Custom "" "" 0 raw)
        else None
    | None =>
        let '(user, host_and_path) :=
          match cut "@" raw with
          | Some (user, rest) => (user, rest)
          | None => ("", raw)
          end in
        match cut_host host_and_path with
        | None => Some (mkURL Protocol_Local "" "" 0 raw)
        | Some (host, tail) =>
            if String.eqb host "" then None
            else
              match parse_port tail with
              | Some (port, path) => Some (mkURL Protocol_SSH user host port path)
              | None => Some (mkURL Protocol_SSH user host 0 tail)
              end
        end
    end.

End Url.

(* ===================================================================== *)
(** * Go errors *)
(* ===================================================================== *)

Module Errors.

(** Error numbers of failed system calls; only [ENOENT] is told apart.
    Another number comes with the message that the table of the system
    has for it. *)
Inductive Errno :=
| ENOENT
| Errno_other (n : Z) (message : string).

(** An [error] value: built by [errors.New] / [errors.Errorf], by
    [errors.Wrap], or a [*os.PathError] coming out of a system call. *)
Inductive error :=
| errors_New (message : string)
| errors_Wrap (cause : error) (message : string)
| PathError (op path : string) (errno : Errno).

Definition Errno_Error (e : Errno) : string :=
  match e with
  | ENOENT => "no such file or directory"
  | Errno_other _ message => message
  end.

(** The [Error()] method. *)
Fixpoint Error (e : error) : string :=
  match e with
  | errors_New message => message
  | errors_Wrap cause message => message ++ ": " ++ Error cause
  | PathError op path errno => op ++ " " ++ path ++ ": " ++ Errno_Error errno
  end.

(** [os.IsNotExist]: looks at the error itself, not through [errors.Wrap]. *)
Definition os_IsNotExist (e : error) : bool :=
  match e with
  | PathError _ _ ENOENT => true
  | _ => false
  end.

(** The Go pair [(value, error)] of a fallible call. *)
Inductive result (A : Type) :=
| Ok (a : A)
| Err (e : error).
Arguments Ok {A} a.
Arguments Err {A} e.

End Errors.

(* ===================================================================== *)
(** * Package [session]: [connect] and [reconnect] *)
(* ===================================================================== *)

Module Session.
Import Url Errors.

Section Connect.

(** The types and functions of the packages [session], [agent] and [url]
    that [connect] uses and that are not part of the sources at hand. *)
Context {endpoint connection Version IgnoreSpecification Mode : Type}.
Variable newLocalEndpoint :
  string -> Version -> string -> IgnoreSpecification -> bool -> result endpoint.
Variable newRemoteEndpoint :
  connection -> string -> Version -> string -> IgnoreSpecification -> bool ->
  result endpoint.
Variable agent_DialSSH : URL -> string -> Mode -> result connection.
Variable agent_ModeEndpoint : Mode.
(** The [String()] method of the enumeration, which [%s] prints. *)
Variable Protocol_String : Protocol -> string.

(** The calls [connect] makes to build an endpoint. *)
Inductive call :=
| Call_newLocalEndpoint
    (session : string) (version : Version) (path : string)
    (ignores : IgnoreSpecification) (alpha : bool)
| Call_DialSSH (url : URL) (prompter : string) (mode : Mode)
| Call_newRemoteEndpoint
    (c : connection) (session : string) (version : Version) (path : string)
    (ignores : IgnoreSpecification) (alpha : bool).

(** [connect]: the calls made, in order, and the returned pair. *)
Definition connect
    (session : string) (version : Version) (url : URL)
    (ignores : IgnoreSpecification) (alpha : bool) (prompter : string)
  : list call * result endpoint :=
  (* Handle based on protocol. *)
  if decide (Protocol_ url = Protocol_Local) then
    (* Create a local endpoint. *)
    let calls := [Call_newLocalEndpoint session version (Path url) ignores alpha] in
    match newLocalEndpoint session version (Path url) ignores alpha with
    | Err err => (calls, Err (errors_Wrap err "unable to create local endpoint"))
    | Ok endpoint => (calls, Ok endpoint)
    end
  else if decide (Protocol_ url = Protocol_SSH) then
    (* Dial using the agent package, watching for errors. *)
    let calls := [Call_DialSSH url prompter agent_ModeEndpoint] in
    match agent_DialSSH url prompter agent_ModeEndpoint with
    | Err err => (calls, Err (errors_Wrap err "unable to connect to SSH remote"))
    | Ok connection =>
        (* Create a remote endpoint. *)
        let calls :=
          (calls ++ [Call_newRemoteEndpoint connection session version (Path url)
                       ignores alpha])%list in
        match newRemoteEndpoint connection session version (Path url) ignores alpha with
        | Err err => (calls, Err (errors_Wrap err "unable to create remote endpoint"))
        | Ok endpoint => (calls, Ok endpoint)
        end
    end
  else
    (* Handle unknown protocols. *)
    ([], Err (errors_New ("unknown protocol: " ++ Protocol_String (Protocol_ url)))).

End Connect.

(** ** [reconnect] *)

(** [reconnect] runs [connect] in a goroutine and waits, in a select, for
    its result on the unbuffered channel [results] or for the cancellation
    of the context; the goroutine, once [connect] has returned, waits in a
    select of its own to send the result or to see the cancellation, and
    then closes the endpoint.  The two run side by side: the model is the
    transition system of the pair, one move at a time, where a select
    moves by a case that is ready and a send meets a receive. *)

Section Reconnect.

Context {endpoint connection Version IgnoreSpecification Mode : Type}.
Variable newLocalEndpoint :
  string -> Version -> string -> IgnoreSpecification -> bool -> result endpoint.
Variable newRemoteEndpoint :
  connection -> string -> Version -> string -> IgnoreSpecification -> bool ->
  result endpoint.
Variable agent_DialSSH : URL -> string -> Mode -> result connection.
Variable agent_ModeEndpoint : Mode.
Variable Protocol_String : Protocol -> string.
(** [endpoint == nil], for an endpoint that came with a nil error. *)
Variable endpoint_nil : endpoint -> bool.

(** Where the goroutine started by [reconnect] stands: inside [connect];
    at its select, with what [connect] returned; or at its end. *)
Inductive goroutine :=
| Connecting
| Selecting (result : result endpoint)
| Ended.

(** Where [reconnect] itself stands: at its select, or returned. *)
Inductive function :=
| Waiting
| Returned (result : result endpoint).

(** The state of a call of [reconnect]: whether [ctx.Done()] is closed,
    the goroutine, the function, the calls that [connect] made, and the
    endpoints on which [close] was called. *)
Record reconnecting := mkReconnecting {
  cancelled : bool;
  background : goroutine;
  foreground : function;
  made : list (call (connection := connection) (Version := Version)
                 (IgnoreSpecification := IgnoreSpecification) (Mode := Mode));
  closed : list endpoint
}.

(** What can happen next. *)
Inductive move :=
(** the context is cancelled *)
| Cancel
(** [connect] returns in the goroutine *)
| ConnectReturns
(** the select of the goroutine takes [<-ctx.Done()] *)
| GoroutineGivesUp
(** the send of the goroutine and the receive of [reconnect] on the
    unbuffered channel [results] meet *)
| Handover
(** the select of [reconnect] takes [<-ctx.Done()] *)
| FunctionGivesUp.

(** One move of a call [reconnect(ctx, session, version, url, ignores,
    alpha)]; [None] when the move cannot be made in the state. *)
Definition reconnect_step
    (session : string) (version : Version) (url : URL)
    (ignores : IgnoreSpecification) (alpha : bool)
    (m : move) (st : reconnecting) : option reconnecting :=
  match m with
  | Cancel =>
      if cancelled st then None
      else Some (mkReconnecting true (background st) (foreground st) (made st)
                   (closed st))
  | ConnectReturns =>
      match background st with
      | Connecting =>
          (* Perform the connection. *)
          let '(called, result) :=
            connect newLocalEndpoint newRemoteEndpoint agent_DialSSH agent_ModeEndpoint
              Protocol_String session version url ignores alpha "" in
          Some (mkReconnecting (cancelled st) (Selecting result) (foreground st)
                  (made st ++ called) (closed st))
      | _ => None
      end
  | GoroutineGivesUp =>
      match background st with
      | Selecting result =>
          if cancelled st then
            (* If we can't transmit the resulting endpoint, close it. *)
            let closed_now :=
              match result with
              | Ok endpoint =>
                  if endpoint_nil endpoint then closed st
                  else (closed st ++ [endpoint])%list
              | Err _ => closed st
              end in
            Some (mkReconnecting (cancelled st) Ended (foreground st) (made st)
                    closed_now)
          else None
      | _ => None
      end
  | Handover =>
      match background st, foreground st with
      | Selecting result, Waiting =>
          Some (mkReconnecting (cancelled st) Ended (Returned result) (made st)
                  (closed st))
      | _, _ => None
      end
  | FunctionGivesUp =>
      match foreground st with
      | Waiting =>
          if cancelled st then
            Some (mkReconnecting (cancelled st) (background st)
                    (Returned (Err (errors_New "reconnect cancelled")))
                    (made st) (closed st))
          else None
      | Returned _ => None
      end
  end.

(** [reconnect] starts the goroutine and goes to its select. *)
Definition reconnect_start : reconnecting :=
  mkReconnecting false Connecting Waiting [] [].

(** The state after a sequence of moves, when they can be made in that
    order. *)
Fixpoint reconnect_run
    (session : string) (version : Version) (url : URL)
    (ignores : IgnoreSpecification) (alpha : bool)
    (moves : list move) (st : reconnecting) : option reconnecting :=
  match moves with
  | [] => Some st
  | m :: moves =>
      match reconnect_step session version url ignores alpha m st with
      | Some st => reconnect_run session version url ignores alpha moves st
      | None => None
      end
  end.

End Reconnect.
End Session.

(* ===================================================================== *)
(** * Package [sync]: the scanner *)
(* ===================================================================== *)

Module Sync.
Import Errors.

(** ** Numbers and paths *)

Definition uint32 (z : Z) : Z := z mod 2 ^ 32.
Definition uint64 (z : Z) : Z := z mod 2 ^ 64.

(** The bits of an [os.FileMode]. *)
Definition os_ModeDir : Z := Z.shiftl 1 31.
Definition os_ModeSymlink : Z := Z.shiftl 1 27.
Definition os_ModeDevice : Z := Z.shiftl 1 26.
Definition os_ModeNamedPipe : Z := Z.shiftl 1 25.
Definition os_ModeSocket : Z := Z.shiftl 1 24.
Definition os_ModeCharDevice : Z := Z.shiftl 1 21.
Definition os_ModeIrregular : Z := Z.shiftl 1 19.
Definition os_ModeType : Z :=
  Z.lor os_ModeDir (Z.lor os_ModeSymlink (Z.lor os_ModeNamedPipe
    (Z.lor os_ModeSocket (Z.lor os_ModeDevice
      (Z.lor os_ModeCharDevice os_ModeIrregular))))).

(** Modelled from the spec: the constant [AnyExecutablePermission] is
    declared outside the sources at hand; it covers the user, group and
    other execute permissions, octal 0111. *)
Definition AnyExecutablePermission : Z := 73.

(** The elements of a path: what stands between its slashes. *)
Fixpoint elements (path : string) : list string :=
  match path with
  | EmptyString => [""]
  | String c rest =>
      if Ascii.eqb c "/" then "" :: elements rest
      else match elements rest with
           | e :: es => String c e :: es
           | [] => [String c ""]
           end
  end.

Definition rooted (path : string) : bool :=
  match path with
  | String c _ => Ascii.eqb c "/"
  | EmptyString => false
  end.

(** One turn of the loop of [path.Clean], on the element [e]; [out] holds
    the elements written so far, the last one first.  An empty element and
    [.] are dropped; [..] removes the element before it, is dropped at the
    top of a rooted path and is kept where only [..] elements precede it in
    a path that is not rooted. *)
Definition clean_element (is_rooted : bool) (out : list string) (e : string)
    : list string :=
  if String.eqb e "" then out
  else if String.eqb e "." then out
  else if String.eqb e ".." then
    match out with
    | top :: below =>
        if String.eqb top ".." then (if is_rooted then out else e :: out)
        else below
    | [] => if is_rooted then out else [e]
    end
  else e :: out.

(** [path.Clean], which is [filepath.Clean] where the separator is a
    slash: the shortest path that names the same place by lexical
    processing alone. *)
Definition Clean (path : string) : string :=
  if String.eqb path "" then "."
  else
    let out := fold_left (clean_element (rooted path)) (elements path) [] in
    let body := String.concat "/" (rev out) in
    if rooted path then "/" ++ body
    else if String.eqb body "" then "." else body.

(** [path.Join] and [filepath.Join] of two elements: empty elements are
    dropped, the others joined by a slash and the result is cleaned; the
    join of empty elements only is the empty string. *)
Definition Join (a b : string) : string :=
  if String.eqb a "" then (if String.eqb b "" then "" else Clean b)
  else if String.eqb b "" then Clean a
  else Clean (a ++ "/" ++ b).

(** ** Data model *)

(** A byte slice; [None] is the [nil] slice. *)
Definition bytes := option (list Byte.byte).

(** A [time.Time]: the instant and the location it is shown in. *)
Record Time := mkTime {
  seconds : Z;
  nanoseconds : Z;
  location : string
}.

(** [Time.Equal] compares the instants and ignores the locations. *)
Definition Time_Equal (t u : Time) : bool :=
  (seconds t =? seconds u)%Z && (nanoseconds t =? nanoseconds u)%Z.

(** What the scanner reads of an [os.FileInfo]: [Mode()], [ModTime()] and
    [Size()] (an [int64]). *)
Record FileInfo := mkFileInfo {
  info_Mode : Z;
  info_ModTime : Time;
  info_Size : Z
}.

(** The message [CacheEntry]: [Mode] is a [uint32], [Size_] a [uint64]. *)
Record CacheEntry := mkCacheEntry {
  Mode : Z;
  ModificationTime : Time;
  Size_ : Z;
  Digest : bytes
}.

(** The message [Cache]: a Go map from relative paths to entries, none of
    them a nil pointer. *)
Record Cache := mkCache {
  Entries : gmap string CacheEntry
}.

Inductive EntryKind :=
| EntryKind_Directory
| EntryKind_File
| EntryKind_Symlink.

#[export] Instance EntryKind_eq_dec : EqDecision EntryKind.
Proof. solve_decision. Defined.

(** The message [Entry]; [Contents] is a Go map from names to entries. *)
#[warnings="-register-all"]
Inductive Entry :=
| mkEntry (Kind : EntryKind) (Executable : bool) (Digest : bytes)
          (Target : string) (Contents : gmap string Entry).

Definition Entry_Kind (e : Entry) : EntryKind :=
  let 'mkEntry k _ _ _ _ := e in k.
Definition Entry_Executable (e : Entry) : bool :=
  let 'mkEntry _ x _ _ _ := e in x.
Definition Entry_Digest (e : Entry) : bytes :=
  let 'mkEntry _ _ d _ _ := e in d.
Definition Entry_Target (e : Entry) : string :=
  let 'mkEntry _ _ _ t _ := e in t.
Definition Entry_Contents (e : Entry) : gmap string Entry :=
  let 'mkEntry _ _ _ _ c := e in c.

(** ** The environment of a scan *)

(** A [hash.Hash]: [Reset] returns to the initial state, [Write] never
    fails, [Sum b] appends the current hash to [b]. *)
Class Hasher := {
  hash_state : Type;
  hash_initial : hash_state;
  hash_Write : hash_state -> list Byte.byte -> hash_state;
  hash_Sum : hash_state -> bytes -> bytes
}.

(** What [io.CopyBuffer] gets out of an open file: the chunks returned by
    the successive reads, each at most [scannerCopyBufferSize] long, ended
    by the end of the file or by a read error. *)
Record stream := mkStream {
  chunks : list (list Byte.byte);
  read_error : option error
}.

Definition scannerCopyBufferSize : Z := 32 * 1024.

(** The host: the file system as the system calls show it, by full path,
    and whether the platform supports symbolic links.  A directory listing
    and the stat of a listed name are separate answers, so a name can be
    listed and gone when it is stat'ed. *)
Class Host := {
  os_Stat : string -> result FileInfo;
  os_Lstat : string -> result FileInfo;
  os_Open : string -> result stream;
  os_Readlink : string -> result string;
  filesystem_DirectoryContents : string -> result (list string);
  symlinksSupported : bool
}.

(** The compiled ignore patterns with their method [ignored]. *)
Record pathIgnorer := mkPathIgnorer {
  ignored : string -> bool
}.

(** [newPathIgnorer], declared outside the sources at hand. *)
Class Ignores := {
  newPathIgnorer : list string -> result pathIgnorer
}.

(** ** The scanner *)

(** What a scan does to the outside, in order, and the file entries it
    produces. *)
Inductive event :=
| EvStat (name : string)
| EvLstat (name : string)
| EvReadDir (name : string)
| EvReadlink (name : string)
| EvOpen (name : string)
(** [io.CopyBuffer] on the file of [path], of stat size [size], returned
    [copied] bytes, and an error when [failed] *)
| EvCopy (path : string) (size copied : Z) (failed : bool)
| EvClose (name : string)
(** [scanner.file] returned [entry] for [path], stat'ed as [info] *)
| EvFile (path : string) (info : FileInfo) (entry : Entry).

(** The fields of [scanner] that a scan only reads. *)
Record scanner := mkScanner {
  root : string;
  cache : Cache;
  s_pathIgnorer : pathIgnorer;
  ignoreSize : Z
}.

(** What a scan changes: the cache being filled, and the events so far
    (latest last).  The hasher is reset before each use, so its state
    between two files is not kept. *)
Record state := mkState {
  newCache : gmap string CacheEntry;
  trace : list event
}.

Definition log (ev : event) (st : state) : state :=
  mkState (newCache st) (trace st ++ [ev])%list.

(** How a scanner method ends: with a value, with an error, or without an
    answer when the recursion budget of the model is used up. *)
Inductive outcome (A : Type) :=
| Done (a : A)
| Failed (err : error)
| OutOfFuel.
Arguments Done {A} a.
Arguments Failed {A} err.
Arguments OutOfFuel {A}.

Section Scanner.
Context {hasher : Hasher} {host : Host} {ignorer : Ignores}.

(** The open, reset, copy, compare and sum of [scanner.file]; the file is
    closed on every way out once it is open. *)
Definition hash_file (s : scanner) (path : string) (size : Z) (st : state)
  : outcome bytes * state :=
  let name := Join (root s) path in
  (* Open the file and ensure its closure. *)
  let st := log (EvOpen name) st in
  match os_Open name with
  | Err err => (Failed (errors_Wrap err "unable to open file"), st)
  | Ok file =>
      (* Reset the hash state and copy data into the hash. *)
      let hasher := fold_left hash_Write (chunks file) hash_initial in
      let copied := Z.of_nat (List.length (List.concat (chunks file))) in
      let failed := match read_error file with Some _ => true | None => false end in
      let st := log (EvCopy path size copied failed) st in
      let st := log (EvClose name) st in
      match read_error file with
      | Some err => (Failed (errors_Wrap err "unable to hash file contents"), st)
      | None =>
          if negb (uint64 copied =? size)%Z
          then (Failed (errors_New "hashed size mismatch"), st)
          else (* Compute the digest. *)
            (Done (hash_Sum hasher None), st)
      end
  end.

Definition file (s : scanner) (path : string) (info : FileInfo) (st : state)
  : outcome Entry * state :=
  (* Extract metadata. *)
  let mode := info_Mode info in
  let modificationTime := info_ModTime info in
  let size := uint64 (info_Size info) in
  (* Compute executability. *)
  let executable := negb (Z.land mode AnyExecutablePermission =? 0)%Z in
  (* Try to find a cached digest. *)
  let digest : bytes :=
    match Entries (cache s) !! path with
    | Some cached =>
        if (Z.land (Mode cached) os_ModeType =? Z.land mode os_ModeType)%Z
           && Time_Equal modificationTime (ModificationTime cached)
           && (Size_ cached =? size)%Z
        then Digest cached
        else None
    | None => None
    end in
  (* If we weren't able to pull a digest from the cache, compute one. *)
  let '(computed, st) :=
    match digest with
    | None => hash_file s path size st
    | Some _ => (Done digest, st)
    end in
  match computed with
  | Done digest =>
      (* Add a cache entry. *)
      let entry := mkEntry EntryKind_File executable digest "" ∅ in
      let st :=
        mkState (<[path := mkCacheEntry (uint32 mode) modificationTime size digest]>
                   (newCache st))
                (trace st) in
      (Done entry, log (EvFile path info entry) st)
  | Failed err => (Failed err, st)
  | OutOfFuel => (OutOfFuel, st)
  end.

Definition symlink (s : scanner) (path : string) (st : state)
  : outcome Entry * state :=
  (* Read the link target and ensure it's sane. *)
  let name := Join (root s) path in
  let st := log (EvReadlink name) st in
  match os_Readlink name with
  | Err err => (Failed (errors_Wrap err "unable to read symlink target"), st)
  | Ok target =>
      if String.eqb target ""
      then (Failed (errors_New "empty symlink target read"), st)
      else (Done (mkEntry EntryKind_Symlink false None target ∅), st)
  end.

(** The kind computed for a directory content; [None] is the [continue]
    on an unsupported type. *)
Definition content_kind (mode : Z) : option EntryKind :=
  if negb (Z.land mode os_ModeDir =? 0)%Z then Some EntryKind_Directory
  else if negb (Z.land mode os_ModeSymlink =? 0)%Z then Some EntryKind_Symlink
  else if negb (Z.land mode os_ModeType =? 0)%Z then None
  else Some EntryKind_File.

(** How one round of the loop of [scanner.directory] ends. *)
Inductive round :=
| Continue
| Content (entry : Entry)
| Return (err : error)
| Exhausted.

Definition round_of (o : outcome Entry * state) : round * state :=
  match o with
  | (Done entry, st) => (Content entry, st)
  | (Failed err, st) => (Return err, st)
  | (OutOfFuel, st) => (Exhausted, st)
  end.

(** The body of the loop of [scanner.directory] for one name;
    [directory] is the recursive call. *)
Definition directory_round
    (directory : string -> state -> outcome Entry * state)
    (s : scanner) (path name : string) (st : state) : round * state :=
  (* Compute the content path. *)
  let contentPath := Join path name in
  (* If this path is ignored, then skip it. *)
  if ignored (s_pathIgnorer s) contentPath then (Continue, st)
  else
    (* Grab stat information for this path. *)
    let st := log (EvLstat (Join (root s) contentPath)) st in
    match os_Lstat (Join (root s) contentPath) with
    | Err err =>
        if os_IsNotExist err then (Continue, st)
        else (Return (errors_Wrap err "unable to stat directory content"), st)
    | Ok info =>
        (* Compute the kind for this content, skipping if unsupported. *)
        match content_kind (info_Mode info) with
        | None => (Continue, st)
        | Some kind =>
            (* If this entry is a file and ignored due to its size, skip. *)
            if (0 <? ignoreSize s)%Z
               && bool_decide (kind = EntryKind_File)
               && (ignoreSize s <=? uint64 (info_Size info))%Z
            then (Continue, st)
            else
              (* Handle based on kind. *)
              match kind with
              | EntryKind_File => round_of (file s contentPath info st)
              | EntryKind_Symlink =>
                  if symlinksSupported then round_of (symlink s contentPath st)
                  else (Continue, st)
              | EntryKind_Directory => round_of (directory contentPath st)
              end
        end
    end.

(** The loop of [scanner.directory] over the listed names. *)
Fixpoint directory_loop
    (directory : string -> state -> outcome Entry * state)
    (s : scanner) (path : string) (names : list string)
    (contents : gmap string Entry) (st : state)
  : outcome (gmap string Entry) * state :=
  match names with
  | [] => (Done contents, st)
  | name :: names =>
      match directory_round directory s path name st with
      | (Continue, st) => directory_loop directory s path names contents st
      | (Content entry, st) =>
          directory_loop directory s path names (<[name := entry]> contents) st
      | (Return err, st) => (Failed err, st)
      | (Exhausted, st) => (OutOfFuel, st)
      end
  end.

(** [scanner.directory]; [fuel] bounds the depth of the recursion. *)
Fixpoint directory (fuel : nat) (s : scanner) (path : string) (st : state)
  : outcome Entry * state :=
  match fuel with
  | O => (OutOfFuel, st)
  | S fuel =>
      (* Read directory contents. *)
      let st := log (EvReadDir (Join (root s) path)) st in
      match filesystem_DirectoryContents (Join (root s) path) with
      | Err err => (Failed (errors_Wrap err "unable to read directory contents"), st)
      | Ok directoryContents =>
          (* Compute entries. *)
          match directory_loop (directory fuel s) s path directoryContents ∅ st with
          | (Done contents, st) =>
              (Done (mkEntry EntryKind_Directory false None "" contents), st)
          | (Failed err, st) => (Failed err, st)
          | (OutOfFuel, st) => (OutOfFuel, st)
          end
      end
  end.

(** What [Scan] returns: the Go triple, or nothing when the recursion
    budget was too small; and the events of the run. *)
Definition returned : Type := option Entry * option Cache * option error.

Definition Scan (fuel : nat) (root : string) (cache : option Cache)
    (ignores : list string) (ignoreSize : Z) : option returned * list event :=
  (* If the cache is nil, create an empty one. *)
  let cache := match cache with Some c => c | None => mkCache ∅ end in
  (* Create the ignorer. *)
  match newPathIgnorer ignores with
  | Err err => (Some (None, None, Some (errors_Wrap err "unable to create ignorer")), [])
  | Ok pathIgnorer =>
      (* Create a new cache to populate, and a scanner. *)
      let newCache := mkCache ∅ in
      let s := mkScanner root cache pathIgnorer ignoreSize in
      let st := mkState ∅ [EvStat root] in
      (* Create the snapshot, following symbolic links at the root. *)
      match os_Stat root with
      | Err err =>
          if os_IsNotExist err then (Some (None, Some newCache, None), trace st)
          else (Some (None, None,
                      Some (errors_Wrap err "unable to probe snapshot root")), trace st)
      | Ok info =>
          let mode := info_Mode info in
          if negb (Z.land mode os_ModeDir =? 0)%Z then
            match directory fuel s "" st with
            | (Done rootEntry, st) =>
                (Some (Some rootEntry, Some (mkCache (Sync.newCache st)), None), trace st)
            | (Failed err, st) => (Some (None, None, Some err), trace st)
            | (OutOfFuel, st) => (None, trace st)
            end
          else if negb (Z.land mode os_ModeType =? 0)%Z then
            (Some (None, None, Some (errors_New "invalid snapshot root type")), trace st)
          else
            match file s "" info st with
            | (Done rootEntry, st) =>
                (Some (Some rootEntry, Some (mkCache (Sync.newCache st)), None), trace st)
            | (Failed err, st) => (Some (None, None, Some err), trace st)
            | (OutOfFuel, st) => (None, trace st)
            end
      end
  end.

End Scanner.

(** ** The path ignorer of the specification *)

(** A compiled pattern: a sequence of items, negated or not. *)
Inductive glob_item :=
| GlobStar
| GlobAny
| GlobClass (members : list ascii)
| GlobChar (c : ascii).

(** Reads a pattern; [inside] holds the members read so far of a class that
    is still open.  A class left open at the end is malformed. *)
Fixpoint glob_compile (pattern : string) (inside : option (list ascii))
  : option (list glob_item) :=
  match pattern, inside with
  | "", None => Some []
  | "", Some _ => None
  | String c rest, Some members =>
      if Ascii.eqb c "]"
      then option_map (cons (GlobClass members)) (glob_compile rest None)
      else glob_compile rest (Some (members ++ [c])%list)
  | String c rest, None =>
      if Ascii.eqb c "[" then glob_compile rest (Some [])
      else
        let item :=
          if Ascii.eqb c "*" then GlobStar
          else if Ascii.eqb c "?" then GlobAny
          else GlobChar c in
        option_map (cons item) (glob_compile rest None)
  end.

Fixpoint glob_match (items : list glob_item) (text : string) : bool :=
  match items with
  | [] => String.eqb text ""
  | GlobStar :: items' =>
      (fix star (text : string) : bool :=
         glob_match items' text
         || match text with
            | "" => false
            | String _ text' => star text'
            end) text
  | GlobAny :: items' =>
      match text with
      | "" => false
      | String _ text' => glob_match items' text'
      end
  | GlobClass members :: items' =>
      match text with
      | "" => false
      | String c text' =>
          existsb (Ascii.eqb c) members && glob_match items' text'
      end
  | GlobChar a :: items' =>
      match text with
      | "" => false
      | String c text' => Ascii.eqb a c && glob_match items' text'
      end
  end.

(** A pattern with its leading [!] read off. *)
Definition compile_pattern (pattern : string) : option (bool * list glob_item) :=
  match pattern with
  | String "!" rest => option_map (pair true) (glob_compile rest None)
  | _ => option_map (pair false) (glob_compile pattern None)
  end.

Fixpoint compile_patterns (patterns : list string)
  : option (list (bool * list glob_item)) :=
  match patterns with
  | [] => Some []
  | pattern :: patterns =>
      match compile_pattern pattern, compile_patterns patterns with
      | Some p, Some ps => Some (p :: ps)
      | _, _ => None
      end
  end.

(** The last matching pattern decides; no match: not ignored. *)
Definition last_match (compiled : list (bool * list glob_item)) (path : string) : bool :=
  fold_left
    (fun verdict '(negated, items) =>
       if glob_match items path then negb negated else verdict)
    compiled false.

(** Modelled from the spec: [newPathIgnorer] and [pathIgnorer.ignored] are
    not part of the sources at hand.  The patterns are shell-style globs
    with [*], [?] and [[...]], a leading [!] negates; [ignored path] is true
    iff the last pattern matching the path is not negated; the compilation
    fails on a malformed pattern, which here is one with a class [[...]
    that is never closed. *)
Definition spec_Ignores : Ignores := {|
  newPathIgnorer patterns :=
    match compile_patterns patterns with
    | Some compiled => Ok (mkPathIgnorer (last_match compiled))
    | None => Err (errors_New "unable to parse pattern")
    end
|}.

End Sync.

(* ===================================================================== *)
(** * Vocabulary of the properties *)
(* ===================================================================== *)

Module UrlTerms.
Import Url.

(** The text that [formatSSH] builds, with the appends reassociated. *)
Definition ssh_tail (u : URL) : string :=
  if N.eqb (Port u) 0 then Path u
  else format_decimal (Port u) ++ String ":" (Path u).

(** A URL that [Format] renders in a form [Parse] reads back unchanged: an
    SSH URL needs a user name, or no [@] in host and path, and a port, or a
    path that does not itself begin with a port. *)
Definition stable (u : URL) : bool :=
  match Protocol_ u with
  | Protocol_SSH =>
      (negb (String.eqb (Username u) "")
       || negb (contains "@" (Hostname u) || contains "@" (Path u)))
      && (negb (N.eqb (Port u) 0)
          || match parse_port (Path u) with None => true | Some _ => false end)
  | _ => true
  end.

(** The rendering of a URL in words: a Local or Custom URL is its path, an
    SSH URL is [[user@]host[:port]:path] without the port when it is 0. *)
Definition render (u : URL) : string :=
  match Protocol_ u with
  | Protocol_SSH =>
      (if String.eqb (Username u) "" then "" else Username u ++ "@")
      ++ Hostname u
      ++ (if N.eqb (Port u) 0 then "" else ":" ++ format_decimal (Port u))
      ++ ":" ++ Path u
  | _ => Path u
  end.

(** The path begins like a port: digits, at least one, and a colon. *)
Definition begins_with_port (path : string) : bool :=
  match cut ":" path with
  | Some (digits, _) => negb (String.eqb digits "") && all_chars is_digit digits
  | None => false
  end.

(** An SSH URL whose parts can be told apart in its formatted text: no [@]
    and no [:] in the user name and in the host name, and a port, or a
    path that does not begin like one. *)
Definition distinct_parts (u : URL) : bool :=
  negb (contains "@" (Username u)) && negb (contains ":" (Username u))
  && negb (contains "@" (Hostname u)) && negb (contains ":" (Hostname u))
  && (negb (N.eqb (Port u) 0) || negb (begins_with_port (Path u))).

(** The text that [formatSSH] puts before the colon of the host. *)
Definition ssh_head (u : URL) : string :=
  if String.eqb (Username u) "" then Hostname u
  else Username u ++ String "@" (Hostname u).

End UrlTerms.

Module SessionTerms.
Import Url.

(** [needle] occurs inside [text]. *)
Definition occurs_in (needle text : string) : Prop :=
  exists before after, text = before ++ needle ++ after.

(** The enumeration's names, for the example. *)
Definition demo_Protocol_String (p : Protocol) : string :=
  match p with
  | Protocol_Local => "Local"
  | Protocol_SSH => "SSH"
  | Protocol_Custom => "Custom"
  | Protocol_Unknown n => "Unknown"
  end.

(** ** [reconnect] *)

Import Errors Session.

(** The error of a cancelled [reconnect]. *)
Definition reconnect_cancelled : error := errors_New "reconnect cancelled".

Section ReconnectTerms.
Context {endpoint connection Version IgnoreSpecification Mode : Type}.
Variable newLocalEndpoint :
  string -> Version -> string -> IgnoreSpecification -> bool -> result endpoint.
Variable newRemoteEndpoint :
  connection -> string -> Version -> string -> IgnoreSpecification -> bool ->
  result endpoint.
Variable agent_DialSSH : URL -> string -> Mode -> result connection.
Variable agent_ModeEndpoint : Mode.
Variable Protocol_String : Protocol -> string.
Variable endpoint_nil : endpoint -> bool.
Variable session : string.
Variable version : Version.
Variable url : URL.
Variable ignores : IgnoreSpecification.
Variable alpha : bool.

(** What [connect] does and returns in the goroutine. *)
#[local] Abbreviation connected :=
  (connect newLocalEndpoint newRemoteEndpoint agent_DialSSH agent_ModeEndpoint
     Protocol_String session version url ignores alpha "").

(** The endpoints that the goroutine closes when it gives up. *)
Definition to_close (result : result endpoint) : list endpoint :=
  match result with
  | Ok e => if endpoint_nil e then [] else [e]
  | Err _ => []
  end.

(** The moves that a call of [reconnect] can still make, at most: one
    cancellation, two of the goroutine, one of the function. *)
Definition moves_left
    (st : reconnecting (endpoint := endpoint) (connection := connection)
            (Version := Version) (IgnoreSpecification := IgnoreSpecification)
            (Mode := Mode)) : nat :=
  (if cancelled st then 0 else 1)
  + match background st with Connecting => 2 | Selecting _ => 1 | Ended => 0 end
  + match foreground st with Waiting => 1 | Returned _ => 0 end.

(** What holds in every state of a call of [reconnect]. *)
Definition reconnect_inv
    (st : reconnecting (endpoint := endpoint) (connection := connection)
            (Version := Version) (IgnoreSpecification := IgnoreSpecification)
            (Mode := Mode)) : Prop :=
  match background st with
  | Connecting =>
      made st = [] /\ closed st = [] /\
      match foreground st with
      | Waiting => True
      | Returned r => r = Err reconnect_cancelled /\ cancelled st = true
      end
  | Selecting result =>
      result = snd connected /\ made st = fst connected /\ closed st = [] /\
      match foreground st with
      | Waiting => True
      | Returned r => r = Err reconnect_cancelled /\ cancelled st = true
      end
  | Ended =>
      made st = fst connected /\
      match foreground st with
      | Waiting => cancelled st = true /\ closed st = to_close (snd connected)
      | Returned r =>
          (r = snd connected /\ closed st = []) \/
          (r = Err reconnect_cancelled /\ cancelled st = true /\
           closed st = to_close (snd connected))
      end
  end.

End ReconnectTerms.

(** A call of [reconnect] for a local URL, with constructors that return
    the path as the endpoint. *)
Definition demo_reconnect (moves : list move) : option reconnecting :=
  reconnect_run (endpoint := string) (connection := unit) (Version := nat)
    (IgnoreSpecification := list string) (Mode := bool)
    (fun _ _ path _ _ => Ok path) (fun _ _ _ path _ _ => Ok path)
    (fun _ _ _ => Ok tt) true demo_Protocol_String
    (fun e => String.eqb e "")
    "session" 1%nat (mkURL Protocol_Local "" "" 0 "/home/user/project") [] true
    moves reconnect_start.

End SessionTerms.

Module SyncTerms.
Import Errors Sync.

(** A cache entry is a valid hit for a stat: same type bits, same size, same
    modification time. *)
Definition valid_hit (cached : CacheEntry) (info : FileInfo) : Prop :=
  Z.land (Mode cached) os_ModeType = Z.land (info_Mode info) os_ModeType /\
  Size_ cached = uint64 (info_Size info) /\
  Time_Equal (info_ModTime info) (ModificationTime cached) = true.

(** The cache entry that records a stat and a digest. *)
Definition entry_for (info : FileInfo) (digest : bytes) : CacheEntry :=
  mkCacheEntry (uint32 (info_Mode info)) (info_ModTime info)
               (uint64 (info_Size info)) digest.

(** A regular file: no type bit set. *)
Definition regular (info : FileInfo) : Prop :=
  Z.land (info_Mode info) os_ModeType = 0%Z.

(** Some file was opened among the events. *)
Definition opened (events : list event) : Prop :=
  exists name, In (EvOpen name) events.

(** The bytes an open file delivers. *)
Definition copied_of (f : stream) : Z :=
  Z.of_nat (List.length (List.concat (chunks f))).

(** The digest of the bytes an open file delivers. *)
Definition digest_of {hasher : Hasher} (f : stream) : bytes :=
  hash_Sum (fold_left hash_Write (chunks f) hash_initial) None.

(** The digest [scanner.file] takes from the cache. *)
Definition cached_digest (s : scanner) (path : string) (info : FileInfo) : bytes :=
  match Entries (cache s) !! path with
  | Some cached =>
      if (Z.land (Mode cached) os_ModeType =? Z.land (info_Mode info) os_ModeType)%Z
         && Time_Equal (info_ModTime info) (ModificationTime cached)
         && (Size_ cached =? uint64 (info_Size info))%Z
      then Digest cached
      else None
  | None => None
  end.

(** The input cache has a valid hit for the path that carries a digest. *)
Definition usable_hit (s : scanner) (path : string) (info : FileInfo) : Prop :=
  exists cached d,
    Entries (cache s) !! path = Some cached /\ valid_hit cached info /\
    Digest cached = Some d.

(** The size filter of the loop, for a regular file. *)
Definition size_filtered (s : scanner) (info : FileInfo) : bool :=
  (0 <? ignoreSize s)%Z && (ignoreSize s <=? uint64 (info_Size info))%Z.

Definition is_EvFile (ev : event) : bool :=
  match ev with EvFile _ _ _ => true | _ => false end.

(** ** A proof rule for the traversal *)

(** [holds P F r]: the state satisfies [P] when the method went on (or
    stopped for lack of fuel), and [F] when it returned an error. *)
Definition holds {A} (P F : state -> Prop) (r : outcome A * state) : Prop :=
  match r with
  | (Done _, st) => P st
  | (Failed _, st) => F st
  | (OutOfFuel, st) => P st
  end.

Definition holds_round (P F : state -> Prop) (r : round * state) : Prop :=
  match r with
  | (Continue, st) => P st
  | (Content _, st) => P st
  | (Return _, st) => F st
  | (Exhausted, st) => P st
  end.

(** ** The ways [Scan] returns *)

(** The scanner and the first state that [Scan] sets up. *)
Definition scanner_of (root : string) (cache : option Cache) (ig : pathIgnorer)
    (ignoreSize : Z) : scanner :=
  mkScanner root (match cache with Some c => c | None => mkCache ∅ end) ig ignoreSize.

Definition start (root : string) : state := mkState ∅ [EvStat root].

(** What [Scan] makes of the outcome of the root method. *)
Definition finish (o : outcome Entry * state) : option returned * list event :=
  match o with
  | (Done rootEntry, st) =>
      (Some (Some rootEntry, Some (mkCache (newCache st)), None), trace st)
  | (Failed err, st) => (Some (None, None, Some err), trace st)
  | (OutOfFuel, st) => (None, trace st)
  end.

(** ** The snapshot and the events *)

(** The entry found in a snapshot by going down the names. *)
Fixpoint lookup_path (e : Entry) (names : list string) : option Entry :=
  match names with
  | [] => Some e
  | name :: names =>
      match Entry_Contents e !! name with
      | Some child => lookup_path child names
      | None => None
      end
  end.

(** The relative path of the entry reached from [path] by the names. *)
Definition joins (path : string) (names : list string) : string :=
  fold_left Join names path.

(** Every file entry inside the entry [e] of [path] was reported, with its
    relative path, by an [EvFile] event. *)
Definition reported (path : string) (e : Entry) (events : list event) : Prop :=
  forall names e',
    lookup_path e names = Some e' -> Entry_Kind e' = EntryKind_File ->
    exists info, In (EvFile (joins path names) info e') events.

(** Every file entry that the events report is found inside the entry [e]
    of [path], under names that make up its relative path. *)
Definition located (path : string) (e : Entry) (events : list event) : Prop :=
  forall p info e',
    In (EvFile p info e') events ->
    exists names, joins path names = p /\ lookup_path e names = Some e'.

(** The cache [c] holds, for every file entry that the events report, the
    entry of its stat and digest, and that digest is not nil. *)
Definition cached_in (c : Cache) (events : list event) : Prop :=
  forall path info entry,
    In (EvFile path info entry) events ->
    Entries c !! path = Some (entry_for info (Entry_Digest entry)) /\
    Entry_Digest entry <> None.

(** From [st] to [st'] no file was opened. *)
Definition quietly (st st' : state) : Prop :=
  exists new, trace st' = (trace st ++ new)%list /\ ~ opened new.

(** A value that a first run returned, ending in [st1'], is what the
    second run returns from [st2]: with the same new cache at the end, and
    with no file opened. *)
Definition again {A} (value : A) (st1' st2 : state) (o2 : A * state) : Prop :=
  fst o2 = value /\ newCache (snd o2) = newCache st1' /\ quietly st2 (snd o2).

(** The events of [st'] continue those of [st]. *)
Definition extends (st st' : state) : Prop :=
  exists events, trace st' = (trace st ++ events)%list.

Section Terms.
Context {hasher : Hasher} {host : Host}.

(** ** What the events say *)

(** An event after which the scan cannot go on: a stat that failed with
    anything but not-found, a directory, link or file that could not be
    read, a copy that failed or delivered another number of bytes than
    the stat size. *)
Definition fatal (ev : event) : bool :=
  match ev with
  | EvStat name =>
      match os_Stat name with Err err => negb (os_IsNotExist err) | Ok _ => false end
  | EvLstat name =>
      match os_Lstat name with Err err => negb (os_IsNotExist err) | Ok _ => false end
  | EvReadDir name =>
      match filesystem_DirectoryContents name with Err _ => true | Ok _ => false end
  | EvReadlink name =>
      match os_Readlink name with Err _ => true | Ok target => String.eqb target "" end
  | EvOpen name =>
      match os_Open name with Err _ => true | Ok _ => false end
  | EvCopy _ size copied failed => failed || negb (uint64 copied =? size)%Z
  | EvClose _ => false
  | EvFile _ _ _ => false
  end.

(** An event that neither stops the scan nor reports a file entry. *)
Definition quiet (ev : event) : Prop := fatal ev = false /\ is_EvFile ev = false.

(** The result of [scanner.file] does not depend on the state it starts
    from: it is a function of the path, the stat, the input cache and the
    host. *)
Definition file_value (s : scanner) (path : string) (info : FileInfo) : outcome Entry :=
  fst (file s path info (mkState ∅ [])).

(** The contents so far hold, under each name, the entry that a round for
    that name gives. *)
Definition settled (rec : string -> state -> outcome Entry * state) (s : scanner)
    (path : string) (contents : gmap string Entry) : Prop :=
  forall name child,
    contents !! name = Some child ->
    forall st, fst (directory_round rec s path name st) = Content child.

(** ** The invariant of a traversal *)

(** While [scanner.directory] goes on: every file entry reported so far is
    for a path that is not ignored, stat'ed as a regular file within the
    size limit, is the value of [scanner.file] there, and is recorded in
    the new cache; the new cache has no other keys; and no event so far
    is fatal. *)
Record traversal_inv (s : scanner) (st : state) : Prop := {
  inv_files : forall path info entry,
    In (EvFile path info entry) (trace st) ->
    ignored (s_pathIgnorer s) path = false /\
    os_Lstat (Join (root s) path) = Ok info /\
    content_kind (info_Mode info) = Some EntryKind_File /\
    size_filtered s info = false /\
    file_value s path info = Done entry /\
    newCache st !! path = Some (entry_for info (Entry_Digest entry));
  inv_cache : forall key ce,
    newCache st !! key = Some ce ->
    exists info entry, In (EvFile key info entry) (trace st) /\
                       ce = entry_for info (Entry_Digest entry);
  inv_quiet : Forall (fun ev => fatal ev = false) (trace st)
}.

(** The digest of the root file can be had: from the cache, or by reading
    the file in full under the name [scanner.file] opens for the empty
    path, [filepath.Join root ""]: the root, cleaned. *)
Definition digest_available (s : scanner) (info : FileInfo) : Prop :=
  usable_hit s "" info \/
  exists f, os_Open (Join (root s) "") = Ok f /\ read_error f = None /\
            uint64 (copied_of f) = uint64 (info_Size info).

(** ** What the loop takes into a directory *)

(** The loop of [scanner.directory] makes an entry for the child [path]:
    the path is not ignored, its lstat succeeds with a supported type, a
    regular file is under the size limit, and a symbolic link is taken
    only where the platform supports them. *)
Definition included (s : scanner) (path : string) : bool :=
  negb (ignored (s_pathIgnorer s) path) &&
  match os_Lstat (Join (root s) path) with
  | Err _ => false
  | Ok info =>
      match content_kind (info_Mode info) with
      | None => false
      | Some EntryKind_Directory => true
      | Some EntryKind_File => negb (size_filtered s info)
      | Some EntryKind_Symlink => symlinksSupported
      end
  end.

(** The stat that made the loop produce the entry [e] for the child
    [path]. *)
Definition taken (s : scanner) (path : string) (e : Entry) : Prop :=
  ignored (s_pathIgnorer s) path = false /\
  exists info,
    os_Lstat (Join (root s) path) = Ok info /\
    content_kind (info_Mode info) = Some (Entry_Kind e) /\
    (Entry_Kind e = EntryKind_File ->
     size_filtered s info = false /\ file_value s path info = Done e).

(** The entry [e] is what a scan makes of [path]: a file entry, the entry
    of a link with its target, or the entry of a directory whose contents
    are the listed names that the loop takes in, each with what a scan
    makes of it. *)
Inductive scanned (s : scanner) : string -> Entry -> Prop :=
| scanned_file (path : string) (executable : bool) (digest : bytes) :
    scanned s path (mkEntry EntryKind_File executable digest "" ∅)
| scanned_symlink (path target : string) :
    symlinksSupported = true ->
    os_Readlink (Join (root s) path) = Ok target ->
    target <> "" ->
    scanned s path (mkEntry EntryKind_Symlink false None target ∅)
| scanned_directory (path : string) (listed : list string)
    (contents : gmap string Entry) :
    filesystem_DirectoryContents (Join (root s) path) = Ok listed ->
    (forall name, is_Some (contents !! name) <->
                  In name listed /\ included s (Join path name) = true) ->
    (forall name child, contents !! name = Some child ->
                        taken s (Join path name) child) ->
    (forall name child, contents !! name = Some child ->
                        scanned s (Join path name) child) ->
    scanned s path (mkEntry EntryKind_Directory false None "" contents).

(** ** The depth of a tree *)

(** The directories at and below [path] nest less than [depth] deep, going
    by the listings and the lstat of the host. *)
Fixpoint shallow (depth : nat) (root path : string) : bool :=
  match depth with
  | O => false
  | S depth =>
      match filesystem_DirectoryContents (Join root path) with
      | Err _ => true
      | Ok names =>
          forallb (fun name =>
                     match os_Lstat (Join root (Join path name)) with
                     | Ok info =>
                         (Z.land (info_Mode info) os_ModeDir =? 0)%Z
                         || shallow depth root (Join path name)
                     | Err _ => true
                     end) names
      end
  end.

(** ** Open files *)

(** In the events, a file that opens is copied and closed at once, before
    any other event, and nothing else is copied or closed. *)
Fixpoint balanced (events : list event) : bool :=
  match events with
  | [] => true
  | EvOpen name :: rest =>
      match os_Open name with
      | Err _ => balanced rest
      | Ok _ =>
          match rest with
          | EvCopy _ _ _ _ :: EvClose name' :: rest =>
              String.eqb name name' && balanced rest
          | _ => false
          end
      end
  | EvCopy _ _ _ _ :: _ => false
  | EvClose _ :: _ => false
  | _ :: rest => balanced rest
  end.

(** ** What a scan looks at *)




(** ** Stopping at a failure *)

(** The events end at a fatal event: none before it is fatal, and nothing
    follows it but the close of the file whose copy failed. *)
Definition stopped (events : list event) : Prop :=
  exists before ev after,
    events = (before ++ ev :: after)%list /\
    fatal ev = true /\
    Forall (fun e => fatal e = false) before /\
    (after = [] \/ exists name, after = [EvClose name]).

(** ** The stat of a file entry *)

(** The stat of a file entry at [path] in a scan of [root]: the stat of
    the root for a file at the root, the lstat of the path in a scan of a
    directory. *)
Definition stat_of (root path : string) (info : FileInfo) : Prop :=
  exists rootinfo,
    os_Stat root = Ok rootinfo /\
    if (Z.land (info_Mode rootinfo) os_ModeDir =? 0)%Z
    then path = "" /\ info = rootinfo
    else os_Lstat (Join root path) = Ok info.

(** ** A cache that tells the truth *)

(** The cache [c] tells the truth about [path] with the stat [info]: if
    its entry for the path has a digest and matches the stat, the file at
    that path under [root] can be read in full, at the size of the stat,
    and its bytes have that digest. *)
Definition accurate_at (root : string) (c : Cache) (path : string)
    (info : FileInfo) : Prop :=
  forall cached d,
    Entries c !! path = Some cached -> valid_hit cached info ->
    Digest cached = Some d ->
    exists f, os_Open (Join root path) = Ok f /\ read_error f = None /\
              uint64 (copied_of f) = uint64 (info_Size info) /\
              digest_of f = Some d.

(** The cache [c] tells the truth about every path with the stat that a
    scan of [root] gets for it now.  An entry that is stale, matching no
    present stat, is under no condition. *)
Definition accurate (root : string) (c : Cache) : Prop :=
  forall path info, stat_of root path info -> accurate_at root c path info.

(** Two runs agree: same result, same new cache. *)
Definition agree {A} (o1 o2 : A * state) : Prop :=
  fst o1 = fst o2 /\ newCache (snd o1) = newCache (snd o2).

End Terms.

(** ** Listing a directory in another order *)

(** The host [host] with its directories listed by [listing]. *)
Definition relisted (host : Host) (listing : string -> result (list string)) : Host := {|
  os_Stat := @os_Stat host;
  os_Lstat := @os_Lstat host;
  os_Open := @os_Open host;
  os_Readlink := @os_Readlink host;
  filesystem_DirectoryContents := listing;
  symlinksSupported := @symlinksSupported host
|}.

(** [listing] lists the names that the host lists, in any order and any
    number of times, and fails where the host fails. *)
Definition same_names (host : Host) (listing : string -> result (list string)) : Prop :=
  forall name,
    match @filesystem_DirectoryContents host name, listing name with
    | Ok listed, Ok listed' => forall x, In x listed <-> In x listed'
    | Err e, Err e' => e = e'
    | _, _ => False
    end.

(** ** A small host for the examples *)

(** A hasher whose digest is the content itself. *)
Definition plain_hasher : Hasher := {|
  hash_state := list Byte.byte;
  hash_initial := [];
  hash_Write h data := (h ++ data)%list;
  hash_Sum h b :=
    match b, h with
    | None, [] => None
    | None, _ => Some h
    | Some l, _ => Some (l ++ h)%list
    end
|}.

Definition hello : list Byte.byte :=
  [Byte.x68; Byte.x65; Byte.x6c; Byte.x6c; Byte.x6f; Byte.x20;
   Byte.x77; Byte.x6f; Byte.x72; Byte.x6c; Byte.x64].

Definition noon : Time := mkTime 1500000000 0 "UTC".

Definition plain_file (size : Z) : FileInfo := mkFileInfo 420 noon size.

Definition a_directory : FileInfo := mkFileInfo (Z.lor os_ModeDir 493) noon 4096.

Definition a_symlink : FileInfo := mkFileInfo (Z.lor os_ModeSymlink 511) noon 5.

Definition a_socket : FileInfo := mkFileInfo (Z.lor os_ModeSocket 420) noon 0.

Definition EACCES : Errno := Errno_other 13 "permission denied".

(** The tree: [/r] holds [a.txt], [big.bin], [b.log], the directory [sub]
    with [x], the link [link], the socket [sock], and lists [gone], which
    is not there any more; [/f] is a file, [/locked] a file that cannot be
    opened, [/short] a file that delivers fewer bytes than its size, and
    [/bad] a directory with a child that cannot be stat'ed. *)
Definition demo_stat (name : string) : result FileInfo :=
  if String.eqb name "/r" then Ok a_directory
  else if String.eqb name "/r/a.txt" then Ok (plain_file 11)
  else if String.eqb name "/r/big.bin" then Ok (plain_file 100)
  else if String.eqb name "/r/b.log" then Ok (plain_file 11)
  else if String.eqb name "/r/sub" then Ok a_directory
  else if String.eqb name "/r/sub/x" then Ok (plain_file 11)
  else if String.eqb name "/r/link" then Ok a_symlink
  else if String.eqb name "/r/sock" then Ok a_socket
  else if String.eqb name "/f" then Ok (plain_file 11)
  else if String.eqb name "/locked" then Ok (plain_file 11)
  else if String.eqb name "/short" then Ok (plain_file 12)
  else if String.eqb name "/bad" then Ok a_directory
  else if String.eqb name "/bad/denied" then Err (PathError "lstat" name EACCES)
  else Err (PathError "stat" name ENOENT).

Definition demo_host : Host := {|
  os_Stat := demo_stat;
  os_Lstat := demo_stat;
  os_Open name :=
    if String.eqb name "/locked" then Err (PathError "open" name EACCES)
    else if String.eqb name "/r/big.bin" then Err (PathError "open" name EACCES)
    else Ok (mkStream [hello] None);
  os_Readlink name :=
    if String.eqb name "/r/link" then Ok "a.txt"
    else Err (PathError "readlink" name ENOENT);
  filesystem_DirectoryContents name :=
    if String.eqb name "/r"
    then Ok ["a.txt"; "gone"; "big.bin"; "sub"; "link"; "sock"; "b.log"]
    else if String.eqb name "/r/sub" then Ok ["x"]
    else if String.eqb name "/bad" then Ok ["denied"]
    else Err (PathError "open" name ENOENT);
  symlinksSupported := true
|}.

Definition demo_Scan :=
  @Scan plain_hasher demo_host spec_Ignores.

Definition demo_file := @file plain_hasher demo_host.

(** The scanner of a scan of [/f] whose input cache holds, for the root, an
    entry with the mode, time and size of the file and the digest
    [digest]. *)
Definition cached_f (digest : bytes) : scanner :=
  mkScanner "/f" (mkCache {[ "" := mkCacheEntry 420 noon 11 digest ]})
            (mkPathIgnorer (fun _ => false)) 0.

(** The scan of [/r] with the pattern [*.log] and a size limit of 50. *)
Definition demo_run : option returned * list event :=
  demo_Scan 5 "/r" None ["*.log"] 50.

Definition demo_scanner (limit : Z) : scanner :=
  mkScanner "/r" (mkCache ∅) (mkPathIgnorer (fun _ => false)) limit.

(** The ignorer that the pattern [*.log] compiles to. *)
Definition log_ignorer : pathIgnorer :=
  mkPathIgnorer
    (last_match [(false, [GlobStar; GlobChar "."; GlobChar "l"; GlobChar "o"; GlobChar "g"])]).

(** The listings of the small host, each in reverse. *)
Definition demo_reversed (name : string) : result (list string) :=
  match @filesystem_DirectoryContents demo_host name with
  | Ok listed => Ok (rev listed)
  | Err e => Err e
  end.

(** A cache with the entry of [a.txt] and a stale entry for [sub/x], of
    another size and with another digest. *)
Definition stale_cache : Cache :=
  mkCache {[ "a.txt" := mkCacheEntry 420 noon 11 (Some hello);
             "sub/x" := mkCacheEntry 420 noon 99 (Some [Byte.x00]) ]}.

(** A host where [/r/jump] is a link to a directory elsewhere: the name
    [/r/jump/../f] leads through the link to a regular file, and [/r/f],
    which that name cleans to, is not there. *)
Definition linked_stat (name : string) : result FileInfo :=
  if String.eqb name "/r/jump/../f" then Ok (plain_file 11)
  else Err (PathError "stat" name ENOENT).

Definition linked_host : Host := {|
  os_Stat := linked_stat;
  os_Lstat := linked_stat;
  os_Open name :=
    if String.eqb name "/r/jump/../f" then Ok (mkStream [hello] None)
    else Err (PathError "open" name ENOENT);
  os_Readlink name := Err (PathError "readlink" name ENOENT);
  filesystem_DirectoryContents name := Err (PathError "open" name ENOENT);
  symlinksSupported := true
|}.

End SyncTerms.

(* ===================================================================== *)
(** * Properties of package [url] *)
(* ===================================================================== *)

Module UrlSpec.
Import Url UrlTerms.

(** ** The parse corpus of the package's tests *)

(** The parse corpus of the package's tests. *)
Example TestParseEmptyInvalid : Parse "" = None.
Proof. reflexivity. Qed.

Example TestParseEmptyHostnameAndPathInvalid : Parse ":" = None.
Proof. reflexivity. Qed.

Example TestParseEmptyHostnameInvalid : Parse ":path" = None.
Proof. reflexivity. Qed.

Example TestParseUsernameEmptyHostnameInvalid : Parse "user@:path" = None.
Proof. reflexivity. Qed.

Example TestParsePath :
  Parse "/this/is/a:path" = Some (mkURL Protocol_Local "" "" 0 "/this/is/a:path").
Proof. reflexivity. Qed.

Example TestParseUsernameHostnameIsLocal :
  Parse "user@host" = Some (mkURL Protocol_Local "" "" 0 "user@host").
Proof. reflexivity. Qed.

Example TestParseHostnameEmptyPath :
  Parse "host:" = Some (mkURL Protocol_SSH "" "host" 0 "").
Proof. reflexivity. Qed.

Example TestParseHostnamePath :
  Parse "host:path" = Some (mkURL Protocol_SSH "" "host" 0 "path").
Proof. reflexivity. Qed.

Example TestParseUsernameHostnamePath :
  Parse "user@host:path" = Some (mkURL Protocol_SSH "user" "host" 0 "path").
Proof. reflexivity. Qed.

Example TestParseUsernameHostnamePathWithColonAtStart :
  Parse "user@host::path" = Some (mkURL Protocol_SSH "user" "host" 0 ":path").
Proof. reflexivity. Qed.

Example TestParseUsernameHostnamePathWithColonInMiddle :
  Parse "user@host:pa:th" = Some (mkURL Protocol_SSH "user" "host" 0 "pa:th").
Proof. reflexivity. Qed.

Example TestParseUsernameHostnamePathWithColonAtEnd :
  Parse "user@host:path:" = Some (mkURL Protocol_SSH "user" "host" 0 "path:").
Proof. reflexivity. Qed.

Example TestParseUsernameHostnameWithAtPath :
  Parse "user@ho@st:path" = Some (mkURL Protocol_SSH "user" "ho@st" 0 "path").
Proof. reflexivity. Qed.

Example TestParseUsernameHostnamePathWithAt :
  Parse "user@host:pa@th" = Some (mkURL Protocol_SSH "user" "host" 0 "pa@th").
Proof. reflexivity. Qed.

Example TestParseUsernameHostnamePortPath :
  Parse "user@host:65535:path" = Some (mkURL Protocol_SSH "user" "host" 65535 "path").
Proof. reflexivity. Qed.

Example TestParseUsernameHostnameZeroPortPath :
  Parse "user@host:0:path" = Some (mkURL Protocol_SSH "user" "host" 0 "path").
Proof. reflexivity. Qed.

Example TestParseUsernameHostnameDoubleZeroPortPath :
  Parse "user@host:00:path" = Some (mkURL Protocol_SSH "user" "host" 0 "path").
Proof. reflexivity. Qed.

Example TestParseUsernameHostnameNumericPath :
  Parse "user@host:65536:path" = Some (mkURL Protocol_SSH "user" "host" 0 "65536:path").
Proof. reflexivity. Qed.

Example TestParseUsernameHostnameHexNumericPath :
  Parse "user@host:aaa:path" = Some (mkURL Protocol_SSH "user" "host" 0 "aaa:path").
Proof. reflexivity. Qed.

Example TestParseUnicodeUsernameHostnamePath :
  Parse "üsér@høst:пат" = Some (mkURL Protocol_SSH "üsér" "høst" 0 "пат").
Proof. reflexivity. Qed.

Example TestParseUnicodeUsernameHostnamePortPath :
  Parse "üsér@høst:23:пат" = Some (mkURL Protocol_SSH "üsér" "høst" 23 "пат").
Proof. reflexivity. Qed.

Example TestParseCustomInvalidScheme : Parse "5http://example.org/" = None.
Proof. reflexivity. Qed.

Example TestParseCustom :
  Parse "htt-...+p://example.org/"
  = Some (mkURL Protocol_Custom "" "" 0 "htt-...+p://example.org/").
Proof. reflexivity. Qed.

(** ** Splitting and searching strings *)

Lemma append_cons (a : ascii) (s t : string) :
  String a s ++ t = String a (s ++ t).
Proof. reflexivity. Qed.

Lemma append_nil_l (t : string) : "" ++ t = t.
Proof. reflexivity. Qed.

Ltac app_simpl := rewrite ?append_cons, ?append_nil_l in *.

Lemma append_nil_r (s : string) : s ++ "" = s.
Proof. induction s as [|a s IH]; app_simpl; [reflexivity | now rewrite IH]. Qed.

Lemma append_assoc (a b c : string) : (a ++ b) ++ c = a ++ (b ++ c).
Proof. induction a as [|x a IH]; app_simpl; [reflexivity | now rewrite IH]. Qed.

Lemma contains_app (c : ascii) (a b : string) :
  contains c (a ++ b) = contains c a || contains c b.
Proof.
  induction a as [|x a IH]; app_simpl; simpl; [reflexivity |].
  rewrite IH. now rewrite orb_assoc.
Qed.

Lemma cut_split (c : ascii) (s l r : string) :
  cut c s = Some (l, r) -> s = l ++ String c r /\ contains c l = false.
Proof.
  revert l r. induction s as [|a s IH]; simpl; intros l r H; [discriminate |].
  destruct (Ascii.eqb a c) eqn:E.
  - apply Ascii.eqb_eq in E. subst a. inversion H; subst. now split.
  - destruct (cut c s) as [[l' r']|] eqn:E'; [|discriminate].
    inversion H; subst. destruct (IH _ _ eq_refl) as [-> Hl].
    app_simpl. simpl. rewrite E. now split.
Qed.

Lemma cut_app (c : ascii) (l r : string) :
  contains c l = false -> cut c (l ++ String c r) = Some (l, r).
Proof.
  induction l as [|a l IH]; app_simpl; simpl; intros H.
  - now rewrite Ascii.eqb_refl.
  - apply orb_false_iff in H as [Ha Hl]. rewrite Ha, (IH Hl). reflexivity.
Qed.

Lemma cut_none (c : ascii) (s : string) :
  contains c s = false -> cut c s = None.
Proof.
  induction s as [|a s IH]; simpl; intros H; [reflexivity |].
  apply orb_false_iff in H as [Ha Hs]. now rewrite Ha, (IH Hs).
Qed.

Lemma cut_some_contains (c : ascii) (s l r : string) :
  cut c s = Some (l, r) -> contains c s = true.
Proof.
  intros H. destruct (cut_split _ _ _ _ H) as [-> _].
  rewrite contains_app. simpl. rewrite Ascii.eqb_refl. now rewrite orb_true_r.
Qed.

Lemma cut_host_split (s l r : string) :
  cut_host s = Some (l, r) ->
  s = l ++ String ":" r /\ contains ":" l = false /\ contains "/" l = false.
Proof.
  revert l r. induction s as [|a s IH]; simpl; intros l r H; [discriminate |].
  destruct (Ascii.eqb a ":") eqn:E.
  - apply Ascii.eqb_eq in E. subst a. inversion H; subst. now repeat split.
  - destruct (Ascii.eqb a "/") eqn:E2; [discriminate |].
    destruct (cut_host s) as [[l' r']|] eqn:E'; [|discriminate].
    inversion H; subst. destruct (IH _ _ eq_refl) as (-> & Hc & Hs).
    app_simpl. simpl. rewrite E, E2. now repeat split.
Qed.

Lemma cut_host_app (l r : string) :
  contains ":" l = false -> contains "/" l = false ->
  cut_host (l ++ String ":" r) = Some (l, r).
Proof.
  induction l as [|a l IH]; app_simpl; simpl; intros Hc Hs; [reflexivity |].
  apply orb_false_iff in Hc as [Ha Hl]. apply orb_false_iff in Hs as [Hb Hl'].
  now rewrite Ha, Hb, (IH Hl Hl').
Qed.

(** ** The scheme separator *)

Lemma has_prefix_app (p a b : string) :
  has_prefix p a = true -> has_prefix p (a ++ b) = true.
Proof.
  revert a. induction p as [|x p IH]; intros a H; [reflexivity |].
  destruct a as [|y a]; [discriminate |]. app_simpl. simpl in *.
  apply andb_true_iff in H as [H1 H2]. now rewrite H1, (IH _ H2).
Qed.

Lemma scheme_prefix_none_cons (a : ascii) (s : string) :
  scheme_prefix (String a s) = None <->
  has_prefix "://" (String a s) = false /\ scheme_prefix s = None.
Proof.
  cbn [scheme_prefix].
  destruct (has_prefix "://" (String a s)); [split; [discriminate | intros [? _]; discriminate] |].
  destruct (scheme_prefix s); split; try discriminate; auto.
  intros [_ ?]; discriminate.
Qed.

Lemma scheme_prefix_app_inv (a b : string) :
  scheme_prefix (a ++ b) = None ->
  scheme_prefix a = None /\ scheme_prefix b = None.
Proof.
  induction a as [|x a IH]; app_simpl; intros H; [now split |].
  apply scheme_prefix_none_cons in H as [Hp Hs].
  destruct (IH Hs) as [Ha Hb]. split; [|exact Hb].
  apply scheme_prefix_none_cons. split; [|exact Ha].
  destruct (has_prefix "://" (String x a)) eqn:E; [|reflexivity].
  apply (has_prefix_app _ _ b) in E. app_simpl. congruence.
Qed.

Lemma scheme_prefix_app (a b : string) :
  scheme_prefix a = None -> scheme_prefix b = None ->
  has_prefix "/" b = false ->
  scheme_prefix (a ++ b) = None.
Proof.
  intros Ha Hb Hs. induction a as [|x a IH]; app_simpl; [exact Hb |].
  apply scheme_prefix_none_cons in Ha as [Hp Ha].
  apply scheme_prefix_none_cons. split; [|now apply IH].
  destruct a as [|y [|z a]]; app_simpl.
  - destruct b as [|b1 b]; simpl in *; [now rewrite andb_false_r |].
    rewrite andb_true_r in Hs. rewrite Hs. simpl. now rewrite andb_false_r.
  - destruct b as [|b1 b]; simpl in *; [now rewrite !andb_false_r |].
    rewrite andb_true_r in Hs. rewrite Hs. simpl. now rewrite !andb_false_r.
  - exact Hp.
Qed.

Lemma scheme_prefix_no_colon (s : string) :
  contains ":" s = false -> scheme_prefix s = None.
Proof.
  induction s as [|a s IH]; intros H; [reflexivity |].
  simpl in H. apply orb_false_iff in H as [Ha Hs].
  apply scheme_prefix_none_cons. split; [|now apply IH].
  cbn [has_prefix]. rewrite Ascii.eqb_sym, Ha. reflexivity.
Qed.

(** ** Decimal numbers *)

Lemma string_of_uint_digits (d : Decimal.uint) :
  all_chars is_digit (NilEmpty.string_of_uint d) = true.
Proof. induction d; simpl; auto. Qed.

Lemma format_decimal_digits (n : N) :
  all_chars is_digit (format_decimal n) = true.
Proof. apply string_of_uint_digits. Qed.

Lemma digits_not_contains (c : ascii) (s : string) :
  is_digit c = false -> all_chars is_digit s = true -> contains c s = false.
Proof.
  intros Hc. induction s as [|a s IH]; simpl; intros H; [reflexivity |].
  apply andb_true_iff in H as [Ha Hs]. rewrite (IH Hs), orb_false_r.
  destruct (Ascii.eqb a c) eqn:E; [|reflexivity].
  apply Ascii.eqb_eq in E. congruence.
Qed.

Lemma format_decimal_nonempty (n : N) : format_decimal n <> "".
Proof.
  unfold format_decimal. destruct n as [|p]; [discriminate |].
  simpl. pose proof (Unsigned.to_uint_nonnil p) as H.
  destruct (Pos.to_uint p); try discriminate. congruence.
Qed.

Lemma parse_format_decimal (n : N) :
  parse_decimal (format_decimal n) = Some n.
Proof.
  pose proof (format_decimal_nonempty n) as H.
  unfold parse_decimal. destruct (format_decimal n) eqn:E; [congruence |].
  rewrite <- E. unfold format_decimal. rewrite NilEmpty.usu. simpl.
  now rewrite DecimalN.Unsigned.of_to.
Qed.

Lemma parse_port_split (tail path : string) (port : N) :
  parse_port tail = Some (port, path) ->
  exists digits, tail = digits ++ String ":" path /\ contains ":" digits = false /\
                 parse_decimal digits = Some port /\ (port <= 65535)%N.
Proof.
  unfold parse_port. intros H.
  destruct (cut ":" tail) as [[digits rest]|] eqn:Ec; [|discriminate].
  destruct (parse_decimal digits) as [n|] eqn:Ed; [|discriminate].
  destruct (n <=? 65535)%N eqn:El; [|discriminate].
  inversion H; subst. apply cut_split in Ec as [-> Hc].
  exists digits. repeat split; auto. now apply N.leb_le.
Qed.

Lemma parse_port_format (port : N) (path : string) :
  (port <= 65535)%N ->
  parse_port (format_decimal port ++ String ":" path) = Some (port, path).
Proof.
  intros Hle. unfold parse_port.
  rewrite cut_app by (apply digits_not_contains; [reflexivity | apply format_decimal_digits]).
  rewrite parse_format_decimal.
  apply N.leb_le in Hle. now rewrite Hle.
Qed.

(** ** The shape of a parsed SSH URL *)

Lemma Parse_SSH_inv (raw : string) (u : URL) :
  Parse raw = Some u -> Protocol_ u = Protocol_SSH ->
  scheme_prefix raw = None /\
  exists hp tail,
    (cut "@" raw = Some (Username u, hp) \/
     (cut "@" raw = None /\ Username u = "" /\ hp = raw)) /\
    cut_host hp = Some (Hostname u, tail) /\
    Hostname u <> "" /\
    (parse_port tail = Some (Port u, Path u) \/
     (parse_port tail = None /\ Port u = 0%N /\ Path u = tail)).
Proof.
  unfold Parse. intros H Hp.
  destruct (String.eqb raw ""); [discriminate |].
  destruct (scheme_prefix raw) as [sch|] eqn:Es.
  { destruct (valid_scheme sch); [|discriminate]. inversion H; subst. discriminate. }
  split; [reflexivity |].
  destruct (cut "@" raw) as [[user rest]|] eqn:Ec.
  - destruct (cut_host rest) as [[host tail]|] eqn:Eh;
      [|inversion H; subst; discriminate].
    destruct (String.eqb host "") eqn:Ee; [discriminate |].
    apply String.eqb_neq in Ee.
    exists rest, tail.
    destruct (parse_port tail) as [[port path]|] eqn:Ep; inversion H; subst; simpl;
      repeat split; auto.
  - destruct (cut_host raw) as [[host tail]|] eqn:Eh;
      [|inversion H; subst; discriminate].
    destruct (String.eqb host "") eqn:Ee; [discriminate |].
    apply String.eqb_neq in Ee.
    exists raw, tail.
    destruct (parse_port tail) as [[port path]|] eqn:Ep; inversion H; subst; simpl;
      repeat split; auto.
Qed.

Lemma Parse_SSH_intro (raw hp tail : string) (u : URL) :
  Protocol_ u = Protocol_SSH ->
  scheme_prefix raw = None ->
  (cut "@" raw = Some (Username u, hp) \/
   (cut "@" raw = None /\ Username u = "" /\ hp = raw)) ->
  cut_host hp = Some (Hostname u, tail) ->
  Hostname u <> "" ->
  (parse_port tail = Some (Port u, Path u) \/
   (parse_port tail = None /\ Port u = 0%N /\ Path u = tail)) ->
  Parse raw = Some u.
Proof.
  intros Hp Hs Hc Hh Hne Ht. destruct u as [pr user host port path]. simpl in *. subst pr.
  assert (Hraw : raw <> "").
  { intros ->. destruct Hc as [Hc | (_ & _ & ->)]; simpl in *; discriminate. }
  unfold Parse. apply String.eqb_neq in Hraw. rewrite Hraw, Hs.
  apply String.eqb_neq in Hne.
  destruct Hc as [Hc | (Hc & -> & ->)]; rewrite Hc, Hh, Hne;
    destruct Ht as [Ht | (Ht & -> & ->)]; now rewrite Ht.
Qed.

Lemma Parse_not_SSH (raw : string) (u : URL) :
  Parse raw = Some u -> Protocol_ u <> Protocol_SSH ->
  Format u = Some raw.
Proof.
  unfold Parse. intros H Hp.
  destruct (String.eqb raw ""); [discriminate |].
  destruct (scheme_prefix raw) as [sch|].
  { destruct (valid_scheme sch); [|discriminate]. now inversion H. }
  destruct (cut "@" raw) as [[user rest]|].
  - destruct (cut_host rest) as [[host tail]|]; [|now inversion H].
    destruct (String.eqb host ""); [discriminate |].
    destruct (parse_port tail) as [[port path]|]; inversion H; subst; now elim Hp.
  - destruct (cut_host raw) as [[host tail]|]; [|now inversion H].
    destruct (String.eqb host ""); [discriminate |].
    destruct (parse_port tail) as [[port path]|]; inversion H; subst; now elim Hp.
Qed.

Lemma formatSSH_shape (u : URL) :
  formatSSH u =
  if String.eqb (Username u) "" then Hostname u ++ String ":" (ssh_tail u)
  else Username u ++ String "@" (Hostname u ++ String ":" (ssh_tail u)).
Proof.
  unfold formatSSH, ssh_tail.
  destruct (String.eqb (Username u) ""), (N.eqb (Port u) 0);
    app_simpl; rewrite ?append_assoc; app_simpl; reflexivity.
Qed.

Lemma scheme_prefix_colon_digits (d x : string) :
  all_chars is_digit d = true ->
  scheme_prefix (String ":" x) = None ->
  scheme_prefix (String ":" (d ++ String ":" x)) = None.
Proof.
  intros Hd Hx. apply scheme_prefix_none_cons. split.
  - destruct d as [|c d]; app_simpl; [reflexivity |].
    cbn [has_prefix]. simpl in Hd. apply andb_true_iff in Hd as [Hc _].
    destruct (Ascii.eqb "/" c) eqn:E; [|reflexivity].
    apply Ascii.eqb_eq in E. subst c. discriminate.
  - apply scheme_prefix_app; [|exact Hx | reflexivity].
    apply scheme_prefix_no_colon, digits_not_contains; [reflexivity | exact Hd].
Qed.

Lemma stable_SSH_sufficient (raw : string) (u : URL) :
  Parse raw = Some u -> Protocol_ u = Protocol_SSH -> stable u = true ->
  Parse (formatSSH u) = Some u.
Proof.
  intros HP Hpr Hst.
  destruct (Parse_SSH_inv _ _ HP Hpr) as (Hs & hp & tail & Hc & Hh & Hne & Ht).
  destruct (cut_host_split _ _ _ Hh) as (Hhp & Hnc & Hns).
  unfold stable in Hst. rewrite Hpr in Hst.
  apply andb_true_iff in Hst as [HA HB].
  (* what the original string says about its pieces *)
  assert (Hshp : scheme_prefix hp = None).
  { destruct Hc as [Hc | (_ & _ & ->)]; [|exact Hs].
    apply cut_split in Hc as [Hraw _]. rewrite Hraw in Hs.
    apply scheme_prefix_app_inv in Hs as [_ Hs].
    now apply scheme_prefix_none_cons in Hs as [_ Hs]. }
  assert (Hstail : scheme_prefix (String ":" tail) = None).
  { rewrite Hhp in Hshp. now apply scheme_prefix_app_inv in Hshp as [_ ?]. }
  assert (Hpath : scheme_prefix (String ":" (Path u)) = None /\ (Port u <= 65535)%N).
  { destruct Ht as [Ht | (_ & -> & ->)]; [|split; [exact Hstail | lia]].
    apply parse_port_split in Ht as (digits & -> & _ & _ & Hle). split; [|exact Hle].
    apply scheme_prefix_none_cons in Hstail as [_ Hstail].
    now apply scheme_prefix_app_inv in Hstail as [_ ?]. }
  destruct Hpath as [Hpath Hle].
  assert (Htl : scheme_prefix (String ":" (ssh_tail u)) = None).
  { unfold ssh_tail. destruct (N.eqb (Port u) 0); [exact Hpath |].
    apply scheme_prefix_colon_digits; [apply format_decimal_digits | exact Hpath]. }
  assert (Hbody : scheme_prefix (Hostname u ++ String ":" (ssh_tail u)) = None).
  { apply scheme_prefix_app; [now apply scheme_prefix_no_colon | exact Htl | reflexivity]. }
  assert (Hport : parse_port (ssh_tail u) = Some (Port u, Path u) \/
                  (parse_port (ssh_tail u) = None /\ Port u = 0%N /\ Path u = ssh_tail u)).
  { unfold ssh_tail. destruct (N.eqb (Port u) 0) eqn:E0.
    - right. apply N.eqb_eq in E0. simpl in HB.
      destruct (parse_port (Path u)); [discriminate | auto].
    - left. now apply parse_port_format. }
  rewrite formatSSH_shape.
  destruct (String.eqb (Username u) "") eqn:Eu.
  - apply String.eqb_eq in Eu. simpl in HA.
    apply negb_true_iff, orb_false_iff in HA as [HAh HAp].
    apply (Parse_SSH_intro _ (Hostname u ++ String ":" (ssh_tail u)) (ssh_tail u));
      auto using cut_host_app.
    right. repeat split; auto. apply cut_none.
    rewrite contains_app. cbn [contains]. rewrite HAh. simpl. unfold ssh_tail.
    destruct (N.eqb (Port u) 0); [exact HAp |].
    rewrite contains_app. cbn [contains]. rewrite HAp.
    rewrite digits_not_contains; [reflexivity | reflexivity | apply format_decimal_digits].
  - apply String.eqb_neq in Eu.
    destruct Hc as [Hc | (_ & Hc & _)]; [|congruence].
    apply cut_split in Hc as [Hraw Hnat].
    apply (Parse_SSH_intro _ (Hostname u ++ String ":" (ssh_tail u)) (ssh_tail u));
      auto using cut_host_app.
    + rewrite Hraw in Hs. apply scheme_prefix_app_inv in Hs as [Hsu _].
      apply scheme_prefix_app; [exact Hsu | | reflexivity].
      apply scheme_prefix_none_cons. split; [reflexivity | exact Hbody].
    + left. now apply cut_app.
Qed.

Lemma length_append (a b : string) :
  String.length (a ++ b) = (String.length a + String.length b)%nat.
Proof. induction a as [|x a IH]; app_simpl; simpl; [reflexivity | now rewrite IH]. Qed.

Lemma cut_none_inv (c : ascii) (s : string) :
  cut c s = None -> contains c s = false.
Proof.
  intros H. destruct (contains c s) eqn:E; [|reflexivity].
  exfalso. induction s as [|a s IH]; simpl in *; [discriminate |].
  destruct (Ascii.eqb a c); [discriminate |].
  destruct (cut c s) as [[l r]|]; [discriminate |]. now apply IH.
Qed.

Lemma stable_SSH_necessary (u : URL) :
  Protocol_ u = Protocol_SSH -> Parse (formatSSH u) = Some u -> stable u = true.
Proof.
  intros Hpr HP.
  destruct (Parse_SSH_inv _ _ HP Hpr) as (_ & hp & tail & Hc & Hh & Hne & Ht).
  destruct (cut_host_split _ _ _ Hh) as (Hhp & Hnc & Hns).
  rewrite formatSSH_shape in Hc.
  (* the parser splits the formatted text where the formatter joined it *)
  assert (Hsame : hp = Hostname u ++ String ":" (ssh_tail u) /\
                  (Username u = "" -> contains "@" hp = false)).
  { destruct (String.eqb (Username u) "") eqn:Eu.
    - apply String.eqb_eq in Eu.
      destruct Hc as [Hc | (Hc & _ & ->)].
      + exfalso. rewrite Eu in Hc. apply cut_split in Hc as [Hc _]. app_simpl.
        assert (Hl : cut_host (Hostname u ++ String ":" (ssh_tail u))
                     = cut_host (String "@" hp)) by now rewrite Hc.
        rewrite cut_host_app in Hl by assumption.
        rewrite Hhp in Hl. cbn [cut_host] in Hl. simpl (Ascii.eqb _ _) in Hl.
        cbv iota in Hl. rewrite cut_host_app in Hl by assumption.
        inversion Hl as [[Hl1 Hl2]].
        apply (f_equal String.length) in Hl1. simpl in Hl1. lia.
      + split; [reflexivity |]. intros _. now apply cut_none_inv.
    - apply String.eqb_neq in Eu.
      destruct Hc as [Hc | (_ & ? & _)]; [|congruence].
      split; [|congruence].
      pose proof (cut_split _ _ _ _ Hc) as [_ Hnat].
      rewrite cut_app in Hc by assumption. now inversion Hc. }
  destruct Hsame as [Hhp' Hat].
  assert (Htail : tail = ssh_tail u).
  { rewrite Hhp' in Hh. rewrite cut_host_app in Hh by assumption. now inversion Hh. }
  unfold stable. rewrite Hpr. apply andb_true_iff. split.
  - destruct (String.eqb (Username u) "") eqn:Eu; [|reflexivity].
    apply String.eqb_eq in Eu. specialize (Hat Eu). simpl.
    rewrite Hhp', contains_app in Hat. apply orb_false_iff in Hat as [Hat1 Hat2].
    rewrite Hat1. simpl. cbn [contains] in Hat2. simpl (Ascii.eqb _ _) in Hat2.
    simpl in Hat2. unfold ssh_tail in Hat2.
    destruct (N.eqb (Port u) 0); [now rewrite Hat2 |].
    rewrite contains_app in Hat2. apply orb_false_iff in Hat2 as [_ Hat2].
    cbn [contains] in Hat2. simpl in Hat2. now rewrite Hat2.
  - destruct (N.eqb (Port u) 0) eqn:E0; [|reflexivity]. simpl.
    subst tail. unfold ssh_tail in Ht. rewrite E0 in Ht.
    destruct Ht as [Ht | (-> & _)]; [|reflexivity].
    exfalso. apply parse_port_split in Ht as (digits & Hd & _).
    apply (f_equal String.length) in Hd. rewrite length_append in Hd. simpl in Hd. lia.
Qed.

Lemma Format_render (u : URL) (s : string) :
  Format u = Some s -> s = render u.
Proof.
  unfold Format, render. destruct (Protocol_ u); intros H; inversion H; try reflexivity.
  unfold formatSSH.
  destruct (String.eqb (Username u) ""), (N.eqb (Port u) 0);
    app_simpl; rewrite ?append_assoc; app_simpl; reflexivity.
Qed.

(** ** The round trip *)

(** C8, as stated, fails: [Parse] reads ["host:0:22:path"] as port 0 with
    path ["22:path"]; [Format] leaves the port 0 out, and the text
    ["host:22:path"] parses as port 22 with path ["path"]. *)
Lemma url_round_trip_counterexample :
  ~ (forall raw u, Parse raw = Some u ->
       exists s, Format u = Some s /\ Parse s = Some u).
Proof.
  intros H.
  destruct (H "host:0:22:path" (mkURL Protocol_SSH "" "host" 0 "22:path") eq_refl)
    as (s & Hf & Hp).
  inversion Hf; subst s. vm_compute in Hp. discriminate.
Qed.

(** C8, on the code: [Format] is documented to give a reparsable text, and
    the claim is that parsing it gives the URL back.  [formatSSH] does not
    keep that promise at URLs that [Parse] produces.  It leaves a port of 0
    out: the URL read from ["host:0:22:path"], port 0 and path
    ["22:path"], is written ["host:22:path"], which reads as port 22 and
    path ["path"].  It leaves an empty user name out: the URL read from
    ["@ho@st:path"], no user and host ["ho@st"], is written
    ["ho@st:path"], which reads as user ["ho"] and host ["st"]; and the
    URL read from ["@a@:x"] is written ["a@:x"], which does not parse at
    all. *)
Theorem Format_not_reparsable :
  (Parse "host:0:22:path" = Some (mkURL Protocol_SSH "" "host" 0 "22:path") /\
   Format (mkURL Protocol_SSH "" "host" 0 "22:path") = Some "host:22:path" /\
   Parse "host:22:path" = Some (mkURL Protocol_SSH "" "host" 22 "path")) /\
  (Parse "@ho@st:path" = Some (mkURL Protocol_SSH "" "ho@st" 0 "path") /\
   Format (mkURL Protocol_SSH "" "ho@st" 0 "path") = Some "ho@st:path" /\
   Parse "ho@st:path" = Some (mkURL Protocol_SSH "ho" "st" 0 "path")) /\
  (Parse "@a@:x" = Some (mkURL Protocol_SSH "" "a@" 0 "x") /\
   Format (mkURL Protocol_SSH "" "a@" 0 "x") = Some "a@:x" /\
   Parse "a@:x" = None).
Proof. repeat split. Qed.

(** How far the defect reaches: for every URL [u] that [Parse] produces,
    [Format] succeeds with the rendering Local -> path, SSH ->
    [[user@]host[:port]:path] (no port when it is 0), Custom -> the original
    string, and parsing the formatted text gives [u] back exactly when [u]
    is stable: Local and Custom URLs always, an SSH URL when its user name
    is non-empty or neither host nor path contains [@], and its port is not
    0 or its path does not itself begin with a port. *)
Lemma url_round_trip (raw : string) (u : URL) :
  Parse raw = Some u ->
  exists s, Format u = Some s /\ s = render u /\
            (Parse s = Some u <-> stable u = true).
Proof.
  intros HP. destruct (decide (Protocol_ u = Protocol_SSH)) as [Hpr|Hpr].
  - exists (formatSSH u). assert (Hf : Format u = Some (formatSSH u)).
    { unfold Format. now rewrite Hpr. }
    split; [exact Hf |]. split; [now apply Format_render |]. split.
    + now apply stable_SSH_necessary.
    + now apply (stable_SSH_sufficient raw).
  - exists raw. pose proof (Parse_not_SSH _ _ HP Hpr) as Hf.
    split; [exact Hf |]. split; [now apply Format_render |].
    split; [|intros _; exact HP].
    intros _. unfold stable. destruct (Protocol_ u); try reflexivity. now elim Hpr.
Qed.

Example url_round_trip_stable :
  exists s, Format (mkURL Protocol_SSH "user" "host" 65535 "path") = Some s /\
            s = render (mkURL Protocol_SSH "user" "host" 65535 "path") /\
            (Parse s = Some (mkURL Protocol_SSH "user" "host" 65535 "path")
             <-> stable (mkURL Protocol_SSH "user" "host" 65535 "path") = true).
Proof. apply (url_round_trip "user@host:65535:path"). reflexivity. Qed.

(** ** Telling formatted URLs apart *)

Lemma formatSSH_head_tail (u : URL) :
  formatSSH u = ssh_head u ++ String ":" (ssh_tail u).
Proof.
  rewrite formatSSH_shape. unfold ssh_head.
  destruct (String.eqb (Username u) ""); [reflexivity |].
  now rewrite append_assoc.
Qed.

Lemma ssh_head_no_colon (u : URL) :
  contains ":" (Username u) = false -> contains ":" (Hostname u) = false ->
  contains ":" (ssh_head u) = false.
Proof.
  intros Hu Hh. unfold ssh_head. destruct (String.eqb (Username u) ""); [exact Hh |].
  rewrite contains_app. cbn [contains]. now rewrite Hu, Hh.
Qed.

Lemma ssh_head_inj (u v : URL) :
  contains "@" (Username u) = false -> contains "@" (Hostname u) = false ->
  contains "@" (Username v) = false -> contains "@" (Hostname v) = false ->
  ssh_head u = ssh_head v ->
  Username u = Username v /\ Hostname u = Hostname v.
Proof.
  intros Huu Hhu Huv Hhv. unfold ssh_head.
  destruct (String.eqb (Username u) "") eqn:Eu, (String.eqb (Username v) "") eqn:Ev.
  - apply String.eqb_eq in Eu, Ev. intros ->. split; congruence.
  - intros Heq. exfalso. rewrite Heq, contains_app in Hhu. cbn [contains] in Hhu.
    rewrite Ascii.eqb_refl in Hhu. simpl in Hhu. now rewrite orb_true_r in Hhu.
  - intros Heq. exfalso. rewrite <- Heq, contains_app in Hhv. cbn [contains] in Hhv.
    rewrite Ascii.eqb_refl in Hhv. simpl in Hhv. now rewrite orb_true_r in Hhv.
  - intros Heq. apply (f_equal (cut "@")) in Heq.
    rewrite !cut_app in Heq by assumption. injection Heq as Hx Hy. auto.
Qed.

Lemma begins_with_port_format (n : N) (rest : string) :
  begins_with_port (format_decimal n ++ String ":" rest) = true.
Proof.
  unfold begins_with_port.
  rewrite cut_app by (apply digits_not_contains; [reflexivity | apply format_decimal_digits]).
  rewrite format_decimal_digits, andb_true_r.
  apply negb_true_iff, String.eqb_neq, format_decimal_nonempty.
Qed.

Lemma ssh_tail_inj (u v : URL) :
  (Port u = 0%N -> begins_with_port (Path u) = false) ->
  (Port v = 0%N -> begins_with_port (Path v) = false) ->
  ssh_tail u = ssh_tail v ->
  Port u = Port v /\ Path u = Path v.
Proof.
  intros Hu Hv. unfold ssh_tail.
  destruct (N.eqb (Port u) 0) eqn:Eu, (N.eqb (Port v) 0) eqn:Ev.
  - apply N.eqb_eq in Eu, Ev. intros ->. split; congruence.
  - apply N.eqb_eq in Eu. intros Heq. exfalso. specialize (Hu Eu).
    rewrite Heq, begins_with_port_format in Hu. discriminate.
  - apply N.eqb_eq in Ev. intros Heq. exfalso. specialize (Hv Ev).
    rewrite <- Heq, begins_with_port_format in Hv. discriminate.
  - intros Heq. apply (f_equal (cut ":")) in Heq.
    rewrite !cut_app in Heq
      by (apply digits_not_contains; [reflexivity | apply format_decimal_digits]).
    injection Heq as Hd Hp. split; [|exact Hp].
    apply (f_equal parse_decimal) in Hd. rewrite !parse_format_decimal in Hd.
    now inversion Hd.
Qed.

Lemma distinct_parts_true (u : URL) :
  distinct_parts u = true ->
  contains "@" (Username u) = false /\ contains ":" (Username u) = false /\
  contains "@" (Hostname u) = false /\ contains ":" (Hostname u) = false /\
  (Port u = 0%N -> begins_with_port (Path u) = false).
Proof.
  unfold distinct_parts. intros H.
  apply andb_true_iff in H as [H H5]. apply andb_true_iff in H as [H H4].
  apply andb_true_iff in H as [H H3]. apply andb_true_iff in H as [H1 H2].
  apply negb_true_iff in H1, H2, H3, H4. repeat split; auto.
  intros H0. rewrite H0 in H5. simpl in H5. now apply negb_true_iff.
Qed.

(** Two SSH URLs that look alike are alike, when their parts can be told
    apart: [Format] gives different texts for different SSH URLs whose
    user and host names hold no [@] and no [:] and that have a port or a
    path that does not begin like one. *)
Theorem Format_injective (u v : URL) :
  Protocol_ u = Protocol_SSH -> Protocol_ v = Protocol_SSH ->
  distinct_parts u = true -> distinct_parts v = true ->
  Format u = Format v ->
  u = v.
Proof.
  intros Hpu Hpv Hdu Hdv. unfold Format. rewrite Hpu, Hpv. intros Heq.
  injection Heq as Hf.
  apply distinct_parts_true in Hdu as (Hu1 & Hu2 & Hu3 & Hu4 & Hu5).
  apply distinct_parts_true in Hdv as (Hv1 & Hv2 & Hv3 & Hv4 & Hv5).
  rewrite !formatSSH_head_tail in Hf.
  apply (f_equal (cut ":")) in Hf.
  rewrite !cut_app in Hf by now apply ssh_head_no_colon.
  injection Hf as Hhead Htail.
  destruct (ssh_head_inj u v) as [Hun Hhn]; auto.
  destruct (ssh_tail_inj u v) as [Hpn Hpa]; auto.
  destruct u, v. simpl in *. congruence.
Qed.

(** Without that, two SSH URLs can look alike: a path that begins like a
    port is read as one. *)
Example Format_not_injective :
  Format (mkURL Protocol_SSH "" "host" 0 "22:path")
  = Format (mkURL Protocol_SSH "" "host" 22 "path").
Proof. reflexivity. Qed.

Lemma Format_injective_witness :
  mkURL Protocol_SSH "user" "host" 22 "path" = mkURL Protocol_SSH "user" "host" 22 "path".
Proof.
  apply (Format_injective (mkURL Protocol_SSH "user" "host" 22 "path")
           (mkURL Protocol_SSH "user" "host" 22 "path")); reflexivity.
Defined.

End UrlSpec.

(* ===================================================================== *)
(** * Properties of the scanner *)
(* ===================================================================== *)

Module SyncSpec.
Import Errors Sync SyncTerms.

(** ** Cleaning and joining paths *)

(** [Clean] on cases of the table that the Go library tests it with. *)
Example Clean_table :
  Clean "" = "." /\ Clean "abc" = "abc" /\ Clean "abc/def" = "abc/def" /\
  Clean "." = "." /\ Clean ".." = ".." /\ Clean "../.." = "../.." /\
  Clean "../../abc" = "../../abc" /\ Clean "/abc" = "/abc" /\ Clean "/" = "/" /\
  Clean "abc/" = "abc" /\ Clean "a/b/c/" = "a/b/c" /\ Clean "./" = "." /\
  Clean "../" = ".." /\ Clean "/abc/" = "/abc" /\
  Clean "abc//def//ghi" = "abc/def/ghi" /\ Clean "//abc" = "/abc" /\
  Clean "//abc//" = "/abc" /\ Clean "abc/./def" = "abc/def" /\
  Clean "/./abc/def" = "/abc/def" /\ Clean "abc/." = "abc" /\
  Clean "abc/def/ghi/../jkl" = "abc/def/jkl" /\
  Clean "abc/def/../ghi/../jkl" = "abc/jkl" /\ Clean "abc/def/.." = "abc" /\
  Clean "abc/def/../.." = "." /\ Clean "/abc/def/../.." = "/" /\
  Clean "abc/def/../../.." = ".." /\ Clean "/abc/def/../../.." = "/" /\
  Clean "abc/def/../../../ghi/jkl/../../../mno" = "../../mno" /\
  Clean "abc/./../def" = "def" /\ Clean "abc//./../def" = "def" /\
  Clean "abc/../../././../def" = "../../def".
Proof. repeat split. Qed.

Example Join_table :
  Join "a" "b" = "a/b" /\ Join "a" "" = "a" /\ Join "" "b" = "b" /\
  Join "/" "a" = "/a" /\ Join "/" "" = "/" /\ Join "a/" "b" = "a/b" /\
  Join "a/" "" = "a" /\ Join "" "" = "" /\
  Join "/r" "sub/x" = "/r/sub/x" /\ Join "/r/jump/../f" "" = "/r/f".
Proof. repeat split. Qed.

Section Properties.
Context {hasher : Hasher} {host : Host} {ignorer : Ignores}.

(** ** [scanner.file] *)

Lemma cached_digest_Some (s : scanner) (path : string) (info : FileInfo) (d : list Byte.byte) :
  cached_digest s path info = Some d <->
  exists cached, Entries (cache s) !! path = Some cached /\
                 valid_hit cached info /\ Digest cached = Some d.
Proof.
  unfold cached_digest, valid_hit. split.
  - destruct (Entries (cache s) !! path) as [cached|]; [|discriminate].
    destruct (_ && _) eqn:E; [|discriminate]. intros Hd.
    apply andb_true_iff in E as [E E3]. apply andb_true_iff in E as [E1 E2].
    apply Z.eqb_eq in E1, E3. exists cached. auto.
  - intros (cached & -> & (H1 & H2 & H3) & Hd).
    rewrite H1, H2, H3, !Z.eqb_refl. exact Hd.
Qed.

(** [scanner.file] on a cache hit. *)
Lemma file_hit (s : scanner) (path : string) (info : FileInfo) (st : state)
      (d : list Byte.byte) :
  cached_digest s path info = Some d ->
  let entry := mkEntry EntryKind_File
                 (negb (Z.land (info_Mode info) AnyExecutablePermission =? 0)%Z)
                 (Some d) "" ∅ in
  file s path info st =
  (Done entry,
   mkState (<[path := entry_for info (Some d)]> (newCache st))
           (trace st ++ [EvFile path info entry])).
Proof.
  intros Hd. unfold file. fold (cached_digest s path info). rewrite Hd. reflexivity.
Qed.

(** [scanner.file] on a cache miss. *)
Lemma file_miss (s : scanner) (path : string) (info : FileInfo) (st : state) :
  cached_digest s path info = None ->
  file s path info st =
  match hash_file s path (uint64 (info_Size info)) st with
  | (Done digest, st) =>
      let entry := mkEntry EntryKind_File
                     (negb (Z.land (info_Mode info) AnyExecutablePermission =? 0)%Z)
                     digest "" ∅ in
      (Done entry,
       mkState (<[path := entry_for info digest]> (newCache st))
               (trace st ++ [EvFile path info entry]))
  | (Failed err, st) => (Failed err, st)
  | (OutOfFuel, st) => (OutOfFuel, st)
  end.
Proof.
  intros Hd. unfold file. fold (cached_digest s path info). rewrite Hd.
  destruct (hash_file s path (uint64 (info_Size info)) st) as [[d|err|] st']; reflexivity.
Qed.

(** The events and the result of the hashing. *)
Lemma hash_file_spec (s : scanner) (path : string) (size : Z) (st : state) :
  let name := Join (root s) path in
  hash_file s path size st =
  match os_Open name with
  | Err err =>
      (Failed (errors_Wrap err "unable to open file"),
       mkState (newCache st) (trace st ++ [EvOpen name]))
  | Ok f =>
      let failed := match read_error f with Some _ => true | None => false end in
      (match read_error f with
       | Some err => Failed (errors_Wrap err "unable to hash file contents")
       | None => if (uint64 (copied_of f) =? size)%Z
                 then Done (digest_of f)
                 else Failed (errors_New "hashed size mismatch")
       end,
       mkState (newCache st)
               (trace st ++ [EvOpen name; EvCopy path size (copied_of f) failed;
                             EvClose name]))
  end.
Proof.
  unfold hash_file, log, copied_of, digest_of. simpl.
  destruct (os_Open (Join (root s) path)) as [f|err]; [|reflexivity].
  simpl. rewrite <- !app_assoc. simpl.
  destruct (read_error f); [reflexivity |].
  destruct (uint64 _ =? size)%Z; reflexivity.
Qed.

(** ** A proof rule for the traversal *)

Section Rule.
Variable s : scanner.
Variables P F : state -> Prop.

Hypothesis rule_readdir : forall path st,
  P st ->
  match filesystem_DirectoryContents (Join (root s) path) with
  | Ok _ => P (log (EvReadDir (Join (root s) path)) st)
  | Err _ => F (log (EvReadDir (Join (root s) path)) st)
  end.

Hypothesis rule_lstat : forall path st,
  P st ->
  match os_Lstat (Join (root s) path) with
  | Ok _ => P (log (EvLstat (Join (root s) path)) st)
  | Err err =>
      if os_IsNotExist err then P (log (EvLstat (Join (root s) path)) st)
      else F (log (EvLstat (Join (root s) path)) st)
  end.

Hypothesis rule_file : forall path info st,
  P st ->
  ignored (s_pathIgnorer s) path = false ->
  os_Lstat (Join (root s) path) = Ok info ->
  content_kind (info_Mode info) = Some EntryKind_File ->
  size_filtered s info = false ->
  holds P F (file s path info st).

Hypothesis rule_symlink : forall path st,
  P st -> holds P F (symlink s path st).

Lemma holds_round_of (r : outcome Entry * state) :
  holds P F r -> holds_round P F (round_of r).
Proof. destruct r as [[e|err|] st]; simpl; auto. Qed.

Lemma round_rule (rec : string -> state -> outcome Entry * state) :
  (forall path st, P st -> holds P F (rec path st)) ->
  forall path name st, P st ->
    holds_round P F (directory_round rec s path name st).
Proof.
  intros Hrec path name st HP. unfold directory_round.
  destruct (ignored (s_pathIgnorer s) (Join path name)) eqn:Ei; [exact HP |].
  pose proof (rule_lstat (Join path name) st HP) as Hl.
  destruct (os_Lstat (Join (root s) (Join path name))) as [info|err] eqn:El.
  2:{ destruct (os_IsNotExist err); exact Hl. }
  destruct (content_kind (info_Mode info)) as [kind|] eqn:Ek; [|exact Hl].
  destruct kind; simpl.
  - rewrite andb_false_r. simpl. apply holds_round_of, Hrec, Hl.
  - rewrite andb_true_r. fold (size_filtered s info).
    destruct (size_filtered s info) eqn:Ef; [exact Hl |].
    apply holds_round_of, rule_file; auto.
  - rewrite andb_false_r. simpl.
    destruct symlinksSupported; [|exact Hl].
    apply holds_round_of, rule_symlink, Hl.
Qed.

Lemma loop_rule (rec : string -> state -> outcome Entry * state) :
  (forall path st, P st -> holds P F (rec path st)) ->
  forall path names contents st, P st ->
    holds P F (directory_loop rec s path names contents st).
Proof.
  intros Hrec path names. induction names as [|name names IH]; intros contents st HP.
  - exact HP.
  - simpl. pose proof (round_rule rec Hrec path name st HP) as Hr.
    destruct (directory_round rec s path name st) as [[|entry|err|] st']; simpl in Hr;
      auto.
Qed.

Lemma directory_rule (fuel : nat) :
  forall path st, P st -> holds P F (directory fuel s path st).
Proof.
  induction fuel as [|fuel IH]; intros path st HP; [exact HP |].
  simpl. pose proof (rule_readdir path st HP) as Hd.
  destruct (filesystem_DirectoryContents (Join (root s) path)) as [names|err];
    [|exact Hd].
  pose proof (loop_rule (directory fuel s) IH path names ∅ _ Hd) as Hl.
  destruct (directory_loop _ s path names ∅ _) as [[c|err|] st']; exact Hl.
Qed.

End Rule.

(** ** What the events say *)

Lemma file_fst (s : scanner) (path : string) (info : FileInfo) (st : state) :
  fst (file s path info st) = file_value s path info.
Proof.
  unfold file_value. destruct (cached_digest s path info) as [d|] eqn:Ed.
  - now rewrite !(file_hit _ _ _ _ d Ed).
  - rewrite !(file_miss _ _ _ _ Ed), !hash_file_spec.
    destruct (os_Open (Join (root s) path)) as [f|err]; [|reflexivity].
    destruct (read_error f); [reflexivity |].
    destruct (uint64 (copied_of f) =? uint64 (info_Size info))%Z; reflexivity.
Qed.

(** [scanner.file] when it returns an entry. *)
Lemma file_Done (s : scanner) (path : string) (info : FileInfo) (st st' : state)
      (entry : Entry) :
  file s path info st = (Done entry, st') ->
  Entry_Kind entry = EntryKind_File /\
  newCache st' = <[path := entry_for info (Entry_Digest entry)]> (newCache st) /\
  exists events,
    trace st' = (trace st ++ events ++ [EvFile path info entry])%list /\
    Forall quiet events /\
    (cached_digest s path info = None ->
     exists f, os_Open (Join (root s) path) = Ok f /\
               Entry_Digest entry = digest_of f /\
               events = [EvOpen (Join (root s) path);
                         EvCopy path (uint64 (info_Size info)) (copied_of f) false;
                         EvClose (Join (root s) path)]) /\
    (forall d, cached_digest s path info = Some d ->
               Entry_Digest entry = Some d /\ events = []).
Proof.
  destruct (cached_digest s path info) as [d|] eqn:Ed.
  - rewrite (file_hit _ _ _ _ d Ed). intros Heq. inversion Heq; subst; clear Heq.
    simpl. repeat split. exists []. simpl. repeat split; auto; try discriminate.
    all: intros d' Hd'; now inversion Hd'.
  - rewrite (file_miss _ _ _ _ Ed), hash_file_spec.
    destruct (os_Open (Join (root s) path)) as [f|err] eqn:Eo; [|discriminate].
    destruct (read_error f) eqn:Er; [discriminate |].
    destruct (uint64 (copied_of f) =? uint64 (info_Size info))%Z eqn:Ec; [|discriminate].
    intros Heq. inversion Heq; subst; clear Heq. simpl. repeat split.
    eexists. split; [rewrite <- app_assoc; reflexivity |]. split.
    + repeat constructor; simpl; try rewrite Eo; try rewrite Ec; reflexivity.
    + split; [|discriminate]. intros _. exists f. auto.
Qed.

(** [scanner.file] touches the new cache only when it returns an entry,
    and reports quiet events up to a failure. *)
Lemma file_not_Done (s : scanner) (path : string) (info : FileInfo) (st st' : state)
      (r : outcome Entry) :
  file s path info st = (r, st') -> (forall e, r <> Done e) ->
  newCache st' = newCache st /\
  exists events, trace st' = (trace st ++ events)%list /\
                 Forall (fun ev => is_EvFile ev = false) events /\
                 Exists (fun ev => fatal ev = true) events /\
                 exists err, r = Failed err.
Proof.
  destruct (cached_digest s path info) as [d|] eqn:Ed.
  - rewrite (file_hit _ _ _ _ d Ed). intros Heq Hn. inversion Heq; subst.
    now elim (Hn _ eq_refl).
  - rewrite (file_miss _ _ _ _ Ed), hash_file_spec.
    destruct (os_Open (Join (root s) path)) as [f|err] eqn:Eo.
    + destruct (read_error f) eqn:Er.
      * intros Heq _. inversion Heq; subst; clear Heq. simpl. split; [reflexivity |].
        eexists. split; [reflexivity |]. split; [repeat constructor |].
        split; [|eauto]. apply Exists_cons_tl, Exists_cons_hd. reflexivity.
      * destruct (uint64 (copied_of f) =? uint64 (info_Size info))%Z eqn:Ec.
        { intros Heq Hn. inversion Heq; subst. now elim (Hn _ eq_refl). }
        intros Heq _. inversion Heq; subst; clear Heq. simpl. split; [reflexivity |].
        eexists. split; [reflexivity |]. split; [repeat constructor |].
        split; [|eauto]. apply Exists_cons_tl, Exists_cons_hd. simpl. now rewrite Ec.
    + intros Heq _. inversion Heq; subst; clear Heq. simpl. split; [reflexivity |].
      eexists. split; [reflexivity |]. split; [repeat constructor |].
      split; [|eauto]. apply Exists_cons_hd. simpl. now rewrite Eo.
Qed.

Lemma symlink_spec (s : scanner) (path : string) (st : state) :
  let name := Join (root s) path in
  symlink s path st =
  (match os_Readlink name with
   | Err err => Failed (errors_Wrap err "unable to read symlink target")
   | Ok target =>
       if String.eqb target "" then Failed (errors_New "empty symlink target read")
       else Done (mkEntry EntryKind_Symlink false None target ∅)
   end,
   log (EvReadlink name) st).
Proof.
  unfold symlink. simpl. destruct (os_Readlink _) as [t|err]; [|reflexivity].
  destruct (String.eqb t ""); reflexivity.
Qed.

(** ** The invariant of a traversal *)

Lemma traversal_inv_log (s : scanner) (st : state) (ev : event) :
  traversal_inv s st -> quiet ev -> traversal_inv s (log ev st).
Proof.
  intros [Hf Hc Hq] [Hfat Hnf]. split; simpl.
  - intros path info entry Hin. apply in_app_iff in Hin as [Hin | [Heq | []]]; auto.
    subst ev. discriminate.
  - intros key ce Hk. destruct (Hc _ _ Hk) as (info & entry & Hin & ->).
    exists info, entry. split; [|reflexivity]. apply in_app_iff. now left.
  - apply Forall_app. split; [exact Hq |]. now constructor.
Qed.

Lemma traversal_inv_file (s : scanner) (path : string) (info : FileInfo) (st : state) :
  traversal_inv s st ->
  ignored (s_pathIgnorer s) path = false ->
  os_Lstat (Join (root s) path) = Ok info ->
  content_kind (info_Mode info) = Some EntryKind_File ->
  size_filtered s info = false ->
  holds (traversal_inv s) (fun _ => True) (file s path info st).
Proof.
  intros [Hf Hc Hq] Hi Hl Hk Hs.
  destruct (file s path info st) as [[entry|err|] st'] eqn:E; simpl; [|exact I|].
  2:{ destruct (file_not_Done _ _ _ _ _ _ E) as (_ & _ & _ & _ & _ & err & Herr);
        [discriminate | discriminate]. }
  pose proof (file_fst s path info st) as Hv. rewrite E in Hv. simpl in Hv.
  destruct (file_Done _ _ _ _ _ _ E) as (_ & Hnc & events & Htr & Hev & _).
  split.
  - intros path' info' entry' Hin. rewrite Htr in Hin.
    apply in_app_iff in Hin as [Hin | Hin].
    + destruct (Hf _ _ _ Hin) as (H1 & H2 & H3 & H4 & H5 & H6).
      repeat split; auto. rewrite Hnc.
      destruct (decide (path = path')) as [<- | Hne].
      * rewrite Hl in H2. inversion H2; subst info'.
        rewrite <- Hv in H5. inversion H5; subst entry'.
        apply lookup_insert_eq.
      * now rewrite lookup_insert_ne.
    + apply in_app_iff in Hin as [Hin | [Heq | []]].
      * exfalso. rewrite List.Forall_forall in Hev. destruct (Hev _ Hin) as [_ Hn].
        discriminate.
      * inversion Heq; subst. repeat split; auto. rewrite Hnc.
        apply lookup_insert_eq.
  - intros key ce Hk'. rewrite Hnc in Hk'. rewrite Htr.
    destruct (decide (path = key)) as [<- | Hne].
    + rewrite lookup_insert_eq in Hk'. inversion Hk'; subst ce.
      exists info, entry. split; [|reflexivity].
      apply in_app_iff. right. apply in_app_iff. right. now left.
    + rewrite lookup_insert_ne in Hk' by assumption.
      destruct (Hc _ _ Hk') as (info' & entry' & Hin & ->).
      exists info', entry'. split; [|reflexivity]. apply in_app_iff. now left.
  - rewrite Htr. apply Forall_app. split; [exact Hq |].
    apply Forall_app. split.
    + eapply Forall_impl; [exact Hev |]. now intros ev [? _].
    + now constructor.
Qed.

Lemma traversal_inv_symlink (s : scanner) (path : string) (st : state) :
  traversal_inv s st ->
  holds (traversal_inv s) (fun _ => True) (symlink s path st).
Proof.
  intros Hinv. rewrite symlink_spec.
  destruct (os_Readlink (Join (root s) path)) as [target|err] eqn:Er; simpl; [|exact I].
  destruct (String.eqb target "") eqn:Et; simpl; [exact I |].
  apply traversal_inv_log; [exact Hinv |]. split; [|reflexivity].
  simpl. now rewrite Er, Et.
Qed.

(** The invariant holds along [scanner.directory]. *)
Lemma traversal_inv_directory (s : scanner) (fuel : nat) (path : string) (st : state) :
  traversal_inv s st ->
  holds (traversal_inv s) (fun _ => True) (directory fuel s path st).
Proof.
  apply directory_rule.
  - intros p st0 Hinv.
    destruct (filesystem_DirectoryContents (Join (root s) p)) as [names|err] eqn:Ed;
      [|exact I].
    apply traversal_inv_log; [exact Hinv |]. split; [|reflexivity].
    simpl. now rewrite Ed.
  - intros p st0 Hinv.
    destruct (os_Lstat (Join (root s) p)) as [info|err] eqn:El.
    + apply traversal_inv_log; [exact Hinv |]. split; [|reflexivity].
      simpl. now rewrite El.
    + destruct (os_IsNotExist err) eqn:En; [|exact I].
      apply traversal_inv_log; [exact Hinv |]. split; [|reflexivity].
      simpl. now rewrite El, En.
  - intros p info st0. apply traversal_inv_file.
  - intros p st0. apply traversal_inv_symlink.
Qed.

(** ** The ways [Scan] returns *)

Lemma Scan_eq (fuel : nat) (root : string) (cache : option Cache)
      (ignores : list string) (ignoreSize : Z) :
  Scan fuel root cache ignores ignoreSize =
  match newPathIgnorer ignores with
  | Err err =>
      (Some (None, None, Some (errors_Wrap err "unable to create ignorer")), [])
  | Ok ig =>
      let s := scanner_of root cache ig ignoreSize in
      match os_Stat root with
      | Err err =>
          if os_IsNotExist err
          then (Some (None, Some (mkCache ∅), None), [EvStat root])
          else (Some (None, None,
                      Some (errors_Wrap err "unable to probe snapshot root")),
                [EvStat root])
      | Ok info =>
          if negb (Z.land (info_Mode info) os_ModeDir =? 0)%Z
          then finish (directory fuel s "" (start root))
          else if negb (Z.land (info_Mode info) os_ModeType =? 0)%Z
          then (Some (None, None, Some (errors_New "invalid snapshot root type")),
                [EvStat root])
          else finish (file s "" info (start root))
      end
  end.
Proof.
  unfold Scan, finish, scanner_of, start.
  destruct (newPathIgnorer ignores) as [ig|err]; [|reflexivity].
  destruct (os_Stat root) as [info|err]; [|reflexivity].
  destruct (negb (Z.land (info_Mode info) os_ModeDir =? 0)%Z).
  - destruct (directory _ _ _ _) as [[e|err|] st]; reflexivity.
  - destruct (negb (Z.land (info_Mode info) os_ModeType =? 0)%Z); [reflexivity |].
    destruct (file _ _ _ _) as [[e|err|] st]; reflexivity.
Qed.

Lemma start_inv (s : scanner) (info : FileInfo) :
  os_Stat (root s) = Ok info -> traversal_inv s (start (root s)).
Proof.
  intros Hs. split; simpl.
  - intros path i e [Heq | []]. discriminate.
  - intros key ce Hk. rewrite lookup_empty in Hk. discriminate.
  - repeat constructor. simpl. now rewrite Hs.
Qed.

(** A fatal event makes [Scan] return an error. *)
Lemma Scan_fatal (fuel : nat) (root : string) (cache : option Cache)
      (ignores : list string) (ignoreSize : Z) :
  Exists (fun ev => fatal ev = true) (snd (Scan fuel root cache ignores ignoreSize)) ->
  exists err, fst (Scan fuel root cache ignores ignoreSize) = Some (None, None, Some err).
Proof.
  rewrite Scan_eq.
  destruct (newPathIgnorer ignores) as [ig|err]; [|simpl; eauto].
  cbv zeta. destruct (os_Stat root) as [info|err] eqn:Es.
  2:{ destruct (os_IsNotExist err) eqn:En; simpl; [|eauto].
      intros Hex. apply Exists_cons in Hex as [Hf | Hex]; [|now apply Exists_nil in Hex].
      simpl in Hf. rewrite Es, En in Hf. discriminate. }
  assert (Hquiet : forall st, Forall (fun ev => fatal ev = false) (trace st) ->
                     ~ Exists (fun ev => fatal ev = true) (trace st)).
  { intros st Hq Hex. apply List.Exists_exists in Hex as (ev & Hin & Hf).
    rewrite List.Forall_forall in Hq. rewrite (Hq _ Hin) in Hf. discriminate. }
  destruct (negb (Z.land (info_Mode info) os_ModeDir =? 0)%Z).
  - pose proof (traversal_inv_directory (scanner_of root cache ig ignoreSize) fuel ""
                  (start root) (start_inv (scanner_of root cache ig ignoreSize) info Es))
      as Hinv.
    destruct (directory _ _ _ _) as [[e|err|] st]; simpl in *; eauto.
    + intros Hex. now elim (Hquiet st (inv_quiet _ _ Hinv)).
    + intros Hex. now elim (Hquiet st (inv_quiet _ _ Hinv)).
  - destruct (negb (Z.land (info_Mode info) os_ModeType =? 0)%Z); [simpl; eauto |].
    destruct (file _ _ _ _) as [[e|err|] st] eqn:Ef; simpl; eauto.
    + destruct (file_Done _ _ _ _ _ _ Ef) as (_ & _ & events & Htr & Hev & _).
      intros Hex. exfalso. apply (Hquiet st); [|exact Hex]. rewrite Htr. simpl.
      constructor; [simpl; now rewrite Es |].
      apply Forall_app. split; [|now repeat constructor].
      eapply Forall_impl; [exact Hev |]. now intros ev [? _].
    + destruct (file_not_Done _ _ _ _ _ _ Ef) as (_ & _ & _ & _ & _ & err & Herr);
        discriminate.
Qed.

(** ** The digest cache *)

(** C1 (amended): [scanner.file] reuses the cached digest, and opens no
    file, if and only if the input cache has an entry at the path with the
    type bits, the size and the modification time of the current stat and
    with a digest that is not nil; then the entry carries that digest.  In
    every other case (no entry, a mismatch, or a nil digest in the entry)
    the file is opened, and an entry that is returned carries the digest
    of the bytes read. *)
Theorem file_cache_reuse (s : scanner) (path : string) (info : FileInfo) (st : state) :
  exists events,
    trace (snd (file s path info st)) = (trace st ++ events)%list /\
    (~ opened events <-> usable_hit s path info) /\
    (forall cached d,
        Entries (cache s) !! path = Some cached -> valid_hit cached info ->
        Digest cached = Some d ->
        exists entry, fst (file s path info st) = Done entry /\
                      Entry_Digest entry = Digest cached) /\
    (~ usable_hit s path info ->
     In (EvOpen (Join (root s) path)) events /\
     forall entry, fst (file s path info st) = Done entry ->
       exists f, os_Open (Join (root s) path) = Ok f /\
                 Entry_Digest entry = digest_of f).
Proof.
  destruct (cached_digest s path info) as [d|] eqn:Ed.
  - assert (Hu : usable_hit s path info).
    { apply cached_digest_Some in Ed as (cached & ? & ? & ?). exists cached, d. auto. }
    rewrite (file_hit _ _ _ _ d Ed). simpl. eexists. split; [reflexivity |].
    split; [|split].
    + split; [intros _; exact Hu |]. intros _ [name [Hin | []]]. discriminate.
    + intros cached d' Hl Hv Hd. eexists. split; [reflexivity |]. simpl.
      assert (Hd' : cached_digest s path info = Some d')
        by (apply cached_digest_Some; exists cached; auto).
      congruence.
    + intros Hn. now elim Hn.
  - assert (Hu : ~ usable_hit s path info).
    { intros (cached & d & Hl & Hv & Hd).
      assert (Hd' : cached_digest s path info = Some d)
        by (apply cached_digest_Some; exists cached; auto).
      congruence. }
    destruct (file s path info st) as [r st'] eqn:Ef. simpl.
    assert (Hev : exists events,
               trace st' = (trace st ++ EvOpen (Join (root s) path) :: events)%list).
    { rewrite (file_miss _ _ _ _ Ed), hash_file_spec in Ef.
      destruct (os_Open (Join (root s) path)) as [f|err].
      - destruct (read_error f);
          [|destruct (uint64 (copied_of f) =? uint64 (info_Size info))%Z];
          inversion Ef; subst; simpl; rewrite <- ?app_assoc; simpl; eauto.
      - inversion Ef; subst; simpl. eauto. }
    destruct Hev as [events Htr]. eexists. split; [exact Htr |].
    split; [|split].
    + split; [|intros Hu'; now elim Hu].
      intros Hno. elim Hno. eexists. now left.
    + intros cached d Hl Hv Hd. elim Hu. exists cached, d. auto.
    + intros _. split; [now left |]. intros entry ->.
      destruct (file_Done _ _ _ _ _ _ Ef) as (_ & _ & evs & _ & _ & Hm & _).
      destruct (Hm Ed) as (f & Ho & Hdg & _). eauto.
Qed.

Lemma file_value_kind (s : scanner) (path : string) (info : FileInfo) (entry : Entry) :
  file_value s path info = Done entry -> Entry_Kind entry = EntryKind_File.
Proof.
  unfold file_value. destruct (file s path info (mkState ∅ [])) as [r st'] eqn:Ef.
  simpl. intros ->. now destruct (file_Done _ _ _ _ _ _ Ef) as (Hk & _).
Qed.

(** The file entries reported by a scan that returns a cache, and the keys
    of that cache, are the same thing. *)
Lemma Scan_files_and_keys (fuel : nat) (root : string) (cache : option Cache)
      (ignores : list string) (ignoreSize : Z)
      (snapshot : option Entry) (newcache : Cache) (err : option error) :
  fst (Scan fuel root cache ignores ignoreSize) = Some (snapshot, Some newcache, err) ->
  (forall path info entry,
      In (EvFile path info entry) (snd (Scan fuel root cache ignores ignoreSize)) ->
      Entry_Kind entry = EntryKind_File /\
      (os_Lstat (Join root path) = Ok info \/ (path = "" /\ os_Stat root = Ok info)) /\
      Entries newcache !! path = Some (entry_for info (Entry_Digest entry))) /\
  (forall key ce,
      Entries newcache !! key = Some ce ->
      exists info entry,
        In (EvFile key info entry) (snd (Scan fuel root cache ignores ignoreSize)) /\
        Entry_Kind entry = EntryKind_File /\
        ce = entry_for info (Entry_Digest entry)).
Proof.
  rewrite Scan_eq.
  destruct (newPathIgnorer ignores) as [ig|e]; [|discriminate].
  cbv zeta. destruct (os_Stat root) as [info|e] eqn:Es.
  2:{ destruct (os_IsNotExist e); [|discriminate]. simpl. intros Heq.
      inversion Heq; subst; clear Heq. split.
      - intros path i en [Hin | []]. discriminate.
      - intros key ce Hk. simpl in Hk. rewrite lookup_empty in Hk. discriminate. }
  destruct (negb (Z.land (info_Mode info) os_ModeDir =? 0)%Z).
  - pose proof (traversal_inv_directory (scanner_of root cache ig ignoreSize) fuel ""
                  (start root) (start_inv (scanner_of root cache ig ignoreSize) info Es))
      as Hinv.
    destruct (directory _ _ _ _) as [[e|e|] st]; simpl in *; try discriminate.
    intros Heq. inversion Heq; subst; clear Heq. simpl.
    destruct Hinv as [Hf Hc _]. split.
    + intros path i en Hin. destruct (Hf _ _ _ Hin) as (_ & Hl & _ & _ & Hv & Hk).
      split; [now apply file_value_kind in Hv |]. split; [now left | exact Hk].
    + intros key ce Hk. destruct (Hc _ _ Hk) as (i & en & Hin & ->).
      exists i, en. split; [exact Hin |]. split; [|reflexivity].
      destruct (Hf _ _ _ Hin) as (_ & _ & _ & _ & Hv & _).
      now apply file_value_kind in Hv.
  - destruct (negb (Z.land (info_Mode info) os_ModeType =? 0)%Z); [discriminate |].
    destruct (file _ _ _ _) as [[e|e|] st] eqn:Ef; simpl; try discriminate.
    intros Heq. inversion Heq; subst; clear Heq. simpl.
    destruct (file_Done _ _ _ _ _ _ Ef) as (Hk & Hnc & events & Htr & Hev & _).
    rewrite Htr, Hnc. simpl. split.
    + intros path i en [Hin | Hin]; [discriminate |].
      apply in_app_iff in Hin as [Hin | [Hin | []]].
      * exfalso. rewrite List.Forall_forall in Hev.
        destruct (Hev _ Hin) as [_ Hn]. discriminate.
      * inversion Hin; subst. split; [exact Hk |]. split; [now right |].
        apply lookup_insert_eq.
    + intros key ce Hl. destruct (decide ("" = key)) as [<- | Hne].
      * rewrite lookup_insert_eq in Hl. inversion Hl; subst.
        exists info, e. split; [|now split].
        right. apply in_app_iff. right. now left.
      * rewrite lookup_insert_ne, lookup_empty in Hl by assumption. discriminate.
Qed.

(** ** Failures *)

Lemma usable_hit_cached_digest (s : scanner) (path : string) (info : FileInfo) :
  usable_hit s path info <-> exists d, cached_digest s path info = Some d.
Proof.
  split.
  - intros (cached & d & Hl & Hv & Hd). exists d. apply cached_digest_Some.
    exists cached. auto.
  - intros [d Hd]. apply cached_digest_Some in Hd as (cached & ? & ? & ?).
    exists cached, d. auto.
Qed.

Lemma not_usable_hit (s : scanner) (path : string) (info : FileInfo) :
  ~ usable_hit s path info <-> cached_digest s path info = None.
Proof.
  rewrite usable_hit_cached_digest. destruct (cached_digest s path info) as [d|].
  - split; [intros Hn; elim Hn; eauto | discriminate].
  - split; [reflexivity | intros _ [d Hd]; discriminate].
Qed.

(** C4: when [scanner.file] hashes a file (no usable cache hit, and the
    file opens), it returns an error if and only if the number of bytes
    copied into the hasher differs from the stat size or the read fails;
    and a scan in which a copy failed or delivered a number of bytes
    different from the stat size returns an error, with no entry and no
    cache. *)
Theorem hash_size_mismatch_fatal :
  (forall (s : scanner) (path : string) (info : FileInfo) (st : state) (f : stream),
      ~ usable_hit s path info ->
      os_Open (Join (root s) path) = Ok f ->
      ((exists err, fst (file s path info st) = Failed err) <->
       (uint64 (copied_of f) <> uint64 (info_Size info) \/ read_error f <> None))) /\
  (forall (fuel : nat) (root : string) (cache : option Cache) (ignores : list string)
          (ignoreSize : Z) (path : string) (size copied : Z) (failed : bool),
      In (EvCopy path size copied failed)
         (snd (Scan fuel root cache ignores ignoreSize)) ->
      failed = true \/ uint64 copied <> size ->
      exists err,
        fst (Scan fuel root cache ignores ignoreSize) = Some (None, None, Some err)).
Proof.
  split.
  - intros s path info st f Hu Ho. apply not_usable_hit in Hu.
    rewrite (file_miss _ _ _ _ Hu), hash_file_spec, Ho.
    destruct (read_error f) as [e|] eqn:Er; simpl.
    + split; [intros _; right; discriminate | eauto].
    + destruct (uint64 (copied_of f) =? uint64 (info_Size info))%Z eqn:Ec; simpl.
      * apply Z.eqb_eq in Ec. split; [intros [e He]; discriminate |].
        intros [Hne | Hne]; congruence.
      * apply Z.eqb_neq in Ec. split; [auto | eauto].
  - intros fuel root cache ignores ignoreSize path size copied failed Hin Hbad.
    apply Scan_fatal. apply List.Exists_exists. eexists. split; [exact Hin |].
    simpl. destruct Hbad as [-> | Hne]; [reflexivity |].
    apply Z.eqb_neq in Hne. rewrite Hne. now rewrite orb_true_r.
Qed.

(** C5: in the loop of [scanner.directory], a child whose lstat fails with
    not-found is skipped: the loop goes on with the remaining names, the
    same contents and the same new cache, and no error; a child whose
    lstat fails otherwise ends the loop with an error, and a scan in which
    an lstat failed otherwise returns an error, with no entry and no
    cache. *)
Theorem lstat_failure_handling :
  (forall (rec : string -> state -> outcome Entry * state) (s : scanner)
          (path name : string) (names : list string) (contents : gmap string Entry)
          (st : state) (err : error),
      ignored (s_pathIgnorer s) (Join path name) = false ->
      os_Lstat (Join (root s) (Join path name)) = Err err ->
      os_IsNotExist err = true ->
      directory_loop rec s path (name :: names) contents st =
      directory_loop rec s path names contents
        (mkState (newCache st)
                 (trace st ++ [EvLstat (Join (root s) (Join path name))]))) /\
  (forall (rec : string -> state -> outcome Entry * state) (s : scanner)
          (path name : string) (names : list string) (contents : gmap string Entry)
          (st : state) (err : error),
      ignored (s_pathIgnorer s) (Join path name) = false ->
      os_Lstat (Join (root s) (Join path name)) = Err err ->
      os_IsNotExist err = false ->
      fst (directory_loop rec s path (name :: names) contents st) =
      Failed (errors_Wrap err "unable to stat directory content")) /\
  (forall (fuel : nat) (root : string) (cache : option Cache) (ignores : list string)
          (ignoreSize : Z) (name : string) (err : error),
      In (EvLstat name) (snd (Scan fuel root cache ignores ignoreSize)) ->
      os_Lstat name = Err err ->
      os_IsNotExist err = false ->
      exists e,
        fst (Scan fuel root cache ignores ignoreSize) = Some (None, None, Some e)).
Proof.
  split; [|split].
  - intros rec s path name names contents st err Hi Hl Hn.
    cbn [directory_loop]. unfold directory_round. now rewrite Hi, Hl, Hn.
  - intros rec s path name names contents st err Hi Hl Hn.
    cbn [directory_loop]. unfold directory_round. now rewrite Hi, Hl, Hn.
  - intros fuel root cache ignores ignoreSize name err Hin Hl Hn.
    apply Scan_fatal. apply List.Exists_exists. eexists. split; [exact Hin |].
    simpl. now rewrite Hl, Hn.
Qed.

(** ** The size filter *)

Lemma regular_kind (info : FileInfo) :
  regular info <-> content_kind (info_Mode info) = Some EntryKind_File.
Proof.
  unfold regular, content_kind. split.
  - intros Hr.
    assert (Hd : Z.land (info_Mode info) os_ModeDir = 0%Z
                 /\ Z.land (info_Mode info) os_ModeSymlink = 0%Z).
    { unfold os_ModeType in Hr. rewrite !Z.land_lor_distr_r in Hr.
      apply Z.lor_eq_0_iff in Hr as [Hd Hr].
      apply Z.lor_eq_0_iff in Hr as [Hs _]. now split. }
    destruct Hd as [-> ->]. rewrite Hr. reflexivity.
  - destruct (Z.land (info_Mode info) os_ModeDir =? 0)%Z; [|discriminate].
    destruct (Z.land (info_Mode info) os_ModeSymlink =? 0)%Z; [|discriminate].
    destruct (Z.land (info_Mode info) os_ModeType =? 0)%Z eqn:E; [|discriminate].
    intros _. now apply Z.eqb_eq in E.
Qed.

Lemma round_of_not_Continue (o : outcome Entry * state) :
  fst (round_of o) <> Continue.
Proof. destruct o as [[e|err|] st]; discriminate. Qed.

(** The size check in one turn of the loop of [scanner.directory]: a child
    that is not ignored and is stat'ed as a regular file is passed over,
    with the state as it was, if and only if the size limit is positive and
    the size of the child is at or over it; otherwise it is handed to
    [scanner.file]; a directory is always descended into and a symbolic
    link always handled as a link, whatever their sizes and the limit. *)
Lemma round_size_check (rec : string -> state -> outcome Entry * state) (s : scanner)
      (path name : string) (st : state) (info : FileInfo) :
  ignored (s_pathIgnorer s) (Join path name) = false ->
  os_Lstat (Join (root s) (Join path name)) = Ok info ->
  let contentPath := Join path name in
  let st1 := mkState (newCache st) (trace st ++ [EvLstat (Join (root s) contentPath)]) in
  let round := directory_round rec s path name st in
  (regular info ->
   (fst round = Continue <->
    (0 < ignoreSize s /\ ignoreSize s <= uint64 (info_Size info))%Z) /\
   (fst round = Continue -> snd round = st1) /\
   (fst round <> Continue -> round = round_of (file s contentPath info st1)) /\
   (ignoreSize s = 0%Z -> round = round_of (file s contentPath info st1))) /\
  (content_kind (info_Mode info) = Some EntryKind_Directory ->
   round = round_of (rec contentPath st1)) /\
  (content_kind (info_Mode info) = Some EntryKind_Symlink ->
   round = if symlinksSupported then round_of (symlink s contentPath st1)
           else (Continue, st1)).
Proof.
  intros Hi Hl contentPath st1 round. subst round contentPath.
  unfold directory_round. rewrite Hi, Hl. unfold log. fold st1.
  split; [|split].
  - intros Hr. apply regular_kind in Hr. rewrite Hr.
    rewrite bool_decide_eq_true_2 by reflexivity. rewrite andb_true_r.
    destruct ((0 <? ignoreSize s)%Z && (ignoreSize s <=? uint64 (info_Size info))%Z)
      eqn:E.
    + apply andb_true_iff in E as [E1 E2]. apply Z.ltb_lt in E1. apply Z.leb_le in E2.
      simpl. split; [|split; [|split]].
      * split; auto.
      * reflexivity.
      * intros Hn. now elim Hn.
      * intros H0. lia.
    + assert (Hn : ~ (0 < ignoreSize s /\ ignoreSize s <= uint64 (info_Size info))%Z).
      { intros [H1 H2]. apply Z.ltb_lt in H1. apply Z.leb_le in H2.
        rewrite H1, H2 in E. discriminate. }
      split; [|split; [|split]].
      * split; [|intros Hc; now elim Hn].
        intros Hc. now elim (round_of_not_Continue _ Hc).
      * intros Hc. now elim (round_of_not_Continue _ Hc).
      * reflexivity.
      * reflexivity.
  - intros Hk. rewrite Hk.
    rewrite bool_decide_eq_false_2 by discriminate. now rewrite andb_false_r.
  - intros Hk. rewrite Hk.
    rewrite bool_decide_eq_false_2 by discriminate. now rewrite andb_false_r.
Qed.

(** ** The root *)

(** C3 (amended): if the root does not exist and the ignore list compiles,
    [Scan] returns no entry, an empty cache and no error, for every input
    cache and size limit; if the ignore list does not compile, [Scan]
    returns the error of the ignorer, with no cache, before it looks at
    the root. *)
Theorem Scan_missing_root (fuel : nat) (root : string) (cache : option Cache)
      (ignores : list string) (ignoreSize : Z) (err : error) :
  os_Stat root = Err err -> os_IsNotExist err = true ->
  (forall ig, newPathIgnorer ignores = Ok ig ->
     Scan fuel root cache ignores ignoreSize =
     (Some (None, Some (mkCache ∅), None), [EvStat root])) /\
  (forall e, newPathIgnorer ignores = Err e ->
     Scan fuel root cache ignores ignoreSize =
     (Some (None, None, Some (errors_Wrap e "unable to create ignorer")), [])).
Proof.
  intros Hs Hn. rewrite Scan_eq. split.
  - intros ig ->. cbv zeta. now rewrite Hs, Hn.
  - now intros e ->.
Qed.

(** [scanner.file] reads of the scanner its root and its input cache. *)
Lemma file_scanner (s s' : scanner) (path : string) (info : FileInfo) (st : state) :
  root s = root s' -> cache s = cache s' ->
  file s path info st = file s' path info st.
Proof.
  intros Hr Hc. unfold file, hash_file. now rewrite Hr, Hc.
Qed.

(** C10 (amended): for every ignore list that compiles and every size
    limit, [Scan] of a root that is a regular file returns what
    [scanner.file] returns for the empty path and the stat of the root;
    neither the ignore list nor the size limit has a part in it.  When the
    digest is reused from the cache, or the file opens under the cleaned
    root [filepath.Join root ""] and is read in full at its stat size, the
    result is a file entry and a cache with exactly one entry, keyed by the
    empty path; otherwise it is an error. *)
Theorem Scan_root_file (fuel : nat) (root : string) (cache : option Cache)
      (ignores : list string) (ignoreSize : Z) (ig : pathIgnorer) (info : FileInfo) :
  newPathIgnorer ignores = Ok ig ->
  os_Stat root = Ok info ->
  regular info ->
  let s := scanner_of root cache ig ignoreSize in
  Scan fuel root cache ignores ignoreSize = finish (file s "" info (start root)) /\
  (forall fuel' ignores' ig' ignoreSize',
      newPathIgnorer ignores' = Ok ig' ->
      Scan fuel' root cache ignores' ignoreSize' =
      Scan fuel root cache ignores ignoreSize) /\
  (digest_available s info ->
   exists entry,
     fst (Scan fuel root cache ignores ignoreSize) =
     Some (Some entry,
           Some (mkCache {[ "" := entry_for info (Entry_Digest entry) ]}), None)
     /\ Entry_Kind entry = EntryKind_File) /\
  (~ digest_available s info ->
   exists err,
     fst (Scan fuel root cache ignores ignoreSize) = Some (None, None, Some err)).
Proof.
  intros Hig Hs Hr s.
  assert (Hscan : forall fuel' ignores' ig' ignoreSize',
             newPathIgnorer ignores' = Ok ig' ->
             Scan fuel' root cache ignores' ignoreSize' =
             finish (file s "" info (start root))).
  { intros fuel' ignores' ig' ignoreSize' Hig'. rewrite Scan_eq, Hig', Hs. cbv zeta.
    pose proof Hr as Hk. apply regular_kind in Hk. unfold content_kind in Hk.
    destruct (negb (Z.land (info_Mode info) os_ModeDir =? 0)%Z); [discriminate |].
    unfold regular in Hr. rewrite Hr. simpl.
    now rewrite (file_scanner (scanner_of root cache ig' ignoreSize') s). }
  split; [exact (Hscan _ _ _ _ Hig) |]. split.
  { intros fuel' ignores' ig' ignoreSize' Hig'. now rewrite (Hscan _ _ _ _ Hig'), (Hscan _ _ _ _ Hig). }
  rewrite (Hscan _ _ _ _ Hig).
  destruct (file s "" info (start root)) as [r st'] eqn:Ef.
  destruct (cached_digest s "" info) as [d|] eqn:Ed.
  - assert (Hu : usable_hit s "" info) by (apply usable_hit_cached_digest; eauto).
    rewrite (file_hit _ _ _ _ d Ed) in Ef. inversion Ef; subst; clear Ef. simpl. split.
    + intros _. eexists (mkEntry EntryKind_File _ _ "" ∅).
       split; [simpl; rewrite insert_empty; reflexivity | reflexivity].
    + intros Hn. elim Hn. now left.
  - pose proof Ed as Hnu. apply not_usable_hit in Hnu.
    rewrite (file_miss _ _ _ _ Ed), hash_file_spec in Ef.
    simpl (Sync.root s) in Ef.
    unfold digest_available. simpl (Sync.root s).
    destruct (os_Open (Join root "")) as [f|e] eqn:Eo.
    + destruct (read_error f) as [e|] eqn:Er.
      * inversion Ef; subst; clear Ef. simpl. split; [|eauto].
        intros [Hu | (f' & Hf' & Hre & _)]; [now elim Hnu |]. congruence.
      * destruct (uint64 (copied_of f) =? uint64 (info_Size info))%Z eqn:Ec.
        -- apply Z.eqb_eq in Ec. inversion Ef; subst; clear Ef. simpl. split.
           ++ intros _. eexists (mkEntry EntryKind_File _ _ "" ∅).
       split; [simpl; rewrite insert_empty; reflexivity | reflexivity].
           ++ intros Hn. elim Hn. right. exists f. auto.
        -- apply Z.eqb_neq in Ec. inversion Ef; subst; clear Ef. simpl. split; [|eauto].
           intros [Hu | (f' & Hf' & _ & Hc)]; [now elim Hnu |]. congruence.
    + inversion Ef; subst; clear Ef. simpl. split; [|eauto].
      intros [Hu | (f' & Hf' & _)]; [now elim Hnu | discriminate].
Qed.

(** ** The snapshot and the events *)

Lemma extends_refl (st : state) : extends st st.
Proof. exists []. now rewrite app_nil_r. Qed.

Lemma extends_trans (st1 st2 st3 : state) :
  extends st1 st2 -> extends st2 st3 -> extends st1 st3.
Proof.
  intros [e1 H1] [e2 H2]. exists (e1 ++ e2)%list. now rewrite H2, H1, app_assoc.
Qed.

Lemma extends_log (st : state) (ev : event) : extends st (log ev st).
Proof. now exists [ev]. Qed.

Lemma reported_extends (path : string) (e : Entry) (st st' : state) :
  extends st st' -> reported path e (trace st) -> reported path e (trace st').
Proof.
  intros [events Htr] Hr names e' Hl Hk. destruct (Hr names e' Hl Hk) as [info Hin].
  exists info. rewrite Htr. apply in_app_iff. now left.
Qed.

Lemma file_extends (s : scanner) (path : string) (info : FileInfo) (st : state) :
  extends st (snd (file s path info st)).
Proof.
  destruct (file s path info st) as [r st'] eqn:Ef. simpl.
  destruct r as [e|err|].
  - destruct (file_Done _ _ _ _ _ _ Ef) as (_ & _ & events & Htr & _).
    eexists. exact Htr.
  - destruct (file_not_Done _ _ _ _ _ _ Ef) as (_ & events & Htr & _);
      [discriminate | eexists; exact Htr].
  - destruct (file_not_Done _ _ _ _ _ _ Ef) as (_ & events & Htr & _);
      [discriminate | eexists; exact Htr].
Qed.

Lemma file_reported (s : scanner) (path : string) (info : FileInfo) (st st' : state)
      (entry : Entry) :
  file s path info st = (Done entry, st') -> reported path entry (trace st').
Proof.
  intros Ef. destruct (file_Done _ _ _ _ _ _ Ef) as (_ & _ & events & Htr & _).
  assert (Hc : Entry_Contents entry = ∅).
  { destruct (cached_digest s path info) as [d|] eqn:Ed.
    - rewrite (file_hit _ _ _ _ d Ed) in Ef. now inversion Ef.
    - rewrite (file_miss _ _ _ _ Ed) in Ef.
      destruct (hash_file s path (uint64 (info_Size info)) st) as [[d|e|] st0];
        now inversion Ef. }
  intros [|name names] e' Hl Hk; simpl in Hl.
  - inversion Hl; subst e'. exists info. rewrite Htr. simpl.
    apply in_app_iff. right. apply in_app_iff. right. now left.
  - rewrite Hc, lookup_empty in Hl. discriminate.
Qed.

Lemma symlink_extends (s : scanner) (path : string) (st : state) :
  extends st (snd (symlink s path st)).
Proof. rewrite symlink_spec. apply extends_log. Qed.

Lemma symlink_reported (s : scanner) (path : string) (st st' : state) (entry : Entry) :
  symlink s path st = (Done entry, st') -> reported path entry (trace st').
Proof.
  rewrite symlink_spec. intros Heq.
  destruct (os_Readlink (Join (root s) path)) as [target|err]; [|discriminate].
  destruct (String.eqb target ""); [discriminate |].
  inversion Heq; subst; clear Heq.
  intros [|name names] e' Hl Hk; simpl in Hl.
  - inversion Hl; subst e'. discriminate.
  - rewrite lookup_empty in Hl. discriminate.
Qed.

Section Reported.
Variable s : scanner.
Variable rec : string -> state -> outcome Entry * state.
Hypothesis rec_extends : forall path st, extends st (snd (rec path st)).
Hypothesis rec_reported : forall path st entry st',
  rec path st = (Done entry, st') -> reported path entry (trace st').

Lemma round_extends (path name : string) (st : state) :
  extends st (snd (directory_round rec s path name st)).
Proof.
  unfold directory_round.
  destruct (ignored (s_pathIgnorer s) (Join path name)); [apply extends_refl |].
  destruct (os_Lstat (Join (root s) (Join path name))) as [info|err].
  2:{ destruct (os_IsNotExist err); apply extends_log. }
  destruct (content_kind (info_Mode info)) as [kind|]; [|apply extends_log].
  destruct (_ && _); [apply extends_log |].
  assert (Hof : forall o st0, extends st0 (snd o) -> extends st0 (snd (round_of o))).
  { intros [[e|e|] st1] st0; simpl; auto. }
  destruct kind.
  - apply Hof. eapply extends_trans; [apply extends_log | apply rec_extends].
  - apply Hof. eapply extends_trans; [apply extends_log | apply file_extends].
  - destruct symlinksSupported; [|apply extends_log].
    apply Hof. eapply extends_trans; [apply extends_log | apply symlink_extends].
Qed.

Lemma round_reported (path name : string) (st st' : state) (entry : Entry) :
  directory_round rec s path name st = (Content entry, st') ->
  reported (Join path name) entry (trace st').
Proof.
  unfold directory_round.
  destruct (ignored (s_pathIgnorer s) (Join path name)); [discriminate |].
  destruct (os_Lstat (Join (root s) (Join path name))) as [info|err].
  2:{ destruct (os_IsNotExist err); discriminate. }
  destruct (content_kind (info_Mode info)) as [kind|]; [|discriminate].
  destruct (_ && _); [discriminate |].
  destruct kind.
  - destruct (rec _ _) as [[e|e|] st1] eqn:Er; simpl; intros Heq; inversion Heq; subst.
    now apply rec_reported in Er.
  - destruct (file _ _ _ _) as [[e|e|] st1] eqn:Er; simpl; intros Heq; inversion Heq; subst.
    now apply file_reported in Er.
  - destruct symlinksSupported; [|discriminate].
    destruct (symlink _ _ _) as [[e|e|] st1] eqn:Er; simpl; intros Heq;
      inversion Heq; subst.
    now apply symlink_reported in Er.
Qed.

Lemma loop_extends (path : string) (names : list string) :
  forall contents st,
    extends st (snd (directory_loop rec s path names contents st)).
Proof.
  induction names as [|name names IH]; intros contents st; [apply extends_refl |].
  simpl. pose proof (round_extends path name st) as Hr.
  destruct (directory_round rec s path name st) as [[|entry|err|] st1]; simpl in *; auto.
  - eapply extends_trans; [exact Hr | apply IH].
  - eapply extends_trans; [exact Hr | apply IH].
Qed.

Lemma loop_reported (path : string) (names : list string) :
  forall contents st contents' st',
    directory_loop rec s path names contents st = (Done contents', st') ->
    (forall name child, contents !! name = Some child ->
                        reported (Join path name) child (trace st)) ->
    forall name child, contents' !! name = Some child ->
                       reported (Join path name) child (trace st').
Proof.
  induction names as [|name names IH]; intros contents st contents' st' Hl Hc.
  - simpl in Hl. inversion Hl; subst. exact Hc.
  - simpl in Hl. pose proof (round_extends path name st) as He.
    destruct (directory_round rec s path name st) as [[|entry|err|] st1] eqn:Er;
      simpl in He; try discriminate.
    + apply (IH _ _ _ _ Hl). intros n c Hn.
      eapply reported_extends; [exact He | now apply Hc].
    + apply (IH _ _ _ _ Hl). intros n c Hn.
      destruct (decide (name = n)) as [<- | Hne].
      * rewrite lookup_insert_eq in Hn. inversion Hn; subst c.
        now apply round_reported in Er.
      * rewrite lookup_insert_ne in Hn by assumption.
        eapply reported_extends; [exact He | now apply Hc].
Qed.

End Reported.

Lemma directory_extends (s : scanner) (fuel : nat) :
  forall path st, extends st (snd (directory fuel s path st)).
Proof.
  induction fuel as [|fuel IH]; intros path st; [apply extends_refl |].
  simpl. destruct (filesystem_DirectoryContents (Join (root s) path)) as [names|err];
    [|apply extends_log].
  pose proof (loop_extends s (directory fuel s) IH path names ∅
                (log (EvReadDir (Join (root s) path)) st)) as Hl.
  destruct (directory_loop _ s path names ∅ _) as [[c|e|] st1]; simpl in *;
    (eapply extends_trans; [apply extends_log | exact Hl]).
Qed.

Lemma joins_cons (path name : string) (names : list string) :
  joins path (name :: names) = joins (Join path name) names.
Proof. reflexivity. Qed.

(** Every file entry in the entry that [scanner.directory] returns was
    reported by [scanner.file], at its relative path. *)
Lemma directory_reported (s : scanner) (fuel : nat) :
  forall path st entry st',
    directory fuel s path st = (Done entry, st') -> reported path entry (trace st').
Proof.
  induction fuel as [|fuel IH]; intros path st entry st' Hd; [discriminate |].
  simpl in Hd.
  destruct (filesystem_DirectoryContents (Join (root s) path)) as [listed|err];
    [|discriminate].
  destruct (directory_loop _ s path listed ∅ _) as [[c|e|] st1] eqn:El;
    inversion Hd; subst; clear Hd.
  pose proof (loop_reported s (directory fuel s) (directory_extends s fuel) IH
                path listed _ _ _ _ El) as Hc.
  intros [|name names] e' Hl Hk; simpl in Hl.
  - inversion Hl; subst e'. discriminate.
  - destruct (c !! name) as [child|] eqn:Hn; [|discriminate].
    rewrite joins_cons. eapply Hc; eauto.
    intros n ch Hempty. rewrite lookup_empty in Hempty. discriminate.
Qed.

(** Every file entry in the snapshot that [Scan] returns was reported by
    [scanner.file], at its relative path. *)
Lemma Scan_reported (fuel : nat) (root : string) (cache : option Cache)
      (ignores : list string) (ignoreSize : Z)
      (rootEntry : Entry) (newcache : option Cache) (err : option error) :
  fst (Scan fuel root cache ignores ignoreSize) = Some (Some rootEntry, newcache, err) ->
  reported "" rootEntry (snd (Scan fuel root cache ignores ignoreSize)).
Proof.
  rewrite Scan_eq.
  destruct (newPathIgnorer ignores) as [ig|e]; [|discriminate].
  cbv zeta. destruct (os_Stat root) as [info|e].
  2:{ destruct (os_IsNotExist e); discriminate. }
  destruct (negb (Z.land (info_Mode info) os_ModeDir =? 0)%Z).
  - destruct (directory _ _ _ _) as [[e|e|] st] eqn:Ed; simpl; try discriminate.
    intros Heq. inversion Heq; subst. now apply directory_reported in Ed.
  - destruct (negb (Z.land (info_Mode info) os_ModeType =? 0)%Z); [discriminate |].
    destruct (file _ _ _ _) as [[e|e|] st] eqn:Ef; simpl; try discriminate.
    intros Heq. inversion Heq; subst. now apply file_reported in Ef.
Qed.

(** ** The events and the snapshot *)

Lemma symlink_fst (s : scanner) (path : string) (st1 st2 : state) :
  fst (symlink s path st1) = fst (symlink s path st2).
Proof. now rewrite !symlink_spec. Qed.

Lemma file_located (s : scanner) (path : string) (info : FileInfo) (st st' : state)
      (entry : Entry) :
  file s path info st = (Done entry, st') ->
  exists new, trace st' = (trace st ++ new)%list /\ located path entry new.
Proof.
  intros Ef. destruct (file_Done _ _ _ _ _ _ Ef) as (_ & _ & events & Htr & Hq & _).
  eexists. split; [exact Htr |].
  intros p i e' Hin. apply in_app_iff in Hin as [Hin | [Heq | []]].
  - rewrite List.Forall_forall in Hq. destruct (Hq _ Hin) as [_ Hn]. discriminate.
  - inversion Heq; subst. now exists [].
Qed.

Lemma symlink_located (s : scanner) (path : string) (st st' : state) (entry : Entry) :
  symlink s path st = (Done entry, st') ->
  exists new, trace st' = (trace st ++ new)%list /\ located path entry new.
Proof.
  rewrite symlink_spec. intros Heq. inversion Heq; subst. eexists. split; [reflexivity |].
  intros p i e' [Hin | []]. discriminate.
Qed.

Section Located.
Variable s : scanner.
Variable rec : string -> state -> outcome Entry * state.
Hypothesis rec_fst : forall path st1 st2, fst (rec path st1) = fst (rec path st2).
Hypothesis rec_located : forall path st entry st',
  rec path st = (Done entry, st') ->
  exists new, trace st' = (trace st ++ new)%list /\ located path entry new.

Lemma round_of_fst (o1 o2 : outcome Entry * state) :
  fst o1 = fst o2 -> fst (round_of o1) = fst (round_of o2).
Proof. destruct o1 as [[?|?|] ?], o2 as [[?|?|] ?]; simpl; congruence. Qed.

(** The result of a round does not depend on the state it starts from. *)
Lemma round_fst (path name : string) (st1 st2 : state) :
  fst (directory_round rec s path name st1) = fst (directory_round rec s path name st2).
Proof.
  unfold directory_round.
  destruct (ignored (s_pathIgnorer s) (Join path name)); [reflexivity |].
  destruct (os_Lstat (Join (root s) (Join path name))) as [info|err].
  2:{ destruct (os_IsNotExist err); reflexivity. }
  destruct (content_kind (info_Mode info)) as [kind|]; [|reflexivity].
  destruct (_ && _); [reflexivity |].
  destruct kind.
  - apply round_of_fst, rec_fst.
  - apply round_of_fst. now rewrite !file_fst.
  - destruct symlinksSupported; [|reflexivity]. apply round_of_fst, symlink_fst.
Qed.

Lemma round_located (path name : string) (st st' : state) (r : round) :
  directory_round rec s path name st = (r, st') ->
  match r with
  | Continue =>
      exists new, trace st' = (trace st ++ new)%list /\
                  Forall (fun ev => is_EvFile ev = false) new
  | Content entry =>
      exists new, trace st' = (trace st ++ new)%list /\
                  located (Join path name) entry new
  | _ => True
  end.
Proof.
  unfold directory_round.
  destruct (ignored (s_pathIgnorer s) (Join path name)).
  { intros Heq. inversion Heq; subst. exists []. now rewrite app_nil_r. }
  set (st1 := log (EvLstat (Join (root s) (Join path name))) st).
  assert (Hlog : exists new, trace st1 = (trace st ++ new)%list /\
                             Forall (fun ev => is_EvFile ev = false) new).
  { exists [EvLstat (Join (root s) (Join path name))].
    split; [reflexivity | now repeat constructor]. }
  assert (Hdone : forall (o : outcome Entry * state),
             (forall entry st2, o = (Done entry, st2) ->
                exists new, trace st2 = (trace st1 ++ new)%list /\
                            located (Join path name) entry new) ->
             round_of o = (r, st') ->
             match r with
             | Continue =>
                 exists new, trace st' = (trace st ++ new)%list /\
                             Forall (fun ev => is_EvFile ev = false) new
             | Content entry =>
                 exists new, trace st' = (trace st ++ new)%list /\
                             located (Join path name) entry new
             | _ => True
             end).
  { intros [[e|e|] st2] Ho Heq; simpl in Heq; inversion Heq; subst; [|exact I | exact I].
    destruct (Ho _ _ eq_refl) as (new & Htr & Hloc).
    exists (EvLstat (Join (root s) (Join path name)) :: new). split.
    - rewrite Htr. simpl. now rewrite <- app_assoc.
    - intros p i e' [Hin | Hin]; [discriminate | exact (Hloc _ _ _ Hin)]. }
  destruct (os_Lstat (Join (root s) (Join path name))) as [info|err].
  2:{ destruct (os_IsNotExist err); intros Heq; inversion Heq; subst;
        [exact Hlog | exact I]. }
  destruct (content_kind (info_Mode info)) as [kind|].
  2:{ intros Heq; inversion Heq; subst. exact Hlog. }
  destruct (_ && _).
  { intros Heq; inversion Heq; subst. exact Hlog. }
  destruct kind.
  - apply Hdone. intros entry st2 Ho. now apply rec_located in Ho.
  - apply Hdone. intros entry st2 Ho. now apply file_located in Ho.
  - destruct symlinksSupported.
    + apply Hdone. intros entry st2 Ho. now apply symlink_located in Ho.
    + intros Heq; inversion Heq; subst. exact Hlog.
Qed.

Lemma loop_located (path : string) (names : list string) :
  forall contents st contents' st',
    directory_loop rec s path names contents st = (Done contents', st') ->
    settled rec s path contents ->
    settled rec s path contents' /\
    (forall name child, contents !! name = Some child -> contents' !! name = Some child) /\
    exists new,
      trace st' = (trace st ++ new)%list /\
      forall p info e',
        In (EvFile p info e') new ->
        exists name child names',
          contents' !! name = Some child /\
          joins (Join path name) names' = p /\
          lookup_path child names' = Some e'.
Proof.
  induction names as [|name names IH]; intros contents st contents' st' Hl Hset.
  - simpl in Hl. inversion Hl; subst. split; [exact Hset |]. split; [auto |].
    exists []. split; [now rewrite app_nil_r |]. intros p i e' [].
  - simpl in Hl.
    destruct (directory_round rec s path name st) as [[|entry|err|] st1] eqn:Er;
      try discriminate; pose proof (round_located _ _ _ _ _ Er) as (new1 & Htr1 & Hn1).
    + destruct (IH _ _ _ _ Hl Hset) as (Hset' & Hkeep & new2 & Htr2 & Hloc2).
      split; [exact Hset' |]. split; [exact Hkeep |].
      exists (new1 ++ new2)%list. split; [now rewrite Htr2, Htr1, app_assoc |].
      intros p i e' Hin. apply in_app_iff in Hin as [Hin | Hin]; [|exact (Hloc2 _ _ _ Hin)].
      rewrite List.Forall_forall in Hn1. specialize (Hn1 _ Hin). discriminate.
    + assert (Hval : forall st0, fst (directory_round rec s path name st0) = Content entry).
      { intros st0. rewrite (round_fst path name st0 st), Er. reflexivity. }
      assert (Hset1 : settled rec s path (<[name := entry]> contents)).
      { intros n c Hn st0. destruct (decide (name = n)) as [<- | Hne].
        - rewrite lookup_insert_eq in Hn. inversion Hn; subst c. apply Hval.
        - rewrite lookup_insert_ne in Hn by assumption. now apply Hset. }
      destruct (IH _ _ _ _ Hl Hset1) as (Hset' & Hkeep & new2 & Htr2 & Hloc2).
      split; [exact Hset' |]. split.
      { intros n c Hn. apply Hkeep. destruct (decide (name = n)) as [<- | Hne].
        - rewrite lookup_insert_eq. f_equal.
          pose proof (Hset _ _ Hn st) as Hc. rewrite Hval in Hc. now inversion Hc.
        - now rewrite lookup_insert_ne. }
      exists (new1 ++ new2)%list. split; [now rewrite Htr2, Htr1, app_assoc |].
      intros p i e' Hin. apply in_app_iff in Hin as [Hin | Hin]; [|exact (Hloc2 _ _ _ Hin)].
      destruct (Hn1 _ _ _ Hin) as (names' & Hj & Hlk).
      exists name, entry, names'. split; [|now split].
      apply Hkeep. apply lookup_insert_eq.
Qed.

Lemma loop_fst (path : string) (names : list string) :
  forall contents st1 st2,
    fst (directory_loop rec s path names contents st1)
    = fst (directory_loop rec s path names contents st2).
Proof.
  induction names as [|name names IH]; intros contents st1 st2; [reflexivity |].
  simpl. pose proof (round_fst path name st1 st2) as Hr.
  destruct (directory_round rec s path name st1) as [[|e1|e1|] st1'],
           (directory_round rec s path name st2) as [[|e2|e2|] st2'];
    simpl in Hr; try discriminate; try reflexivity.
  - apply IH.
  - inversion Hr; subst. apply IH.
  - now inversion Hr.
Qed.

End Located.

(** The result of [scanner.directory] does not depend on the state it
    starts from. *)
Lemma directory_fst (s : scanner) (fuel : nat) :
  forall path st1 st2,
    fst (directory fuel s path st1) = fst (directory fuel s path st2).
Proof.
  induction fuel as [|fuel IH]; intros path st1 st2; [reflexivity |].
  simpl. destruct (filesystem_DirectoryContents (Join (root s) path)) as [names|err];
    [|reflexivity].
  pose proof (loop_fst s (directory fuel s) IH path names ∅
                (log (EvReadDir (Join (root s) path)) st1)
                (log (EvReadDir (Join (root s) path)) st2)) as Hl.
  destruct (directory_loop _ s path names ∅ (log _ st1)) as [[c1|e1|] st1'],
           (directory_loop _ s path names ∅ (log _ st2)) as [[c2|e2|] st2'];
    simpl in *; congruence.
Qed.

(** Every file entry that [scanner.directory] reports is found in the entry
    it returns. *)
Lemma directory_located (s : scanner) (fuel : nat) :
  forall path st entry st',
    directory fuel s path st = (Done entry, st') ->
    exists new, trace st' = (trace st ++ new)%list /\ located path entry new.
Proof.
  induction fuel as [|fuel IH]; intros path st entry st' Hd; [discriminate |].
  simpl in Hd.
  destruct (filesystem_DirectoryContents (Join (root s) path)) as [listed|err];
    [|discriminate].
  destruct (directory_loop _ s path listed ∅ _) as [[c|e|] st1] eqn:El;
    inversion Hd; subst; clear Hd.
  destruct (loop_located s (directory fuel s) (directory_fst s fuel) IH
              path listed _ _ _ _ El) as (_ & _ & new & Htr & Hloc).
  { intros n ch Hempty. rewrite lookup_empty in Hempty. discriminate. }
  exists (EvReadDir (Join (root s) path) :: new). split.
  - rewrite Htr. simpl. now rewrite <- app_assoc.
  - intros p i e' [Hin | Hin]; [discriminate |].
    destruct (Hloc _ _ _ Hin) as (name & child & names' & Hc & Hj & Hlk).
    exists (name :: names'). split; [exact Hj |]. simpl. now rewrite Hc.
Qed.

(** Every file entry that a scan reports is found in the snapshot it
    returns, under names that make up its relative path. *)
Lemma Scan_located (fuel : nat) (root : string) (cache : option Cache)
      (ignores : list string) (ignoreSize : Z)
      (rootEntry : Entry) (newcache : option Cache) (err : option error) :
  fst (Scan fuel root cache ignores ignoreSize) = Some (Some rootEntry, newcache, err) ->
  located "" rootEntry (snd (Scan fuel root cache ignores ignoreSize)).
Proof.
  rewrite Scan_eq.
  destruct (newPathIgnorer ignores) as [ig|e]; [|discriminate].
  cbv zeta. destruct (os_Stat root) as [info|e].
  2:{ destruct (os_IsNotExist e); discriminate. }
  assert (Hstart : forall st new,
             trace st = (trace (start root) ++ new)%list ->
             located "" rootEntry new -> located "" rootEntry (trace st)).
  { intros st new Htr Hloc p i e' Hin. rewrite Htr in Hin. simpl in Hin.
    destruct Hin as [Hin | Hin]; [discriminate | exact (Hloc _ _ _ Hin)]. }
  destruct (negb (Z.land (info_Mode info) os_ModeDir =? 0)%Z).
  - destruct (directory _ _ _ _) as [[e|e|] st] eqn:Ed; simpl; try discriminate.
    intros Heq. inversion Heq; subst.
    apply directory_located in Ed as (new & Htr & Hloc). eauto.
  - destruct (negb (Z.land (info_Mode info) os_ModeType =? 0)%Z); [discriminate |].
    destruct (file _ _ _ _) as [[e|e|] st] eqn:Ef; simpl; try discriminate.
    intros Heq. inversion Heq; subst.
    apply file_located in Ef as (new & Htr & Hloc). eauto.
Qed.

(** ** The cache that a scan returns *)

(** The cache entry of a stat holds the mode and the size as the stat gives
    them: the conversions to [uint32] and [uint64] change nothing for a
    file mode and a size that is not negative. *)
Lemma entry_for_in_range (info : FileInfo) (digest : bytes) :
  (0 <= info_Mode info < 2 ^ 32)%Z -> (0 <= info_Size info < 2 ^ 63)%Z ->
  entry_for info digest
  = mkCacheEntry (info_Mode info) (info_ModTime info) (info_Size info) digest.
Proof.
  intros Hm Hs. unfold entry_for, uint32, uint64.
  rewrite !Z.mod_small by lia. reflexivity.
Qed.

(** C2: for every file entry that a scan produces, the cache it returns
    has, at the relative path of the file, an entry with the mode, the
    modification time and the size of the stat of that file in this scan
    (the mode as a [uint32], the size as a [uint64], as the code converts
    them) and with the digest of the file entry.  This holds of every entry
    that [scanner.file] returned in the scan, and so of every file entry
    found in the returned snapshot, at the path made of the names that lead
    to it. *)
Theorem Scan_cache_coherence (fuel : nat) (root : string) (cache : option Cache)
      (ignores : list string) (ignoreSize : Z)
      (snapshot : option Entry) (newcache : Cache) (err : option error) :
  fst (Scan fuel root cache ignores ignoreSize) = Some (snapshot, Some newcache, err) ->
  (forall path info entry,
      In (EvFile path info entry) (snd (Scan fuel root cache ignores ignoreSize)) ->
      Entry_Kind entry = EntryKind_File /\
      (os_Lstat (Join root path) = Ok info \/ (path = "" /\ os_Stat root = Ok info)) /\
      exists ce,
        Entries newcache !! path = Some ce /\
        Mode ce = uint32 (info_Mode info) /\
        ModificationTime ce = info_ModTime info /\
        Size_ ce = uint64 (info_Size info) /\
        Digest ce = Entry_Digest entry) /\
  (forall rootEntry names entry,
      snapshot = Some rootEntry ->
      lookup_path rootEntry names = Some entry ->
      Entry_Kind entry = EntryKind_File ->
      exists info ce,
        (os_Lstat (Join root (joins "" names)) = Ok info
         \/ (joins "" names = "" /\ os_Stat root = Ok info)) /\
        Entries newcache !! joins "" names = Some ce /\
        Mode ce = uint32 (info_Mode info) /\
        ModificationTime ce = info_ModTime info /\
        Size_ ce = uint64 (info_Size info) /\
        Digest ce = Entry_Digest entry /\
        ((0 <= info_Mode info < 2 ^ 32)%Z -> (0 <= info_Size info < 2 ^ 63)%Z ->
         Mode ce = info_Mode info /\ Size_ ce = info_Size info)).
Proof.
  intros Hs. destruct (Scan_files_and_keys _ _ _ _ _ _ _ _ Hs) as [Hf _].
  split.
  - intros path info entry Hin. destruct (Hf _ _ _ Hin) as (Hk & Hstat & Hl).
    split; [exact Hk |]. split; [exact Hstat |].
    eexists. split; [exact Hl |]. now repeat split.
  - intros rootEntry names entry -> Hl Hk.
    destruct (Scan_reported _ _ _ _ _ _ _ _ Hs names entry Hl Hk) as [info Hin].
    destruct (Hf _ _ _ Hin) as (_ & Hstat & Hce).
    exists info, (entry_for info (Entry_Digest entry)).
    split; [exact Hstat |]. split; [exact Hce |]. repeat split.
    all: rewrite entry_for_in_range by assumption; reflexivity.
Qed.

(** C7: every key of the cache that a scan returns is the relative path of
    a file entry produced in this scan, whatever the input cache holds: an
    entry returned by [scanner.file] for that path, which is found in the
    returned snapshot under names that make up the path; a path for which
    this scan produced no file entry is not a key. *)
Theorem Scan_cache_keys (fuel : nat) (root : string) (cache : option Cache)
      (ignores : list string) (ignoreSize : Z)
      (snapshot : option Entry) (newcache : Cache) (err : option error) :
  fst (Scan fuel root cache ignores ignoreSize) = Some (snapshot, Some newcache, err) ->
  (forall key,
      is_Some (Entries newcache !! key) ->
      exists info entry,
        In (EvFile key info entry) (snd (Scan fuel root cache ignores ignoreSize)) /\
        Entry_Kind entry = EntryKind_File /\
        exists rootEntry names,
          snapshot = Some rootEntry /\ joins "" names = key /\
          lookup_path rootEntry names = Some entry) /\
  (forall key,
      (forall info entry,
          ~ In (EvFile key info entry) (snd (Scan fuel root cache ignores ignoreSize))) ->
      Entries newcache !! key = None).
Proof.
  intros Hs. destruct (Scan_files_and_keys _ _ _ _ _ _ _ _ Hs) as [_ Hc]. split.
  - intros key [ce Hk]. destruct (Hc _ _ Hk) as (info & entry & Hin & Hkind & _).
    exists info, entry. split; [exact Hin |]. split; [exact Hkind |].
    destruct snapshot as [rootEntry|].
    + destruct (Scan_located _ _ _ _ _ _ _ _ Hs _ _ _ Hin) as (names & Hj & Hl).
      now exists rootEntry, names.
    + exfalso. revert Hs Hin. rewrite Scan_eq.
      destruct (newPathIgnorer ignores) as [ig|e]; [|discriminate].
      cbv zeta. destruct (os_Stat root) as [i|e].
      * destruct (negb (Z.land (info_Mode i) os_ModeDir =? 0)%Z).
        -- destruct (directory _ _ _ _) as [[?|?|] ?]; discriminate.
        -- destruct (negb (Z.land (info_Mode i) os_ModeType =? 0)%Z); [discriminate |].
           destruct (file _ _ _ _) as [[?|?|] ?]; discriminate.
      * destruct (os_IsNotExist e); [|discriminate].
        simpl. intros _ [Hin | []]. discriminate.
  - intros key Hno. destruct (Entries newcache !! key) as [ce|] eqn:Hk; [|reflexivity].
    destruct (Hc _ _ Hk) as (info & entry & Hin & _). now elim (Hno info entry).
Qed.

(** ** What a scan of a directory leaves out *)

(** In a scan of a directory that returns a cache, every file entry reported
    is for a path that is not ignored and whose lstat, a regular file, is
    under the size limit. *)
Lemma Scan_directory_files (fuel : nat) (root : string) (cache : option Cache)
      (ignores : list string) (ignoreSize : Z) (ig : pathIgnorer) (rootinfo : FileInfo)
      (snapshot : option Entry) (newcache : Cache) (err : option error)
      (path : string) (info : FileInfo) (entry : Entry) :
  fst (Scan fuel root cache ignores ignoreSize) = Some (snapshot, Some newcache, err) ->
  newPathIgnorer ignores = Ok ig ->
  os_Stat root = Ok rootinfo ->
  Z.land (info_Mode rootinfo) os_ModeDir <> 0%Z ->
  In (EvFile path info entry) (snd (Scan fuel root cache ignores ignoreSize)) ->
  ignored ig path = false /\
  os_Lstat (Join root path) = Ok info /\
  regular info /\
  ~ (0 < ignoreSize /\ ignoreSize <= uint64 (info_Size info))%Z.
Proof.
  rewrite Scan_eq. intros Hs Hig Hst Hdir. rewrite Hig, Hst in *. cbv zeta in *.
  apply Z.eqb_neq in Hdir. rewrite Hdir in *. simpl in *.
  pose proof (traversal_inv_directory (scanner_of root cache ig ignoreSize) fuel ""
                (start root) (start_inv (scanner_of root cache ig ignoreSize) _ Hst))
    as Hinv.
  destruct (directory _ _ _ _) as [[e|e|] st]; simpl in *; try discriminate.
  intros Hin. destruct (inv_files _ _ Hinv _ _ _ Hin) as (Hi & Hl & Hk & Hsz & _).
  simpl in *. split; [exact Hi |]. split; [exact Hl |].
  split; [now apply regular_kind |].
  intros [H0 Hle]. unfold size_filtered in Hsz. simpl in Hsz.
  apply Z.ltb_lt in H0. apply Z.leb_le in Hle. rewrite H0, Hle in Hsz. discriminate.
Qed.

(** Ignore exclusivity and the size filter, for a whole scan: in a scan of a
    directory, a path that is ignored, or whose lstat is at or over a
    positive size limit, is not a key of the returned cache and is not the
    path of a file entry of the returned snapshot. *)
Theorem Scan_excluded_absent (fuel : nat) (root : string) (cache : option Cache)
      (ignores : list string) (ignoreSize : Z) (ig : pathIgnorer) (rootinfo : FileInfo)
      (snapshot : option Entry) (newcache : Cache) (err : option error)
      (path : string) :
  fst (Scan fuel root cache ignores ignoreSize) = Some (snapshot, Some newcache, err) ->
  newPathIgnorer ignores = Ok ig ->
  os_Stat root = Ok rootinfo ->
  Z.land (info_Mode rootinfo) os_ModeDir <> 0%Z ->
  (ignored ig path = true \/
   exists info, os_Lstat (Join root path) = Ok info /\
                (0 < ignoreSize /\ ignoreSize <= uint64 (info_Size info))%Z) ->
  Entries newcache !! path = None /\
  forall rootEntry names entry,
    snapshot = Some rootEntry -> joins "" names = path ->
    lookup_path rootEntry names = Some entry ->
    Entry_Kind entry <> EntryKind_File.
Proof.
  intros Hs Hig Hst Hdir Hex.
  assert (Hno : forall info entry,
             ~ In (EvFile path info entry) (snd (Scan fuel root cache ignores ignoreSize))).
  { intros info entry Hin.
    destruct (Scan_directory_files _ _ _ _ _ _ _ _ _ _ _ _ _ Hs Hig Hst Hdir Hin)
      as (Hi & Hl & _ & Hsz).
    destruct Hex as [Hign | (info' & Hl' & Hbig)]; [congruence |].
    rewrite Hl in Hl'. inversion Hl'; subst info'. now elim Hsz. }
  split.
  - destruct (Entries newcache !! path) as [ce|] eqn:Hk; [|reflexivity].
    destruct (Scan_files_and_keys _ _ _ _ _ _ _ _ Hs) as [_ Hc].
    destruct (Hc _ _ Hk) as (info & entry & Hin & _). now elim (Hno info entry).
  - intros rootEntry names entry -> Hj Hl Hk.
    destruct (Scan_reported _ _ _ _ _ _ _ _ Hs names entry Hl Hk) as [info Hin].
    rewrite Hj in Hin. now elim (Hno info entry).
Qed.

(** The root of a snapshot is a directory or a file, never a link. *)
Theorem Scan_root_kind (fuel : nat) (root : string) (cache : option Cache)
      (ignores : list string) (ignoreSize : Z)
      (rootEntry : Entry) (newcache : option Cache) (err : option error) :
  fst (Scan fuel root cache ignores ignoreSize) = Some (Some rootEntry, newcache, err) ->
  err = None /\
  (Entry_Kind rootEntry = EntryKind_Directory \/ Entry_Kind rootEntry = EntryKind_File).
Proof.
  rewrite Scan_eq.
  destruct (newPathIgnorer ignores) as [ig|e]; [|discriminate].
  cbv zeta. destruct (os_Stat root) as [info|e].
  2:{ destruct (os_IsNotExist e); discriminate. }
  destruct (negb (Z.land (info_Mode info) os_ModeDir =? 0)%Z).
  - destruct fuel as [|fuel]; [discriminate |]. simpl.
    destruct (filesystem_DirectoryContents _) as [names|e]; [|discriminate].
    destruct (directory_loop _ _ _ _ _ _) as [[c|e|] st]; simpl; try discriminate.
    intros Heq. inversion Heq; subst. split; [reflexivity | now left].
  - destruct (negb (Z.land (info_Mode info) os_ModeType =? 0)%Z); [discriminate |].
    destruct (file _ _ _ _) as [[e|e|] st] eqn:Ef; simpl; try discriminate.
    intros Heq. inversion Heq; subst. split; [reflexivity |]. right.
    now destruct (file_Done _ _ _ _ _ _ Ef) as (Hk & _).
Qed.

(** Failures are fatal: a scan with an event that is fatal (a stat or lstat
    that failed with anything but not-found, a directory or a link that
    could not be read, an empty link target, a file that could not be
    opened, a copy that failed or delivered another number of bytes than the
    stat size) returns an error, with no entry and no cache. *)
Theorem Scan_fatal_events (fuel : nat) (root : string) (cache : option Cache)
      (ignores : list string) (ignoreSize : Z) (ev : event) :
  In ev (snd (Scan fuel root cache ignores ignoreSize)) ->
  fatal ev = true ->
  exists err,
    fst (Scan fuel root cache ignores ignoreSize) = Some (None, None, Some err).
Proof.
  intros Hin Hf. apply Scan_fatal. apply List.Exists_exists. eauto.
Qed.

(** ** The recursion budget *)

Section MoreFuel.
Variable s : scanner.
Variables rec rec' : string -> state -> outcome Entry * state.
Hypothesis rec_more : forall path st r st',
  rec path st = (r, st') -> r <> OutOfFuel -> rec' path st = (r, st').

Lemma round_more (path name : string) (st st' : state) (r : round) :
  directory_round rec s path name st = (r, st') -> r <> Exhausted ->
  directory_round rec' s path name st = (r, st').
Proof.
  unfold directory_round.
  destruct (ignored (s_pathIgnorer s) (Join path name)); [auto |].
  destruct (os_Lstat (Join (root s) (Join path name))) as [info|err]; [|auto].
  destruct (content_kind (info_Mode info)) as [kind|]; [|auto].
  destruct (_ && _); [auto |].
  destruct kind; auto.
  destruct (rec _ _) as [o st1] eqn:Er. intros Heq Hne.
  rewrite (rec_more _ _ _ _ Er); [exact Heq |].
  intros ->. simpl in Heq. inversion Heq; subst. now elim Hne.
Qed.

Lemma loop_more (path : string) (names : list string) :
  forall contents st r st',
    directory_loop rec s path names contents st = (r, st') -> r <> OutOfFuel ->
    directory_loop rec' s path names contents st = (r, st').
Proof.
  induction names as [|name names IH]; intros contents st r st' Hl Hne; [exact Hl |].
  simpl in *.
  destruct (directory_round rec s path name st) as [rd st1] eqn:Er.
  assert (Hrd : rd <> Exhausted).
  { intros ->. inversion Hl; subst. now elim Hne. }
  rewrite (round_more _ _ _ _ _ Er Hrd).
  destruct rd; auto.
Qed.

End MoreFuel.

Lemma directory_S (s : scanner) (fuel : nat) (path : string) (st : state) :
  directory (S fuel) s path st =
  match filesystem_DirectoryContents (Join (root s) path) with
  | Err err =>
      (Failed (errors_Wrap err "unable to read directory contents"),
       log (EvReadDir (Join (root s) path)) st)
  | Ok names =>
      match directory_loop (directory fuel s) s path names ∅
              (log (EvReadDir (Join (root s) path)) st) with
      | (Done contents, st) =>
          (Done (mkEntry EntryKind_Directory false None "" contents), st)
      | (Failed err, st) => (Failed err, st)
      | (OutOfFuel, st) => (OutOfFuel, st)
      end
  end.
Proof. reflexivity. Qed.

(** A result that [scanner.directory] reaches with some fuel is the result
    with any more fuel. *)
Lemma directory_more_fuel (s : scanner) (fuel : nat) :
  forall path st r st',
    directory fuel s path st = (r, st') -> r <> OutOfFuel ->
    directory (S fuel) s path st = (r, st').
Proof.
  induction fuel as [|fuel IH]; intros path st r st' Hd Hne.
  - simpl in Hd. inversion Hd; subst. now elim Hne.
  - rewrite directory_S in Hd. rewrite directory_S.
    destruct (filesystem_DirectoryContents (Join (root s) path)) as [names|err];
      [|exact Hd].
    destruct (directory_loop (directory fuel s) s path names ∅ _) as [o st1] eqn:El.
    assert (Ho : o <> OutOfFuel).
    { intros ->. inversion Hd; subst. now elim Hne. }
    now rewrite (loop_more s (directory fuel s) (directory (S fuel) s) IH
                   path names _ _ _ _ El Ho).
Qed.

(** The recursion budget of the model does not shape the result: what
    [Scan] returns with some fuel, it returns with any larger fuel, with
    the same events. *)
Theorem Scan_more_fuel (fuel more : nat) (root : string) (cache : option Cache)
      (ignores : list string) (ignoreSize : Z) (r : returned) (events : list event) :
  Scan fuel root cache ignores ignoreSize = (Some r, events) ->
  Scan (fuel + more) root cache ignores ignoreSize = (Some r, events).
Proof.
  intros Hs. induction more as [|more IH]; [now rewrite Nat.add_0_r |].
  rewrite Nat.add_succ_r. revert IH. rewrite !Scan_eq.
  destruct (newPathIgnorer ignores) as [ig|e]; [|auto].
  cbv zeta. destruct (os_Stat root) as [info|e]; [|auto].
  destruct (negb (Z.land (info_Mode info) os_ModeDir =? 0)%Z); [|auto].
  destruct (directory (fuel + more) _ _ _) as [o st] eqn:Ed.
  intros Hf. assert (Ho : o <> OutOfFuel) by (intros ->; discriminate).
  now rewrite (directory_more_fuel _ _ _ _ _ _ Ed Ho).
Qed.

(** ** Scanning again with the cache of the last scan *)

Lemma land_uint32_ModeType (mode : Z) :
  Z.land (uint32 mode) os_ModeType = Z.land mode os_ModeType.
Proof.
  unfold uint32. rewrite <- Z.land_ones by lia. rewrite <- Z.land_assoc.
  f_equal.
Qed.

Lemma Time_Equal_refl (t : Time) : Time_Equal t t = true.
Proof. unfold Time_Equal. now rewrite !Z.eqb_refl. Qed.

Lemma entry_for_valid_hit (info : FileInfo) (digest : bytes) :
  valid_hit (entry_for info digest) info.
Proof.
  unfold valid_hit, entry_for. simpl. split; [apply land_uint32_ModeType |].
  split; [reflexivity | apply Time_Equal_refl].
Qed.

(** The entry that [scanner.file] returns, from its digest. *)
Lemma file_Done_entry (s : scanner) (path : string) (info : FileInfo) (st st' : state)
      (entry : Entry) :
  file s path info st = (Done entry, st') ->
  entry = mkEntry EntryKind_File
            (negb (Z.land (info_Mode info) AnyExecutablePermission =? 0)%Z)
            (Entry_Digest entry) "" ∅.
Proof.
  destruct (cached_digest s path info) as [d|] eqn:Ed.
  - rewrite (file_hit _ _ _ _ d Ed). intros Heq. now inversion Heq.
  - rewrite (file_miss _ _ _ _ Ed).
    destruct (hash_file s path (uint64 (info_Size info)) st) as [[d|e|] st0];
      intros Heq; now inversion Heq.
Qed.

Lemma quietly_refl (st : state) : quietly st st.
Proof. exists []. split; [now rewrite app_nil_r |]. intros [name []]. Qed.

Lemma quietly_trans (st1 st2 st3 : state) :
  quietly st1 st2 -> quietly st2 st3 -> quietly st1 st3.
Proof.
  intros (n1 & H1 & Hq1) (n2 & H2 & Hq2). exists (n1 ++ n2)%list.
  split; [now rewrite H2, H1, app_assoc |].
  intros [name Hin]. apply in_app_iff in Hin as [Hin | Hin].
  - apply Hq1. now exists name.
  - apply Hq2. now exists name.
Qed.

Lemma quietly_log (st : state) (ev : event) :
  (forall name, ev <> EvOpen name) -> quietly st (log ev st).
Proof.
  intros Hne. exists [ev]. split; [reflexivity |].
  intros [name [Hin | []]]. now elim (Hne name).
Qed.

Lemma cached_in_extends (c : Cache) (st st' : state) :
  extends st st' -> cached_in c (trace st') -> cached_in c (trace st).
Proof.
  intros [events Htr] Hc path info entry Hin. apply Hc. rewrite Htr.
  apply in_app_iff. now left.
Qed.

Section Again.
Variables s1 s2 : scanner.
Hypothesis same_root : root s2 = root s1.
Hypothesis same_ignorer : s_pathIgnorer s2 = s_pathIgnorer s1.
Hypothesis same_limit : ignoreSize s2 = ignoreSize s1.

Lemma file_again (path : string) (info : FileInfo) (st1 st1' st2 : state) (entry : Entry) :
  file s1 path info st1 = (Done entry, st1') ->
  cached_in (cache s2) (trace st1') ->
  newCache st2 = newCache st1 ->
  again (Done entry) st1' st2 (file s2 path info st2).
Proof.
  intros Ef Hc Hn.
  destruct (file_Done _ _ _ _ _ _ Ef) as (_ & Hnc & events & Htr & _).
  destruct (Hc path info entry) as [Hl Hd].
  { rewrite Htr. apply in_app_iff. right. apply in_app_iff. right. now left. }
  destruct (Entry_Digest entry) as [d|] eqn:Edg; [|congruence].
  assert (Hcd : cached_digest s2 path info = Some d).
  { apply cached_digest_Some. eexists. split; [exact Hl |].
    split; [apply entry_for_valid_hit | reflexivity]. }
  rewrite (file_hit _ _ _ _ d Hcd). split; [|split]; simpl.
  - f_equal. rewrite (file_Done_entry _ _ _ _ _ _ Ef), Edg. reflexivity.
  - now rewrite Hnc, Hn.
  - eexists. split; [reflexivity |]. intros [name [Hin | []]]. discriminate.
Qed.

Lemma symlink_again (path : string) (st1 st1' st2 : state) (o : outcome Entry) :
  symlink s1 path st1 = (o, st1') ->
  newCache st2 = newCache st1 ->
  again o st1' st2 (symlink s2 path st2).
Proof.
  rewrite !symlink_spec, same_root. intros Heq Hn. inversion Heq; subst.
  split; [reflexivity |]. split; [exact Hn |]. now apply quietly_log.
Qed.

Variables rec1 rec2 : string -> state -> outcome Entry * state.
Hypothesis rec1_extends : forall path st, extends st (snd (rec1 path st)).
Hypothesis rec_again : forall path st1 entry st1' st2,
  rec1 path st1 = (Done entry, st1') ->
  cached_in (cache s2) (trace st1') ->
  newCache st2 = newCache st1 ->
  again (Done entry) st1' st2 (rec2 path st2).

Lemma round_again (path name : string) (st1 st1' st2 : state) (r : round) :
  directory_round rec1 s1 path name st1 = (r, st1') ->
  (r = Continue \/ exists entry, r = Content entry) ->
  cached_in (cache s2) (trace st1') ->
  newCache st2 = newCache st1 ->
  again r st1' st2 (directory_round rec2 s2 path name st2).
Proof.
  unfold directory_round. rewrite same_root, same_ignorer, same_limit.
  intros Hr Hok Hc Hn.
  destruct (ignored (s_pathIgnorer s1) (Join path name)).
  { inversion Hr; subst. split; [reflexivity |]. split; [exact Hn | apply quietly_refl]. }
  set (ev := EvLstat (Join (root s1) (Join path name))) in *.
  assert (Hskip : (r, st1') = (Continue, log ev st1) ->
                  again r st1' st2 (Continue, log ev st2)).
  { intros Heq. inversion Heq; subst. split; [reflexivity |]. split; [exact Hn |].
    now apply quietly_log. }
  assert (Hdone : forall (o1 o2 : outcome Entry * state),
             round_of o1 = (r, st1') ->
             (forall entry, o1 = (Done entry, st1') ->
                again (Done entry) st1' (log ev st2) o2) ->
             again r st1' st2 (round_of o2)).
  { intros [[e1|e1|] st1a] o2 Ho1 Ho; simpl in Ho1; inversion Ho1; subst.
    - destruct (Ho _ eq_refl) as (Hv & Hnc & Hq). destruct o2 as [v2 st2a].
      simpl in *. subst v2. simpl. split; [reflexivity |]. split; [exact Hnc |].
      eapply quietly_trans; [|exact Hq]. now apply quietly_log.
    - destruct Hok as [Hok | [entry Hok]]; discriminate.
    - destruct Hok as [Hok | [entry Hok]]; discriminate. }
  destruct (os_Lstat (Join (root s1) (Join path name))) as [info|err].
  2:{ destruct (os_IsNotExist err); [now apply Hskip |].
      inversion Hr; subst. destruct Hok as [Hok | [entry Hok]]; discriminate. }
  destruct (content_kind (info_Mode info)) as [kind|]; [|now apply Hskip].
  destruct (_ && _); [now apply Hskip |].
  destruct kind.
  - apply (Hdone _ _ Hr). intros entry Ho. now apply (rec_again _ _ _ _ _ Ho).
  - apply (Hdone _ _ Hr). intros entry Ho. now apply (file_again _ _ _ _ _ _ Ho).
  - destruct symlinksSupported; [|now apply Hskip].
    apply (Hdone _ _ Hr). intros entry Ho. now apply (symlink_again _ _ _ _ _ Ho).
Qed.

Lemma loop_again (path : string) (names : list string) :
  forall contents st1 contents' st1' st2,
    directory_loop rec1 s1 path names contents st1 = (Done contents', st1') ->
    cached_in (cache s2) (trace st1') ->
    newCache st2 = newCache st1 ->
    again (Done contents') st1' st2 (directory_loop rec2 s2 path names contents st2).
Proof.
  induction names as [|name names IH]; intros contents st1 contents' st1' st2 Hl Hc Hn.
  - simpl in *. inversion Hl; subst. split; [reflexivity |].
    split; [exact Hn | apply quietly_refl].
  - simpl in *.
    destruct (directory_round rec1 s1 path name st1) as [r st1a] eqn:Er.
    assert (Hext : extends st1a st1').
    { destruct r; try discriminate.
      - pose proof (loop_extends s1 rec1 rec1_extends path names contents st1a) as He.
        now rewrite Hl in He.
      - pose proof (loop_extends s1 rec1 rec1_extends path names
                      (<[name := entry]> contents) st1a) as He.
        now rewrite Hl in He. }
    assert (Hok : r = Continue \/ exists entry, r = Content entry).
    { destruct r; try discriminate; eauto. }
    destruct (round_again _ _ _ _ _ _ Er Hok (cached_in_extends _ _ _ Hext Hc) Hn)
      as (Hv & Hnc & Hq).
    destruct (directory_round rec2 s2 path name st2) as [r2 st2a]. simpl in *. subst r2.
    destruct r as [|entry| |]; try discriminate.
    + destruct (IH _ _ _ _ _ Hl Hc Hnc) as (Hv' & Hnc' & Hq').
      split; [exact Hv' |]. split; [exact Hnc' |]. eapply quietly_trans; eauto.
    + destruct (IH _ _ _ _ _ Hl Hc Hnc) as (Hv' & Hnc' & Hq').
      split; [exact Hv' |]. split; [exact Hnc' |]. eapply quietly_trans; eauto.
Qed.

End Again.

Lemma directory_again (s1 s2 : scanner) (fuel : nat) :
  root s2 = root s1 -> s_pathIgnorer s2 = s_pathIgnorer s1 ->
  ignoreSize s2 = ignoreSize s1 ->
  forall path st1 entry st1' st2,
    directory fuel s1 path st1 = (Done entry, st1') ->
    cached_in (cache s2) (trace st1') ->
    newCache st2 = newCache st1 ->
    again (Done entry) st1' st2 (directory fuel s2 path st2).
Proof.
  intros Hroot Hig Hlim.
  induction fuel as [|fuel IH]; intros path st1 entry st1' st2 Hd Hc Hn; [discriminate |].
  rewrite directory_S in Hd. rewrite directory_S, Hroot.
  destruct (filesystem_DirectoryContents (Join (root s1) path)) as [names|err];
    [|discriminate].
  destruct (directory_loop (directory fuel s1) s1 path names ∅ _) as [[c|e|] st1a] eqn:El;
    inversion Hd; subst; clear Hd.
  destruct (loop_again s1 s2 Hroot Hig Hlim (directory fuel s1) (directory fuel s2)
              (directory_extends s1 fuel) IH path names _ _ _ _
              (log (EvReadDir (Join (root s1) path)) st2) El Hc Hn)
    as (Hv & Hnc & Hq).
  destruct (directory_loop (directory fuel s2) s2 path names ∅ _) as [o2 st2a].
  simpl in *. subst o2. split; [reflexivity |]. split; [exact Hnc |].
  eapply quietly_trans; [|exact Hq]. now apply quietly_log.
Qed.

(** Cache reuse: a scan that is given the cache returned by a scan of the
    same root on the same host, when that cache has no nil digest, returns
    the same snapshot and the same cache, and opens no file. *)
Theorem Scan_again (fuel : nat) (root : string) (cache : option Cache)
      (ignores : list string) (ignoreSize : Z)
      (snapshot : option Entry) (newcache : Cache) :
  fst (Scan fuel root cache ignores ignoreSize) = Some (snapshot, Some newcache, None) ->
  (forall key ce, Entries newcache !! key = Some ce -> Digest ce <> None) ->
  fst (Scan fuel root (Some newcache) ignores ignoreSize)
  = Some (snapshot, Some newcache, None) /\
  ~ opened (snd (Scan fuel root (Some newcache) ignores ignoreSize)).
Proof.
  intros Hs Hnn.
  assert (Hc : cached_in newcache (snd (Scan fuel root cache ignores ignoreSize))).
  { destruct (Scan_files_and_keys _ _ _ _ _ _ _ _ Hs) as [Hf _].
    intros path info entry Hin. destruct (Hf _ _ _ Hin) as (_ & _ & Hl).
    split; [exact Hl |]. apply (Hnn _ _ Hl). }
  revert Hs Hc. rewrite !Scan_eq.
  destruct (newPathIgnorer ignores) as [ig|e]; [|discriminate].
  cbv zeta. destruct (os_Stat root) as [info|e].
  2:{ destruct (os_IsNotExist e); [|discriminate]. simpl. intros Heq _.
      inversion Heq; subst. split; [reflexivity |]. intros [name [Hin | []]].
      discriminate. }
  assert (Hfin : forall (o1 o2 : outcome Entry * state) entry,
             o1 = (Done entry, snd o1) ->
             again (Done entry) (snd o1) (start root) o2 ->
             fst (finish o1) = Some (snapshot, Some newcache, None) ->
             fst (finish o2) = Some (snapshot, Some newcache, None) /\
             ~ opened (snd (finish o2))).
  { intros [v1 st1] [v2 st2] entry Ho1 (Hv & Hnc & new & Htr & Hq) Hf.
    simpl in *. inversion Ho1; subst. simpl in *. rewrite Hnc. split; [exact Hf |].
    rewrite Htr. simpl. intros [name [Hin | Hin]]; [discriminate |].
    apply Hq. now exists name. }
  destruct (negb (Z.land (info_Mode info) os_ModeDir =? 0)%Z).
  - destruct (directory fuel (scanner_of root cache ig ignoreSize) "" (start root))
      as [[e|e|] st1] eqn:Ed; simpl; try discriminate.
    intros Hf Hc. apply (Hfin (Done e, st1) _ e eq_refl); [|exact Hf].
    now apply (directory_again (scanner_of root cache ig ignoreSize)
                 (scanner_of root (Some newcache) ig ignoreSize) fuel
                 eq_refl eq_refl eq_refl "" _ _ _ _ Ed).
  - destruct (negb (Z.land (info_Mode info) os_ModeType =? 0)%Z); [discriminate |].
    destruct (file (scanner_of root cache ig ignoreSize) "" info (start root))
      as [[e|e|] st1] eqn:Ef; simpl; try discriminate.
    intros Hf Hc. apply (Hfin (Done e, st1) _ e eq_refl); [|exact Hf].
    now apply (file_again (scanner_of root cache ig ignoreSize)
                 (scanner_of root (Some newcache) ig ignoreSize) "" info _ _ _ _ Ef).
Qed.

(** ** What a scan makes of a tree *)

Lemma file_Done_shape (s : scanner) (path : string) (info : FileInfo) (st st' : state)
      (entry : Entry) :
  file s path info st = (Done entry, st') ->
  scanned s path entry.
Proof.
  intros Ef. rewrite (file_Done_entry _ _ _ _ _ _ Ef). constructor.
Qed.

Section Scanned.
Variable s : scanner.
Variable rec : string -> state -> outcome Entry * state.
Hypothesis rec_scanned : forall path st entry st',
  rec path st = (Done entry, st') ->
  Entry_Kind entry = EntryKind_Directory /\ scanned s path entry.

Lemma round_Continue (path name : string) (st st' : state) :
  directory_round rec s path name st = (Continue, st') ->
  included s (Join path name) = false.
Proof.
  unfold directory_round, included.
  destruct (ignored (s_pathIgnorer s) (Join path name)); [reflexivity |].
  destruct (os_Lstat (Join (root s) (Join path name))) as [info|err]; [|reflexivity].
  destruct (content_kind (info_Mode info)) as [kind|]; [|reflexivity].
  destruct kind; simpl.
  - rewrite andb_false_r. simpl. intros H. exfalso.
    destruct (rec _ _) as [[?|?|] ?]; discriminate.
  - rewrite andb_true_r. fold (size_filtered s info).
    destruct (size_filtered s info); [reflexivity |]. intros H. exfalso.
    destruct (file _ _ _ _) as [[?|?|] ?]; discriminate.
  - rewrite andb_false_r. simpl. destruct symlinksSupported; [|reflexivity].
    intros H. exfalso. destruct (symlink _ _ _) as [[?|?|] ?]; discriminate.
Qed.

Lemma round_Content (path name : string) (st st' : state) (entry : Entry) :
  directory_round rec s path name st = (Content entry, st') ->
  included s (Join path name) = true /\
  taken s (Join path name) entry /\
  scanned s (Join path name) entry.
Proof.
  unfold directory_round, included, taken.
  destruct (ignored (s_pathIgnorer s) (Join path name)); [discriminate |].
  destruct (os_Lstat (Join (root s) (Join path name))) as [info|err].
  2:{ destruct (os_IsNotExist err); discriminate. }
  destruct (content_kind (info_Mode info)) as [kind|] eqn:Ek; [|discriminate].
  destruct kind; simpl.
  - rewrite andb_false_r. simpl.
    destruct (rec _ _) as [[e|e|] st1] eqn:Er; simpl; intros Heq; inversion Heq; subst.
    destruct (rec_scanned _ _ _ _ Er) as [Hk Hs].
    split; [reflexivity |]. split; [|exact Hs]. split; [reflexivity |].
    exists info. rewrite Hk. split; [reflexivity |]. split; [exact Ek |]. discriminate.
  - rewrite andb_true_r. fold (size_filtered s info).
    destruct (size_filtered s info) eqn:Ef; [discriminate |].
    destruct (file _ _ _ _) as [[e|e|] st1] eqn:Er; simpl; intros Heq; inversion Heq; subst.
    pose proof (file_fst s (Join path name) info
                  (log (EvLstat (Join (root s) (Join path name))) st)) as Hv.
    rewrite Er in Hv. simpl in Hv.
    destruct (file_Done _ _ _ _ _ _ Er) as (Hk & _).
    split; [reflexivity |]. split; [|now apply file_Done_shape in Er].
    split; [reflexivity |]. exists info. rewrite Hk. auto.
  - rewrite andb_false_r. simpl. destruct symlinksSupported eqn:Ey; [|discriminate].
    rewrite symlink_spec.
    destruct (os_Readlink (Join (root s) (Join path name))) as [target|err] eqn:Erl;
      [|discriminate].
    destruct (String.eqb target "") eqn:Et; [discriminate |].
    simpl. intros Heq. inversion Heq; subst.
    apply String.eqb_neq in Et.
    split; [reflexivity |]. split.
    + split; [reflexivity |]. exists info. split; [reflexivity |]. split; [exact Ek |].
      discriminate.
    + now constructor.
Qed.

Lemma loop_scanned (path : string) (names : list string) :
  forall contents st contents' st',
    directory_loop rec s path names contents st = (Done contents', st') ->
    (forall name child, contents !! name = Some child ->
                        taken s (Join path name) child /\
                        scanned s (Join path name) child) ->
    (forall name, is_Some (contents' !! name) <->
                  is_Some (contents !! name) \/
                  (In name names /\ included s (Join path name) = true)) /\
    (forall name child, contents' !! name = Some child ->
                        taken s (Join path name) child /\
                        scanned s (Join path name) child).
Proof.
  induction names as [|name0 names IH]; intros contents st contents' st' Hl Hc.
  - simpl in Hl. inversion Hl; subst. split; [|exact Hc].
    intros name. split; [now left | now intros [? | [[] _]]].
  - simpl in Hl.
    destruct (directory_round rec s path name0 st) as [[|entry|err|] st1] eqn:Er;
      try discriminate.
    + apply round_Continue in Er. destruct (IH _ _ _ _ Hl Hc) as [Hkeys Hall].
      split; [|exact Hall]. intros name. rewrite Hkeys. simpl. split.
      * intros [? | [? ?]]; auto.
      * intros [? | [[<- | ?] Hi]]; auto. congruence.
    + apply round_Content in Er as (Hi & Ht & Hs).
      destruct (IH _ _ _ _ Hl) as [Hkeys Hall].
      { intros name child Hn. destruct (decide (name0 = name)) as [<- | Hne].
        - rewrite lookup_insert_eq in Hn. inversion Hn; subst child. now split.
        - rewrite lookup_insert_ne in Hn by assumption. now apply Hc. }
      split; [|exact Hall]. intros name. rewrite Hkeys. simpl.
      destruct (decide (name0 = name)) as [<- | Hne].
      * rewrite lookup_insert_eq. split; [intros _ | intros _; left; eauto].
        right. auto.
      * rewrite lookup_insert_ne by assumption. split.
        -- intros [? | [? ?]]; auto.
        -- intros [? | [[? | ?] ?]]; auto. congruence.
Qed.

End Scanned.

Lemma directory_scanned (s : scanner) (fuel : nat) :
  forall path st entry st',
    directory fuel s path st = (Done entry, st') ->
    Entry_Kind entry = EntryKind_Directory /\ scanned s path entry.
Proof.
  induction fuel as [|fuel IH]; intros path st entry st' Hd; [discriminate |].
  rewrite directory_S in Hd.
  destruct (filesystem_DirectoryContents (Join (root s) path)) as [listed|err] eqn:El;
    [|discriminate].
  destruct (directory_loop _ s path listed ∅ _) as [[c|e|] st1] eqn:Ed;
    inversion Hd; subst; clear Hd.
  split; [reflexivity |].
  destruct (loop_scanned s (directory fuel s) IH path listed _ _ _ _ Ed) as [Hkeys Hall].
  { intros name child Hn. rewrite lookup_empty in Hn. discriminate. }
  apply (scanned_directory s path listed c El).
  - intros name. rewrite Hkeys. rewrite lookup_empty. split.
    + intros [[x Hx] | ?]; [discriminate | assumption].
    + now right.
  - intros name child Hn. now apply Hall.
  - intros name child Hn. now apply Hall.
Qed.

(** Going down a scanned entry. *)
Lemma scanned_lookup (s : scanner) (names : list string) :
  forall path e e',
    scanned s path e -> lookup_path e names = Some e' ->
    scanned s (joins path names) e' /\
    (names <> [] -> taken s (joins path names) e').
Proof.
  induction names as [|name names IH]; intros path e e' Hs Hl.
  - simpl in Hl. inversion Hl; subst. split; [exact Hs | congruence].
  - simpl in Hl. destruct (Entry_Contents e !! name) as [child|] eqn:Hc; [|discriminate].
    rewrite joins_cons.
    inversion Hs; subst; simpl in Hc; try (rewrite lookup_empty in Hc; discriminate).
    pose proof (H1 _ _ Hc) as Ht. pose proof (H2 _ _ Hc) as Hsc.
    destruct (IH _ _ _ Hsc Hl) as [Hs' Ht']. split; [exact Hs' |].
    intros _. destruct names as [|n names]; [|apply Ht'; discriminate].
    simpl in Hl. inversion Hl; subst. exact Ht.
Qed.

(** The snapshot of a scan is what a scan makes of the root; a file at the
    root is the value of [scanner.file] for the stat of the root. *)
Lemma Scan_scanned (fuel : nat) (root : string) (cache : option Cache)
      (ignores : list string) (ignoreSize : Z) (ig : pathIgnorer)
      (rootEntry : Entry) (newcache : option Cache) (err : option error) :
  newPathIgnorer ignores = Ok ig ->
  fst (Scan fuel root cache ignores ignoreSize) = Some (Some rootEntry, newcache, err) ->
  let s := scanner_of root cache ig ignoreSize in
  scanned s "" rootEntry /\
  Entry_Kind rootEntry <> EntryKind_Symlink /\
  (Entry_Kind rootEntry = EntryKind_File ->
   exists info, os_Stat root = Ok info /\ regular info /\
                file_value s "" info = Done rootEntry).
Proof.
  intros Hig. rewrite Scan_eq, Hig. cbv zeta.
  destruct (os_Stat root) as [info|e].
  2:{ destruct (os_IsNotExist e); discriminate. }
  destruct (negb (Z.land (info_Mode info) os_ModeDir =? 0)%Z).
  - destruct (directory _ _ _ _) as [[e|e|] st] eqn:Ed; simpl; try discriminate.
    intros Heq. inversion Heq; subst.
    apply directory_scanned in Ed as [Hk Hs]. split; [exact Hs |].
    split; congruence.
  - destruct (negb (Z.land (info_Mode info) os_ModeType =? 0)%Z) eqn:Et; [discriminate |].
    destruct (file _ _ _ _) as [[e|e|] st] eqn:Ef; simpl; try discriminate.
    intros Heq. inversion Heq; subst. split; [now apply file_Done_shape in Ef |].
    split.
    { destruct (file_Done _ _ _ _ _ _ Ef) as (Hk & _). congruence. }
    intros _. exists info. split; [reflexivity |]. split.
    + apply negb_false_iff in Et. now apply Z.eqb_eq in Et.
    + rewrite <- file_fst with (st := start root). now rewrite Ef.
Qed.


Lemma taken_included (s : scanner) (path : string) (e : Entry) :
  taken s path e -> scanned s path e -> included s path = true.
Proof.
  intros (Hi & info & Hl & Hk & Hf) Hs. unfold included. rewrite Hi, Hl, Hk. simpl.
  inversion Hs; subst; simpl in *; auto.
  destruct (Hf eq_refl) as [-> _]. reflexivity.
Qed.

Lemma lookup_path_app (names below : list string) :
  forall e e', lookup_path e (names ++ below) = Some e' ->
               exists e1, lookup_path e names = Some e1 /\ lookup_path e1 below = Some e'.
Proof.
  induction names as [|name names IH]; intros e e' Hl; simpl in *; [eauto |].
  destruct (Entry_Contents e !! name) as [child|]; [|discriminate]. now apply IH.
Qed.

(** What [scanner.file] puts into the entry it returns. *)
Lemma file_value_Done (s : scanner) (path : string) (info : FileInfo) (entry : Entry) :
  file_value s path info = Done entry ->
  Entry_Executable entry = negb (Z.land (info_Mode info) AnyExecutablePermission =? 0)%Z /\
  (forall d, cached_digest s path info = Some d -> Entry_Digest entry = Some d) /\
  (cached_digest s path info = None ->
   exists f, os_Open (Join (root s) path) = Ok f /\ read_error f = None /\
             uint64 (copied_of f) = uint64 (info_Size info) /\
             Entry_Digest entry = digest_of f).
Proof.
  unfold file_value. destruct (cached_digest s path info) as [d|] eqn:Ed.
  - rewrite (file_hit _ _ _ _ d Ed). simpl. intros Heq. inversion Heq; subst. simpl.
    split; [reflexivity |]. split; [|discriminate]. intros d' Hd. now inversion Hd.
  - rewrite (file_miss _ _ _ _ Ed), hash_file_spec.
    destruct (os_Open (Join (root s) path)) as [f|err]; [|discriminate].
    destruct (read_error f) eqn:Er; [discriminate |].
    destruct (uint64 (copied_of f) =? uint64 (info_Size info))%Z eqn:Ec; [|discriminate].
    simpl. intros Heq. inversion Heq; subst. simpl.
    split; [reflexivity |]. split; [discriminate |]. intros _.
    exists f. apply Z.eqb_eq in Ec. auto.
Qed.

(** ** The snapshot, entry by entry *)

(** The contents of every directory entry of the snapshot are exactly the
    listed names of that directory that the loop takes in: not ignored,
    with an lstat that succeeds and shows a directory, a symbolic link (on
    a platform that supports them) or a regular file under the size
    limit. *)
Theorem Scan_directory_contents (fuel : nat) (root : string) (cache : option Cache)
      (ignores : list string) (ignoreSize : Z) (ig : pathIgnorer)
      (rootEntry : Entry) (newcache : option Cache) (err : option error)
      (names : list string) (entry : Entry) :
  newPathIgnorer ignores = Ok ig ->
  fst (Scan fuel root cache ignores ignoreSize) = Some (Some rootEntry, newcache, err) ->
  lookup_path rootEntry names = Some entry ->
  Entry_Kind entry = EntryKind_Directory ->
  exists listed,
    filesystem_DirectoryContents (Join root (joins "" names)) = Ok listed /\
    forall name,
      is_Some (Entry_Contents entry !! name) <->
      In name listed /\
      included (scanner_of root cache ig ignoreSize) (Join (joins "" names) name) = true.
Proof.
  intros Hig Hs Hl Hk.
  destruct (Scan_scanned _ _ _ _ _ _ _ _ _ Hig Hs) as (Hsc & _ & _).
  destruct (scanned_lookup _ _ _ _ _ Hsc Hl) as [Hn _].
  inversion Hn; subst; try discriminate. simpl in *. eauto.
Qed.

(** Every entry below the root of the snapshot is at a path that is not
    ignored and has the kind that the lstat of that path shows: a
    directory for the directory bit, a link for the link bit, a file for
    no type bit at all, and then of a size under the limit. *)
Theorem Scan_entry_kinds (fuel : nat) (root : string) (cache : option Cache)
      (ignores : list string) (ignoreSize : Z) (ig : pathIgnorer)
      (rootEntry : Entry) (newcache : option Cache) (err : option error)
      (names : list string) (entry : Entry) :
  newPathIgnorer ignores = Ok ig ->
  fst (Scan fuel root cache ignores ignoreSize) = Some (Some rootEntry, newcache, err) ->
  names <> [] ->
  lookup_path rootEntry names = Some entry ->
  ignored ig (joins "" names) = false /\
  exists info,
    os_Lstat (Join root (joins "" names)) = Ok info /\
    content_kind (info_Mode info) = Some (Entry_Kind entry) /\
    (Entry_Kind entry = EntryKind_File ->
     ~ (0 < ignoreSize /\ ignoreSize <= uint64 (info_Size info))%Z).
Proof.
  intros Hig Hs Hne Hl.
  destruct (Scan_scanned _ _ _ _ _ _ _ _ _ Hig Hs) as (Hsc & _ & _).
  destruct (scanned_lookup _ _ _ _ _ Hsc Hl) as [_ Ht].
  destruct (Ht Hne) as (Hi & info & Hls & Hk & Hf).
  split; [exact Hi |]. exists info. split; [exact Hls |]. split; [exact Hk |].
  intros Hfile [H0 Hle]. destruct (Hf Hfile) as [Hsz _].
  unfold size_filtered in Hsz. simpl in Hsz.
  apply Z.ltb_lt in H0. apply Z.leb_le in Hle. rewrite H0, Hle in Hsz. discriminate.
Qed.

(** A path that the loop does not take in has no entry in the snapshot,
    and neither has any path below it: nothing is reported at or under an
    ignored path, a path whose lstat fails or shows a device, a socket or
    a pipe, a file at or over the size limit, or a link on a platform
    without links. *)
Theorem Scan_left_out (fuel : nat) (root : string) (cache : option Cache)
      (ignores : list string) (ignoreSize : Z) (ig : pathIgnorer)
      (rootEntry : Entry) (newcache : option Cache) (err : option error)
      (names below : list string) :
  newPathIgnorer ignores = Ok ig ->
  fst (Scan fuel root cache ignores ignoreSize) = Some (Some rootEntry, newcache, err) ->
  names <> [] ->
  included (scanner_of root cache ig ignoreSize) (joins "" names) = false ->
  lookup_path rootEntry (names ++ below) = None.
Proof.
  intros Hig Hs Hne Hout.
  destruct (lookup_path rootEntry (names ++ below)) as [e|] eqn:Hl; [|reflexivity].
  exfalso. apply lookup_path_app in Hl as (e1 & Hl1 & _).
  destruct (Scan_scanned _ _ _ _ _ _ _ _ _ Hig Hs) as (Hsc & _ & _).
  destruct (scanned_lookup _ _ _ _ _ Hsc Hl1) as [Hn Ht].
  rewrite (taken_included _ _ _ (Ht Hne) Hn) in Hout. discriminate.
Qed.

(** Every entry of the snapshot is well formed for its kind: a directory
    has no digest, no target and is not executable; a file has no target
    and no contents; a link has a target that is not empty and nothing
    else. *)
Theorem Scan_well_formed (fuel : nat) (root : string) (cache : option Cache)
      (ignores : list string) (ignoreSize : Z)
      (rootEntry : Entry) (newcache : option Cache) (err : option error)
      (names : list string) (entry : Entry) :
  fst (Scan fuel root cache ignores ignoreSize) = Some (Some rootEntry, newcache, err) ->
  lookup_path rootEntry names = Some entry ->
  match Entry_Kind entry with
  | EntryKind_Directory =>
      Entry_Executable entry = false /\ Entry_Digest entry = None /\
      Entry_Target entry = ""
  | EntryKind_File =>
      Entry_Target entry = "" /\ Entry_Contents entry = ∅
  | EntryKind_Symlink =>
      Entry_Executable entry = false /\ Entry_Digest entry = None /\
      Entry_Target entry <> "" /\ Entry_Contents entry = ∅
  end.
Proof.
  intros Hs Hl.
  destruct (newPathIgnorer ignores) as [ig|e] eqn:Hig.
  2:{ rewrite Scan_eq, Hig in Hs. discriminate. }
  destruct (Scan_scanned _ _ _ _ _ _ _ _ _ Hig Hs) as (Hsc & _ & _).
  destruct (scanned_lookup _ _ _ _ _ Hsc Hl) as [Hn _].
  inversion Hn; subst; simpl; auto.
Qed.

(** A link entry of the snapshot carries the target that readlink returns
    for its path, and there are link entries only on a platform that
    supports symbolic links. *)
Theorem Scan_symlink_entries (fuel : nat) (root : string) (cache : option Cache)
      (ignores : list string) (ignoreSize : Z)
      (rootEntry : Entry) (newcache : option Cache) (err : option error)
      (names : list string) (entry : Entry) :
  fst (Scan fuel root cache ignores ignoreSize) = Some (Some rootEntry, newcache, err) ->
  lookup_path rootEntry names = Some entry ->
  Entry_Kind entry = EntryKind_Symlink ->
  symlinksSupported = true /\
  names <> [] /\
  os_Readlink (Join root (joins "" names)) = Ok (Entry_Target entry) /\
  exists info,
    os_Lstat (Join root (joins "" names)) = Ok info /\
    Z.land (info_Mode info) os_ModeSymlink <> 0%Z.
Proof.
  intros Hs Hl Hk.
  destruct (newPathIgnorer ignores) as [ig|e] eqn:Hig.
  2:{ rewrite Scan_eq, Hig in Hs. discriminate. }
  destruct (Scan_scanned _ _ _ _ _ _ _ _ _ Hig Hs) as (Hsc & Hnl & _).
  assert (Hne : names <> []).
  { intros ->. simpl in Hl. inversion Hl; subst. contradiction. }
  destruct (scanned_lookup _ _ _ _ _ Hsc Hl) as [Hn Ht].
  destruct (Ht Hne) as (_ & info & Hls & Hck & _).
  inversion Hn; subst; try discriminate. simpl in *.
  split; [assumption |]. split; [exact Hne |]. split; [assumption |].
  exists info. split; [exact Hls |].
  unfold content_kind in Hck.
  destruct (Z.land (info_Mode info) os_ModeDir =? 0)%Z; [|discriminate]. simpl in Hck.
  destruct (Z.land (info_Mode info) os_ModeSymlink =? 0)%Z eqn:E.
  - simpl in Hck. destruct (negb _); discriminate.
  - now apply Z.eqb_neq in E.
Qed.

(** Every file entry of the snapshot carries the executable bit of its
    stat (the lstat of its path, the stat of the root for a file at the
    root) and a digest that is the digest of a valid hit of the input cache
    or, without one, the hash of the bytes read from the file, which are
    as many as the stat size says. *)
Theorem Scan_file_entries (fuel : nat) (root : string) (cache : option Cache)
      (ignores : list string) (ignoreSize : Z) (ig : pathIgnorer)
      (rootEntry : Entry) (newcache : option Cache) (err : option error)
      (names : list string) (entry : Entry) :
  newPathIgnorer ignores = Ok ig ->
  fst (Scan fuel root cache ignores ignoreSize) = Some (Some rootEntry, newcache, err) ->
  lookup_path rootEntry names = Some entry ->
  Entry_Kind entry = EntryKind_File ->
  let s := scanner_of root cache ig ignoreSize in
  let path := joins "" names in
  exists info,
    match names with
    | [] => os_Stat root = Ok info
    | _ => os_Lstat (Join root path) = Ok info
    end /\
    regular info /\
    Entry_Executable entry
    = negb (Z.land (info_Mode info) AnyExecutablePermission =? 0)%Z /\
    (forall cached d,
        Entries (Sync.cache s) !! path = Some cached -> valid_hit cached info ->
        Digest cached = Some d -> Entry_Digest entry = Some d) /\
    (~ usable_hit s path info ->
     exists f, os_Open (Join root path) = Ok f /\ read_error f = None /\
               uint64 (copied_of f) = uint64 (info_Size info) /\
               Entry_Digest entry = digest_of f).
Proof.
  intros Hig Hs Hl Hk s path.
  destruct (Scan_scanned _ _ _ _ _ _ _ _ _ Hig Hs) as (Hsc & _ & Hroot).
  assert (Hv : exists info,
             match names with
             | [] => os_Stat root = Ok info
             | _ => os_Lstat (Join root path) = Ok info
             end /\
             regular info /\ file_value s path info = Done entry).
  { destruct names as [|name names].
    - simpl in Hl. inversion Hl; subst. destruct (Hroot Hk) as (info & ? & ? & ?).
      exists info. auto.
    - destruct (scanned_lookup _ _ _ _ _ Hsc Hl) as [_ Ht].
      destruct (Ht ltac:(discriminate)) as (_ & info & Hls & Hck & Hf).
      destruct (Hf Hk) as [_ Hval]. exists info. split; [exact Hls |].
      split; [|exact Hval]. apply regular_kind. now rewrite Hck, Hk. }
  destruct Hv as (info & Hst & Hreg & Hval). exists info.
  split; [exact Hst |]. split; [exact Hreg |].
  destruct (file_value_Done _ _ _ _ Hval) as (Hx & Hhit & Hmiss).
  split; [exact Hx |]. split.
  - intros cached d Hc Hvh Hd. apply Hhit. apply cached_digest_Some. eauto.
  - intros Hnu. apply not_usable_hit in Hnu. apply (Hmiss Hnu).
Qed.

(** ** The size filter and the snapshot *)

Lemma joins_snoc (path name : string) (names : list string) :
  joins path (names ++ [name]) = Join (joins path names) name.
Proof. unfold joins. now rewrite fold_left_app. Qed.

Lemma lookup_path_snoc (names : list string) (name : string) :
  forall e dir child,
    lookup_path e names = Some dir -> Entry_Contents dir !! name = Some child ->
    lookup_path e (names ++ [name]) = Some child.
Proof.
  induction names as [|n names IH]; intros e dir child Hl Hc; simpl in *.
  - inversion Hl; subst. now rewrite Hc.
  - destruct (Entry_Contents e !! n) as [e1|]; [|discriminate]. eauto.
Qed.

(** A snapshot whose root is a directory entry comes from a root that
    [os.Stat] showed as a directory. *)
Lemma Scan_directory_root (fuel : nat) (root : string) (cache : option Cache)
      (ignores : list string) (ignoreSize : Z)
      (rootEntry : Entry) (newcache : option Cache) (err : option error) :
  fst (Scan fuel root cache ignores ignoreSize) = Some (Some rootEntry, newcache, err) ->
  Entry_Kind rootEntry = EntryKind_Directory ->
  exists rootinfo, os_Stat root = Ok rootinfo /\
                   Z.land (info_Mode rootinfo) os_ModeDir <> 0%Z.
Proof.
  rewrite Scan_eq.
  destruct (newPathIgnorer ignores) as [ig|e]; [|discriminate].
  cbv zeta. destruct (os_Stat root) as [info|e].
  2:{ destruct (os_IsNotExist e); discriminate. }
  destruct (Z.land (info_Mode info) os_ModeDir =? 0)%Z eqn:Ed.
  - simpl. destruct (negb (Z.land (info_Mode info) os_ModeType =? 0)%Z); [discriminate |].
    destruct (file _ _ _ _) as [[e|e|] st] eqn:Ef; simpl; try discriminate.
    intros Heq Hk. inversion Heq; subst.
    destruct (file_Done _ _ _ _ _ _ Ef) as (Hkf & _). congruence.
  - intros _ _. exists info. split; [reflexivity |]. now apply Z.eqb_neq in Ed.
Qed.

(** The entry above a directory entry of the snapshot is a directory
    entry, up to the root. *)
Lemma scanned_root_directory (s : scanner) (names : list string) :
  forall path e dir,
    scanned s path e -> lookup_path e names = Some dir ->
    Entry_Kind dir = EntryKind_Directory -> Entry_Kind e = EntryKind_Directory.
Proof.
  destruct names as [|name names]; intros path e dir Hs Hl Hk; simpl in Hl.
  - now inversion Hl; subst.
  - destruct (Entry_Contents e !! name) as [child|] eqn:Hc; [|discriminate].
    inversion Hs; subst; simpl in Hc; try (rewrite lookup_empty in Hc; discriminate).
    reflexivity.
Qed.

(** C6: in the snapshot and the cache that a scan returns, take a
    directory entry, a name that the listing of that directory holds, not
    ignored, and the lstat of that child.  If the child is a regular file,
    it is missing from the contents of the directory entry if and only if
    the size limit is positive and the size of the child is at or over it,
    and its path is missing from the returned cache under the very same
    condition; a child that is not filtered is there as a file entry, with
    the cache entry of its stat and digest; with a limit of 0 it is always
    there.  A child that is a directory is there as a directory entry, and
    one that is a symbolic link as a link entry (where links are
    supported), whatever their sizes and the limit. *)
Theorem size_filter (fuel : nat) (root : string) (cache : option Cache)
      (ignores : list string) (ignoreSize : Z) (ig : pathIgnorer)
      (rootEntry : Entry) (newcache : Cache) (err : option error)
      (names listed : list string) (dir : Entry) (name : string) (info : FileInfo) :
  newPathIgnorer ignores = Ok ig ->
  fst (Scan fuel root cache ignores ignoreSize)
  = Some (Some rootEntry, Some newcache, err) ->
  lookup_path rootEntry names = Some dir ->
  Entry_Kind dir = EntryKind_Directory ->
  filesystem_DirectoryContents (Join root (joins "" names)) = Ok listed ->
  In name listed ->
  let child := Join (joins "" names) name in
  let filtered := (0 < ignoreSize /\ ignoreSize <= uint64 (info_Size info))%Z in
  ignored ig child = false ->
  os_Lstat (Join root child) = Ok info ->
  (regular info ->
   (Entry_Contents dir !! name = None <-> filtered) /\
   (Entries newcache !! child = None <-> filtered) /\
   (~ filtered ->
    exists entry,
      Entry_Contents dir !! name = Some entry /\
      Entry_Kind entry = EntryKind_File /\
      Entries newcache !! child = Some (entry_for info (Entry_Digest entry))) /\
   (ignoreSize = 0%Z ->
    is_Some (Entry_Contents dir !! name) /\ is_Some (Entries newcache !! child))) /\
  (content_kind (info_Mode info) = Some EntryKind_Directory ->
   exists entry, Entry_Contents dir !! name = Some entry /\
                 Entry_Kind entry = EntryKind_Directory) /\
  (content_kind (info_Mode info) = Some EntryKind_Symlink ->
   symlinksSupported = true ->
   exists entry, Entry_Contents dir !! name = Some entry /\
                 Entry_Kind entry = EntryKind_Symlink).
Proof.
  intros Hig Hs Hl Hk Hlist Hin child filtered Hi Hls.
  set (s := scanner_of root cache ig ignoreSize).
  destruct (Scan_scanned _ _ _ _ _ _ _ _ _ Hig Hs) as (Hsc & _ & _). fold s in Hsc.
  pose proof (scanned_root_directory _ _ _ _ _ Hsc Hl Hk) as Hrk.
  destruct (Scan_directory_root _ _ _ _ _ _ _ _ Hs Hrk) as (rootinfo & Hst & Hdir).
  destruct (Scan_files_and_keys _ _ _ _ _ _ _ _ Hs) as [Hfiles Hkeys].
  destruct (scanned_lookup _ _ _ _ _ Hsc Hl) as [Hn _].
  inversion Hn as [| |p listed' contents Hlist' Hcont Htaken Hbelow Hp He];
    subst; try discriminate.
  simpl in Hlist'. rewrite Hlist in Hlist'. inversion Hlist'; subst listed'. simpl.
  (* membership in the contents, by the kind of the child *)
  assert (Hinc : included s child = true ->
                 exists entry, contents !! name = Some entry /\
                               content_kind (info_Mode info) = Some (Entry_Kind entry) /\
                               (Entry_Kind entry = EntryKind_File ->
                                file_value s child info = Done entry)).
  { intros Hyes. destruct (proj2 (Hcont name) (conj Hin Hyes)) as [entry Hc].
    exists entry. split; [exact Hc |].
    destruct (Htaken _ _ Hc) as (_ & info' & Hls' & Hck & Hf).
    fold child in Hls', Hf. simpl in Hls'. rewrite Hls in Hls'.
    inversion Hls'; subst info'. split; [exact Hck |].
    intros Hkf. now destruct (Hf Hkf). }
  assert (Hout : included s child = false -> contents !! name = None).
  { intros Hno. destruct (contents !! name) as [entry|] eqn:Hc; [|reflexivity].
    destruct (proj1 (Hcont name) (ex_intro _ entry Hc)) as [_ Hyes].
    fold child in Hyes. congruence. }
  assert (Hincl : included s child
                  = match content_kind (info_Mode info) with
                    | None => false
                    | Some EntryKind_Directory => true
                    | Some EntryKind_File => negb (size_filtered s info)
                    | Some EntryKind_Symlink => symlinksSupported
                    end).
  { unfold included. simpl. now rewrite Hi, Hls. }
  assert (Hsz : size_filtered s info = true <-> filtered).
  { unfold size_filtered, filtered. simpl.
    rewrite andb_true_iff, Z.ltb_lt, Z.leb_le. reflexivity. }
  split; [|split].
  - intros Hr. apply regular_kind in Hr. rewrite Hr in Hincl.
    assert (Hthere : ~ filtered ->
              exists entry,
                contents !! name = Some entry /\ Entry_Kind entry = EntryKind_File /\
                Entries newcache !! child
                = Some (entry_for info (Entry_Digest entry))).
    { intros Hnf. destruct (size_filtered s info) eqn:E.
      { elim Hnf. now apply Hsz. }
      destruct (Hinc Hincl) as (entry & Hc & Hck & _). exists entry.
      assert (Hkf : Entry_Kind entry = EntryKind_File) by congruence.
      split; [exact Hc |]. split; [exact Hkf |].
      pose proof (lookup_path_snoc _ _ _ _ _ Hl Hc) as Hl'.
      destruct (Scan_reported _ _ _ _ _ _ _ _ Hs _ _ Hl' Hkf) as [info' Hev].
      rewrite joins_snoc in Hev. fold child in Hev.
      destruct (Scan_directory_files _ _ _ _ _ _ _ _ _ _ _ _ _ Hs Hig Hst Hdir Hev)
        as (_ & Hls' & _).
      rewrite Hls in Hls'. inversion Hls'; subst info'.
      now destruct (Hfiles _ _ _ Hev) as (_ & _ & Hce). }
    assert (Hgone : filtered ->
              contents !! name = None /\ Entries newcache !! child = None).
    { intros Hf. pose proof (proj2 Hsz Hf) as E. rewrite E in Hincl. split.
      - now apply Hout.
      - destruct (Entries newcache !! child) as [ce|] eqn:Hce; [|reflexivity].
        destruct (Hkeys _ _ Hce) as (info' & entry & Hev & _).
        destruct (Scan_directory_files _ _ _ _ _ _ _ _ _ _ _ _ _ Hs Hig Hst Hdir Hev)
          as (_ & Hls' & _ & Hnf).
        rewrite Hls in Hls'. inversion Hls'; subst info'. now elim Hnf. }
    assert (Hdec : filtered \/ ~ filtered).
    { destruct (size_filtered s info) eqn:E; [left; now apply Hsz |].
      right. intros Hf. apply Hsz in Hf. congruence. }
    split; [|split; [|split]].
    + split; [|now intros Hf; apply Hgone].
      intros Hnone. destruct Hdec as [Hf | Hnf]; [exact Hf |].
      destruct (Hthere Hnf) as (entry & Hc & _). congruence.
    + split; [|now intros Hf; apply Hgone].
      intros Hnone. destruct Hdec as [Hf | Hnf]; [exact Hf |].
      destruct (Hthere Hnf) as (entry & _ & _ & Hce). congruence.
    + exact Hthere.
    + intros H0. assert (Hnf : ~ filtered) by (unfold filtered; lia).
      destruct (Hthere Hnf) as (entry & Hc & _ & Hce). split; eauto.
  - intros Hkd. rewrite Hkd in Hincl.
    destruct (Hinc Hincl) as (entry & Hc & Hck & _). exists entry.
    split; [exact Hc | congruence].
  - intros Hkl Hsup. rewrite Hkl, Hsup in Hincl.
    destruct (Hinc Hincl) as (entry & Hc & Hck & _). exists entry.
    split; [exact Hc | congruence].
Qed.

(** ** A proof rule that knows the paths *)

Section RuleAt.
Variable s : scanner.
Variables P F : state -> Prop.
Variable D : string -> Prop.

Hypothesis at_readdir : forall path st,
  D path -> P st ->
  match filesystem_DirectoryContents (Join (root s) path) with
  | Ok _ => P (log (EvReadDir (Join (root s) path)) st)
  | Err _ => F (log (EvReadDir (Join (root s) path)) st)
  end.

Hypothesis at_lstat : forall path st,
  ignored (s_pathIgnorer s) path = false -> P st ->
  match os_Lstat (Join (root s) path) with
  | Ok _ => P (log (EvLstat (Join (root s) path)) st)
  | Err err =>
      if os_IsNotExist err then P (log (EvLstat (Join (root s) path)) st)
      else F (log (EvLstat (Join (root s) path)) st)
  end.

Hypothesis at_file : forall path info st,
  P st ->
  ignored (s_pathIgnorer s) path = false ->
  os_Lstat (Join (root s) path) = Ok info ->
  content_kind (info_Mode info) = Some EntryKind_File ->
  size_filtered s info = false ->
  holds P F (file s path info st).

Hypothesis at_symlink : forall path info st,
  P st ->
  ignored (s_pathIgnorer s) path = false ->
  os_Lstat (Join (root s) path) = Ok info ->
  content_kind (info_Mode info) = Some EntryKind_Symlink ->
  symlinksSupported = true ->
  holds P F (symlink s path st).

Hypothesis at_descend : forall path info,
  ignored (s_pathIgnorer s) path = false ->
  os_Lstat (Join (root s) path) = Ok info ->
  content_kind (info_Mode info) = Some EntryKind_Directory ->
  D path.

Lemma round_rule_at (rec : string -> state -> outcome Entry * state) :
  (forall path st, D path -> P st -> holds P F (rec path st)) ->
  forall path name st, P st ->
    holds_round P F (directory_round rec s path name st).
Proof.
  intros Hrec path name st HP. unfold directory_round.
  destruct (ignored (s_pathIgnorer s) (Join path name)) eqn:Ei; [exact HP |].
  pose proof (at_lstat (Join path name) st Ei HP) as Hl.
  destruct (os_Lstat (Join (root s) (Join path name))) as [info|err] eqn:El.
  2:{ destruct (os_IsNotExist err); exact Hl. }
  destruct (content_kind (info_Mode info)) as [kind|] eqn:Ek; [|exact Hl].
  destruct kind; simpl.
  - rewrite andb_false_r. simpl. apply holds_round_of, Hrec; [|exact Hl].
    now apply (at_descend _ info).
  - rewrite andb_true_r. fold (size_filtered s info).
    destruct (size_filtered s info) eqn:Ef; [exact Hl |].
    apply holds_round_of, at_file; auto.
  - rewrite andb_false_r. simpl.
    destruct symlinksSupported eqn:Ey; [|exact Hl].
    apply holds_round_of. now apply (at_symlink _ info).
Qed.

Lemma loop_rule_at (rec : string -> state -> outcome Entry * state) :
  (forall path st, D path -> P st -> holds P F (rec path st)) ->
  forall path names contents st, P st ->
    holds P F (directory_loop rec s path names contents st).
Proof.
  intros Hrec path names. induction names as [|name names IH]; intros contents st HP.
  - exact HP.
  - simpl. pose proof (round_rule_at rec Hrec path name st HP) as Hr.
    destruct (directory_round rec s path name st) as [[|entry|err|] st']; simpl in Hr;
      auto.
Qed.

Lemma directory_rule_at (fuel : nat) :
  forall path st, D path -> P st -> holds P F (directory fuel s path st).
Proof.
  induction fuel as [|fuel IH]; intros path st HD HP; [exact HP |].
  rewrite directory_S. pose proof (at_readdir path st HD HP) as Hd.
  destruct (filesystem_DirectoryContents (Join (root s) path)) as [names|err];
    [|exact Hd].
  pose proof (loop_rule_at (directory fuel s) IH path names ∅ _ Hd) as Hl.
  destruct (directory_loop _ s path names ∅ _) as [[c|err|] st']; exact Hl.
Qed.

End RuleAt.

(** ** The events of [scanner.file] *)

(** What [scanner.file] adds to the events: nothing but the report of the
    entry on a cache hit; otherwise the open and, when the file opens, the
    copy and the close, and then the report of the entry if there is
    one. *)
Lemma file_events (s : scanner) (path : string) (info : FileInfo) (st : state) :
  exists new,
    trace (snd (file s path info st)) = (trace st ++ new)%list /\
    balanced new = true /\
    Forall (fun ev => match ev with
                      | EvOpen name => name = Join (root s) path
                      | EvCopy _ _ _ _ => True
                      | EvClose _ => True
                      | EvFile _ _ _ => True
                      | _ => False
                      end) new.
Proof.
  destruct (cached_digest s path info) as [d|] eqn:Ed.
  - rewrite (file_hit _ _ _ _ d Ed). simpl. eexists. split; [reflexivity |].
    split; [reflexivity | now repeat constructor].
  - rewrite (file_miss _ _ _ _ Ed), hash_file_spec.
    destruct (os_Open (Join (root s) path)) as [f|err] eqn:Eo.
    + destruct (read_error f);
        [|destruct (uint64 (copied_of f) =? uint64 (info_Size info))%Z]; simpl;
        rewrite <- ?app_assoc; (eexists; split; [reflexivity |]);
        (split; [simpl; rewrite Eo, String.eqb_refl; reflexivity | now repeat constructor]).
    + simpl. eexists. split; [reflexivity |].
      split; [simpl; now rewrite Eo | now repeat constructor].
Qed.


(** ** Files are closed *)

Lemma balanced_app (a b : list event) :
  balanced a = true -> balanced b = true -> balanced (a ++ b) = true.
Proof.
  intros Ha Hb. remember (List.length a) as n eqn:Hn.
  assert (Hle : (List.length a <= n)%nat) by lia. clear Hn.
  revert a Ha Hle. induction n as [|n IH]; intros a Ha Hle.
  - destruct a; [exact Hb | simpl in Hle; lia].
  - destruct a as [|ev a]; [exact Hb |]. simpl in Hle.
    destruct ev; simpl in *; try discriminate; try (apply IH; [assumption | lia]).
    destruct (os_Open name) as [f|err]; [|apply IH; [assumption | lia]].
    destruct a as [|[] [|[] a]]; try discriminate. simpl in *.
    apply andb_true_iff in Ha as [Hname Ha]. rewrite Hname. simpl.
    apply IH; [assumption | lia].
Qed.

Lemma balanced_log (st : state) (ev : event) :
  balanced (trace st) = true ->
  match ev with
  | EvOpen _ => False
  | EvCopy _ _ _ _ => False
  | EvClose _ => False
  | _ => True
  end ->
  balanced (trace (log ev st)) = true.
Proof.
  intros Hb Hev. simpl. apply balanced_app; [exact Hb |].
  destruct ev; simpl; auto; contradiction.
Qed.

Lemma directory_balanced (s : scanner) (fuel : nat) (path : string) (st : state) :
  balanced (trace st) = true ->
  balanced (trace (snd (directory fuel s path st))) = true.
Proof.
  intros Hb.
  pose proof (directory_rule s (fun st => balanced (trace st) = true)
                (fun st => balanced (trace st) = true)) as Hrule.
  assert (Hh : holds (fun st => balanced (trace st) = true)
                 (fun st => balanced (trace st) = true) (directory fuel s path st)).
  { apply Hrule; [| | | |exact Hb].
    - intros p st0 H0.
      destruct (filesystem_DirectoryContents (Join (root s) p));
        now apply balanced_log.
    - intros p st0 H0.
      destruct (os_Lstat (Join (root s) p)) as [i|e];
        [|destruct (os_IsNotExist e)]; now apply balanced_log.
    - intros p info st0 H0 _ _ _ _.
      destruct (file_events s p info st0) as (new & Htr & Hbn & _).
      destruct (file s p info st0) as [[e|e|] st1]; simpl in *; rewrite Htr;
        now apply balanced_app.
    - intros p st0 H0. rewrite symlink_spec.
      destruct (os_Readlink (Join (root s) p)) as [t|e];
        [destruct (String.eqb t "")|]; simpl; now apply balanced_app. }
  destruct (directory fuel s path st) as [[e|e|] st1]; exact Hh.
Qed.

(** Every file that a scan opens is closed again: in the events of every
    scan, whether it returns a snapshot or an error, a file that opens is
    copied and closed at once, so that no file is left open and no two
    files are open at a time. *)
Theorem Scan_files_closed (fuel : nat) (root : string) (cache : option Cache)
      (ignores : list string) (ignoreSize : Z) :
  balanced (snd (Scan fuel root cache ignores ignoreSize)) = true.
Proof.
  rewrite Scan_eq.
  destruct (newPathIgnorer ignores) as [ig|e]; [|reflexivity].
  cbv zeta. destruct (os_Stat root) as [info|e].
  2:{ destruct (os_IsNotExist e); reflexivity. }
  assert (Hfin : forall o, balanced (trace (snd o)) = true ->
                           balanced (snd (finish o)) = true).
  { intros [[?|?|] ?]; auto. }
  destruct (negb (Z.land (info_Mode info) os_ModeDir =? 0)%Z).
  - apply Hfin. now apply directory_balanced.
  - destruct (negb (Z.land (info_Mode info) os_ModeType =? 0)%Z); [reflexivity |].
    apply Hfin.
    destruct (file_events (scanner_of root cache ig ignoreSize) "" info (start root))
      as (new & Htr & Hbn & _).
    rewrite Htr. now apply (balanced_app [EvStat root]).
Qed.

(** ** What a scan looks at *)

Section RuleSeen.
Variable s : scanner.
Variables P F : state -> Prop.
Variable D : string -> state -> Prop.

Hypothesis seen_readdir : forall path st,
  D path st -> P st ->
  match filesystem_DirectoryContents (Join (root s) path) with
  | Ok _ => P (log (EvReadDir (Join (root s) path)) st)
  | Err _ => F (log (EvReadDir (Join (root s) path)) st)
  end.

Hypothesis seen_lstat : forall path st,
  ignored (s_pathIgnorer s) path = false -> P st ->
  match os_Lstat (Join (root s) path) with
  | Ok _ => P (log (EvLstat (Join (root s) path)) st)
  | Err err =>
      if os_IsNotExist err then P (log (EvLstat (Join (root s) path)) st)
      else F (log (EvLstat (Join (root s) path)) st)
  end.

Hypothesis seen_file : forall path info st,
  P (log (EvLstat (Join (root s) path)) st) ->
  ignored (s_pathIgnorer s) path = false ->
  os_Lstat (Join (root s) path) = Ok info ->
  content_kind (info_Mode info) = Some EntryKind_File ->
  holds P F (file s path info (log (EvLstat (Join (root s) path)) st)).

Hypothesis seen_symlink : forall path info st,
  P (log (EvLstat (Join (root s) path)) st) ->
  ignored (s_pathIgnorer s) path = false ->
  os_Lstat (Join (root s) path) = Ok info ->
  content_kind (info_Mode info) = Some EntryKind_Symlink ->
  symlinksSupported = true ->
  holds P F (symlink s path (log (EvLstat (Join (root s) path)) st)).

Hypothesis seen_descend : forall path info st,
  ignored (s_pathIgnorer s) path = false ->
  os_Lstat (Join (root s) path) = Ok info ->
  content_kind (info_Mode info) = Some EntryKind_Directory ->
  D path (log (EvLstat (Join (root s) path)) st).




End RuleSeen.









(** ** The scan comes to an end *)

Lemma file_not_OutOfFuel (s : scanner) (path : string) (info : FileInfo) (st : state) :
  fst (file s path info st) <> OutOfFuel.
Proof.
  destruct (file s path info st) as [[e|e|] st'] eqn:Ef; simpl; try discriminate.
  destruct (file_not_Done _ _ _ _ _ _ Ef) as (_ & _ & _ & _ & _ & err & Herr);
    discriminate.
Qed.

Lemma loop_not_OutOfFuel (s : scanner) (rec : string -> state -> outcome Entry * state)
      (path : string) (names : list string) :
  (forall name info st,
      In name names ->
      os_Lstat (Join (root s) (Join path name)) = Ok info ->
      (Z.land (info_Mode info) os_ModeDir =? 0)%Z = false ->
      fst (rec (Join path name) st) <> OutOfFuel) ->
  forall contents st, fst (directory_loop rec s path names contents st) <> OutOfFuel.
Proof.
  induction names as [|name names IH]; intros Hrec contents st; [discriminate |].
  simpl.
  assert (Hr : fst (directory_round rec s path name st) <> Exhausted).
  { unfold directory_round.
    destruct (ignored (s_pathIgnorer s) (Join path name)); [discriminate |].
    destruct (os_Lstat (Join (root s) (Join path name))) as [info|err] eqn:El.
    2:{ destruct (os_IsNotExist err); discriminate. }
    unfold content_kind.
    destruct (Z.land (info_Mode info) os_ModeDir =? 0)%Z eqn:Ed; simpl.
    - assert (Hof : forall o, fst o <> OutOfFuel -> fst (round_of o) <> Exhausted).
      { intros [[?|?|] ?]; simpl; congruence. }
      destruct (negb (Z.land (info_Mode info) os_ModeSymlink =? 0)%Z); simpl.
      + rewrite andb_false_r. simpl. destruct symlinksSupported; [|discriminate].
        apply Hof. rewrite symlink_spec. simpl.
        destruct (os_Readlink _) as [t|e]; [destruct (String.eqb t "")|]; discriminate.
      + destruct (negb (Z.land (info_Mode info) os_ModeType =? 0)%Z); [discriminate |].
        destruct (_ && _); [discriminate |]. apply Hof, file_not_OutOfFuel.
    - rewrite andb_false_r. simpl.
      pose proof (Hrec name info (log (EvLstat (Join (root s) (Join path name))) st)
                    (or_introl eq_refl) El Ed) as Hn.
      destruct (rec _ _) as [[?|?|] ?]; simpl in *; congruence. }
  destruct (directory_round rec s path name st) as [[|entry|err|] st1]; simpl in *;
    try discriminate; try congruence.
  - apply IH. intros n i st0 Hin. apply Hrec. now right.
  - apply IH. intros n i st0 Hin. apply Hrec. now right.
Qed.

Lemma directory_shallow (s : scanner) (depth : nat) :
  forall path st,
    shallow depth (root s) path = true ->
    fst (directory depth s path st) <> OutOfFuel.
Proof.
  induction depth as [|depth IH]; intros path st Hsh; [discriminate |].
  rewrite directory_S. simpl in Hsh.
  destruct (filesystem_DirectoryContents (Join (root s) path)) as [names|err];
    [|discriminate].
  rewrite forallb_forall in Hsh.
  pose proof (loop_not_OutOfFuel s (directory depth s) path names) as Hl.
  specialize (Hl (fun name info st0 Hin Hls Hd =>
                    IH (Join path name) st0
                       ltac:(specialize (Hsh name Hin); rewrite Hls, Hd in Hsh;
                             exact Hsh))).
  specialize (Hl ∅ (log (EvReadDir (Join (root s) path)) st)).
  destruct (directory_loop _ s path names ∅ _) as [[c|e|] st1]; simpl in *;
    congruence.
Qed.

(** A scan comes to an end on every tree of bounded depth: when the
    directories under the root nest less than [depth] deep, [Scan] returns
    with a recursion no deeper than [depth]; the answer is then the same
    for every larger bound. *)
Theorem Scan_terminates (depth fuel : nat) (root : string) (cache : option Cache)
      (ignores : list string) (ignoreSize : Z) :
  shallow depth root "" = true ->
  (depth <= fuel)%nat ->
  exists r,
    fst (Scan depth root cache ignores ignoreSize) = Some r /\
    Scan fuel root cache ignores ignoreSize = Scan depth root cache ignores ignoreSize.
Proof.
  intros Hsh Hle.
  assert (Hd : exists r, fst (Scan depth root cache ignores ignoreSize) = Some r).
  { rewrite Scan_eq.
    destruct (newPathIgnorer ignores) as [ig|e]; [|simpl; eauto].
    cbv zeta. destruct (os_Stat root) as [info|e].
    2:{ destruct (os_IsNotExist e); simpl; eauto. }
    destruct (negb (Z.land (info_Mode info) os_ModeDir =? 0)%Z).
    - pose proof (directory_shallow (scanner_of root cache ig ignoreSize) depth ""
                    (start root) Hsh) as Hn.
      destruct (directory _ _ _ _) as [[?|?|] ?]; simpl in *; eauto. congruence.
    - destruct (negb (Z.land (info_Mode info) os_ModeType =? 0)%Z); [simpl; eauto |].
      pose proof (file_not_OutOfFuel (scanner_of root cache ig ignoreSize) "" info
                    (start root)) as Hn.
      destruct (file _ _ _ _) as [[?|?|] ?]; simpl in *; eauto. congruence. }
  destruct Hd as [r Hr]. exists r. split; [exact Hr |].
  destruct (Scan depth root cache ignores ignoreSize) as [o events] eqn:E.
  simpl in Hr. subst o.
  replace fuel with (depth + (fuel - depth))%nat by lia.
  now apply Scan_more_fuel.
Qed.

(** ** A cache that tells the truth changes nothing *)

Section Transparent.
Variables s1 s2 : scanner.
Hypothesis same_root : root s2 = root s1.
Hypothesis same_ignorer : s_pathIgnorer s2 = s_pathIgnorer s1.
Hypothesis same_limit : ignoreSize s2 = ignoreSize s1.
Hypothesis cache_accurate : forall path info,
  os_Lstat (Join (root s1) path) = Ok info ->
  accurate_at (root s1) (cache s1) path info.
Hypothesis no_cache : Entries (cache s2) = ∅.

Lemma file_agree (path : string) (info : FileInfo) (st1 st2 : state) :
  accurate_at (root s1) (cache s1) path info ->
  newCache st1 = newCache st2 ->
  agree (file s1 path info st1) (file s2 path info st2).
Proof.
  intros Hacc Hn.
  assert (H2 : cached_digest s2 path info = None).
  { unfold cached_digest. now rewrite no_cache, lookup_empty. }
  rewrite (file_miss s2 _ _ _ H2), hash_file_spec, same_root.
  destruct (cached_digest s1 path info) as [d|] eqn:E1.
  - rewrite (file_hit _ _ _ _ d E1).
    apply cached_digest_Some in E1 as (cached & Hl & Hv & Hd).
    destruct (Hacc _ _ Hl Hv Hd) as (f & Ho & Hre & Hc & Hdg).
    rewrite Ho, Hre. apply Z.eqb_eq in Hc. rewrite Hc, Hdg.
    split; simpl; [reflexivity | now rewrite Hn].
  - rewrite (file_miss _ _ _ _ E1), hash_file_spec.
    destruct (os_Open (Join (root s1) path)) as [f|err];
      [destruct (read_error f);
       [|destruct (uint64 (copied_of f) =? uint64 (info_Size info))%Z]|];
      split; simpl; congruence.
Qed.

Variables rec1 rec2 : string -> state -> outcome Entry * state.
Hypothesis rec_agree : forall path st1 st2,
  newCache st1 = newCache st2 -> agree (rec1 path st1) (rec2 path st2).

Lemma round_agree (path name : string) (st1 st2 : state) :
  newCache st1 = newCache st2 ->
  agree (directory_round rec1 s1 path name st1) (directory_round rec2 s2 path name st2).
Proof.
  intros Hn. unfold directory_round. rewrite same_root, same_ignorer, same_limit.
  assert (Hof : forall o1 o2 : outcome Entry * state,
             agree o1 o2 -> agree (round_of o1) (round_of o2)).
  { intros [[?|?|] ?] [[?|?|] ?] [Hv Hc]; simpl in *; try discriminate;
      split; simpl; congruence. }
  destruct (ignored (s_pathIgnorer s1) (Join path name)); [now split |].
  destruct (os_Lstat (Join (root s1) (Join path name))) as [info|err] eqn:El.
  2:{ destruct (os_IsNotExist err); now split. }
  destruct (content_kind (info_Mode info)) as [kind|]; [|now split].
  destruct (_ && _); [now split |].
  destruct kind.
  - apply Hof, rec_agree. exact Hn.
  - apply Hof, file_agree; [now apply cache_accurate | exact Hn].
  - destruct symlinksSupported; [|now split].
    apply Hof. rewrite !symlink_spec, same_root. now split.
Qed.

Lemma loop_agree (path : string) (names : list string) :
  forall contents st1 st2,
    newCache st1 = newCache st2 ->
    agree (directory_loop rec1 s1 path names contents st1)
          (directory_loop rec2 s2 path names contents st2).
Proof.
  induction names as [|name names IH]; intros contents st1 st2 Hn; [now split |].
  simpl. destruct (round_agree path name st1 st2 Hn) as [Hv Hc].
  destruct (directory_round rec1 s1 path name st1) as [r1 st1'],
           (directory_round rec2 s2 path name st2) as [r2 st2'].
  simpl in *. subst r2. destruct r1; auto. now split.
  now split.
Qed.

End Transparent.

Lemma directory_agree (s1 s2 : scanner) (fuel : nat) :
  root s2 = root s1 -> s_pathIgnorer s2 = s_pathIgnorer s1 ->
  ignoreSize s2 = ignoreSize s1 ->
  (forall path info, os_Lstat (Join (root s1) path) = Ok info ->
                     accurate_at (root s1) (cache s1) path info) ->
  Entries (cache s2) = ∅ ->
  forall path st1 st2,
    newCache st1 = newCache st2 ->
    agree (directory fuel s1 path st1) (directory fuel s2 path st2).
Proof.
  intros Hr Hi Hlim Hacc Hno.
  induction fuel as [|fuel IH]; intros path st1 st2 Hn; [now split |].
  rewrite !directory_S, Hr.
  destruct (filesystem_DirectoryContents (Join (root s1) path)) as [names|err];
    [|now split].
  destruct (loop_agree s1 s2 Hr Hi Hlim Hacc Hno (directory fuel s1) (directory fuel s2)
              IH path names ∅ (log (EvReadDir (Join (root s1) path)) st1)
              (log (EvReadDir (Join (root s1) path)) st2) Hn) as [Hv Hc].
  destruct (directory_loop (directory fuel s1) s1 path names ∅ _) as [r1 st1'],
           (directory_loop (directory fuel s2) s2 path names ∅ _) as [r2 st2'].
  simpl in *. subst r2. destruct r1; now split.
Qed.

(** The cache only saves work: given a cache that tells the truth about
    the files under the root (an entry that matches the stat that the scan
    gets for its path has the digest of the bytes of the file; a stale
    entry may hold anything), [Scan] returns the very snapshot, cache and
    error that it returns without any cache. *)
Theorem Scan_cache_transparent (fuel : nat) (root : string) (c : Cache)
      (ignores : list string) (ignoreSize : Z) :
  accurate root c ->
  fst (Scan fuel root (Some c) ignores ignoreSize)
  = fst (Scan fuel root None ignores ignoreSize).
Proof.
  intros Hacc. rewrite !Scan_eq.
  destruct (newPathIgnorer ignores) as [ig|e]; [|reflexivity].
  cbv zeta. destruct (os_Stat root) as [info|e] eqn:Es; [|reflexivity].
  assert (Hfin : forall o1 o2 : outcome Entry * state,
             agree o1 o2 -> fst (finish o1) = fst (finish o2)).
  { intros [[?|?|] ?] [[?|?|] ?] [Hv Hc]; simpl in *; try discriminate; congruence. }
  destruct (Z.land (info_Mode info) os_ModeDir =? 0)%Z eqn:Ed; simpl.
  - destruct (negb (Z.land (info_Mode info) os_ModeType =? 0)%Z); [reflexivity |].
    apply Hfin. apply file_agree; try reflexivity.
    apply Hacc. exists info. split; [exact Es |]. rewrite Ed. now split.
  - apply Hfin. apply directory_agree; try reflexivity.
    intros path i Hl. apply Hacc. exists info. split; [exact Es |]. now rewrite Ed.
Qed.


(** ** A scan stops at the first failure *)

Lemma stopped_log (st : state) (ev : event) :
  Forall (fun e => fatal e = false) (trace st) -> fatal ev = true ->
  stopped (trace (log ev st)).
Proof.
  intros Hq Hf. exists (trace st), ev, []. split; [reflexivity |].
  split; [exact Hf |]. split; [exact Hq | now left].
Qed.

Lemma quiet_log (st : state) (ev : event) :
  Forall (fun e => fatal e = false) (trace st) -> fatal ev = false ->
  Forall (fun e => fatal e = false) (trace (log ev st)).
Proof. intros Hq Hf. simpl. apply Forall_app. split; [exact Hq | now constructor]. Qed.

Lemma file_stopped (s : scanner) (path : string) (info : FileInfo) (st : state) :
  Forall (fun e => fatal e = false) (trace st) ->
  holds (fun st => Forall (fun e => fatal e = false) (trace st))
        (fun st => stopped (trace st)) (file s path info st).
Proof.
  intros Hq. destruct (cached_digest s path info) as [d|] eqn:Ed.
  - rewrite (file_hit _ _ _ _ d Ed). simpl. apply Forall_app. split; [exact Hq |].
    now repeat constructor.
  - rewrite (file_miss _ _ _ _ Ed), hash_file_spec.
    destruct (os_Open (Join (root s) path)) as [f|err] eqn:Eo.
    + destruct (read_error f) eqn:Er.
      * simpl. exists (trace st ++ [EvOpen (Join (root s) path)])%list,
          (EvCopy path (uint64 (info_Size info)) (copied_of f) true),
          [EvClose (Join (root s) path)].
        split; [now rewrite <- app_assoc |]. split; [reflexivity |]. split; [|eauto].
        apply Forall_app. split; [exact Hq |]. constructor; [|constructor].
        simpl. now rewrite Eo.
      * destruct (uint64 (copied_of f) =? uint64 (info_Size info))%Z eqn:Ec; simpl.
        -- apply Forall_app. split.
           ++ apply Forall_app. split; [exact Hq |].
              repeat constructor; simpl; try rewrite Eo; try rewrite Ec; reflexivity.
           ++ now repeat constructor.
        -- exists (trace st ++ [EvOpen (Join (root s) path)])%list,
             (EvCopy path (uint64 (info_Size info)) (copied_of f) false),
             [EvClose (Join (root s) path)].
           split; [now rewrite <- app_assoc |]. split; [simpl; now rewrite Ec |].
           split; [|eauto].
           apply Forall_app. split; [exact Hq |]. constructor; [|constructor].
           simpl. now rewrite Eo.
    + simpl. apply (stopped_log st (EvOpen (Join (root s) path)) Hq).
      simpl. now rewrite Eo.
Qed.

Lemma directory_stopped (s : scanner) (fuel : nat) (path : string) (st : state) :
  Forall (fun e => fatal e = false) (trace st) ->
  holds (fun st => Forall (fun e => fatal e = false) (trace st))
        (fun st => stopped (trace st)) (directory fuel s path st).
Proof.
  apply (directory_rule s (fun st => Forall (fun e => fatal e = false) (trace st))
           (fun st => stopped (trace st))).
  - intros p st0 Hq.
    destruct (filesystem_DirectoryContents (Join (root s) p)) as [names|err] eqn:Ed.
    + apply quiet_log; [exact Hq |]. simpl. now rewrite Ed.
    + apply stopped_log; [exact Hq |]. simpl. now rewrite Ed.
  - intros p st0 Hq.
    destruct (os_Lstat (Join (root s) p)) as [info|err] eqn:El.
    + apply quiet_log; [exact Hq |]. simpl. now rewrite El.
    + destruct (os_IsNotExist err) eqn:En.
      * apply quiet_log; [exact Hq |]. simpl. now rewrite El, En.
      * apply stopped_log; [exact Hq |]. simpl. now rewrite El, En.
  - intros p info st0 Hq _ _ _ _. now apply file_stopped.
  - intros p st0 Hq. rewrite symlink_spec.
    destruct (os_Readlink (Join (root s) p)) as [target|err] eqn:Er; simpl.
    + destruct (String.eqb target "") eqn:Et; simpl.
      * apply stopped_log; [exact Hq |]. simpl. now rewrite Er, Et.
      * apply quiet_log; [exact Hq |]. simpl. now rewrite Er, Et.
    + apply stopped_log; [exact Hq |]. simpl. now rewrite Er.
Qed.

(** Where a list is cut at an element with a property that no other
    element has. *)
Lemma pivot_unique {A} (p : A -> bool) (l1 l2 r1 r2 : list A) (a b : A) :
  (l1 ++ a :: r1 = l2 ++ b :: r2)%list ->
  p a = true -> p b = true ->
  Forall (fun x => p x = false) l1 -> Forall (fun x => p x = false) r1 ->
  l2 = l1 /\ b = a /\ r2 = r1.
Proof.
  revert l2. induction l1 as [|x l1 IH]; intros l2 Heq Ha Hb Hl Hr.
  - destruct l2 as [|y l2]; simpl in Heq.
    + injection Heq as -> ->. auto.
    + injection Heq as -> ->. exfalso.
      rewrite List.Forall_forall in Hr.
      assert (Hin : In b (l2 ++ b :: r2)) by (apply in_app_iff; right; now left).
      rewrite (Hr _ Hin) in Hb. discriminate.
  - apply Forall_cons in Hl as [Hx Hl]. destruct l2 as [|y l2]; simpl in Heq.
    + injection Heq as -> Hrest. congruence.
    + injection Heq as -> Hrest. destruct (IH _ Hrest Ha Hb Hl Hr) as (-> & -> & ->).
      auto.
Qed.

(** A scan stops at the first failure: a fatal event in the events of a
    scan is the only one, and nothing follows it but the close of the file
    whose copy failed. *)
Theorem Scan_fails_fast (fuel : nat) (root : string) (cache : option Cache)
      (ignores : list string) (ignoreSize : Z)
      (before after : list event) (ev : event) :
  snd (Scan fuel root cache ignores ignoreSize) = (before ++ ev :: after)%list ->
  fatal ev = true ->
  Forall (fun e => fatal e = false) before /\
  (after = [] \/ exists name, after = [EvClose name]).
Proof.
  assert (Hquiet : forall events,
             Forall (fun e => fatal e = false) events ->
             events = (before ++ ev :: after)%list -> fatal ev = true -> False).
  { intros events Hq -> Hf. rewrite List.Forall_forall in Hq.
    rewrite Hq in Hf; [discriminate |]. apply in_app_iff. right. now left. }
  assert (Hstop : forall events,
             stopped events ->
             events = (before ++ ev :: after)%list -> fatal ev = true ->
             Forall (fun e => fatal e = false) before /\
             (after = [] \/ exists name, after = [EvClose name])).
  { intros events (pre & e0 & post & -> & Hf0 & Hpre & Hpost) Heq Hf.
    assert (Hp : Forall (fun e => fatal e = false) post).
    { destruct Hpost as [-> | [name ->]]; now repeat constructor. }
    destruct (pivot_unique fatal _ _ _ _ _ _ Heq Hf0 Hf Hpre Hp) as (-> & -> & ->).
    auto. }
  rewrite Scan_eq.
  destruct (newPathIgnorer ignores) as [ig|e].
  2:{ simpl. intros Heq. destruct before; discriminate. }
  cbv zeta. set (s := scanner_of root cache ig ignoreSize).
  destruct (os_Stat root) as [info|e] eqn:Es.
  2:{ destruct (os_IsNotExist e) eqn:En; simpl; intros Heq Hf.
      - exfalso. apply (Hquiet [EvStat root]); auto.
        repeat constructor. simpl. now rewrite Es, En.
      - apply (Hstop [EvStat root]); auto.
        exists [], (EvStat root), []. split; [reflexivity |].
        split; [simpl; now rewrite Es, En |]. split; [constructor | now left]. }
  assert (Hstart : Forall (fun e => fatal e = false) (trace (start root))).
  { repeat constructor. simpl. now rewrite Es. }
  assert (Hfin : forall o,
             holds (fun st => Forall (fun e => fatal e = false) (trace st))
                   (fun st => stopped (trace st)) o ->
             snd (finish o) = (before ++ ev :: after)%list -> fatal ev = true ->
             Forall (fun e => fatal e = false) before /\
             (after = [] \/ exists name, after = [EvClose name])).
  { intros [[?|?|] st] Hh Heq Hf; simpl in *.
    - exfalso. now apply (Hquiet (trace st)).
    - now apply (Hstop (trace st)).
    - exfalso. now apply (Hquiet (trace st)). }
  destruct (negb (Z.land (info_Mode info) os_ModeDir =? 0)%Z).
  - apply Hfin. now apply directory_stopped.
  - destruct (negb (Z.land (info_Mode info) os_ModeType =? 0)%Z).
    + simpl. intros Heq Hf. exfalso. now apply (Hquiet [EvStat root]).
    + apply Hfin. now apply file_stopped.
Qed.


(** An error of a scan has a cause: when [Scan] returns an error, the
    ignore list did not compile, or the root is neither a directory nor a
    regular file, or one of the events of the scan is fatal. *)
Theorem Scan_error_cause (fuel : nat) (root : string) (cache : option Cache)
      (ignores : list string) (ignoreSize : Z)
      (snapshot : option Entry) (newcache : option Cache) (err : error) :
  fst (Scan fuel root cache ignores ignoreSize) = Some (snapshot, newcache, Some err) ->
  snapshot = None /\ newcache = None /\
  ((exists e, newPathIgnorer ignores = Err e /\
              err = errors_Wrap e "unable to create ignorer") \/
   (exists info, os_Stat root = Ok info /\
                 Z.land (info_Mode info) os_ModeDir = 0%Z /\
                 Z.land (info_Mode info) os_ModeType <> 0%Z /\
                 err = errors_New "invalid snapshot root type") \/
   (exists ev, In ev (snd (Scan fuel root cache ignores ignoreSize)) /\
               fatal ev = true)).
Proof.
  rewrite Scan_eq.
  destruct (newPathIgnorer ignores) as [ig|e].
  2:{ simpl. intros Heq. inversion Heq; subst. repeat split. left. eauto. }
  cbv zeta. set (s := scanner_of root cache ig ignoreSize).
  destruct (os_Stat root) as [info|e] eqn:Es.
  2:{ destruct (os_IsNotExist e) eqn:En; simpl; intros Heq; inversion Heq; subst.
      repeat split. right. right. exists (EvStat root). split; [now left |].
      simpl. now rewrite Es, En. }
  assert (Hstart : Forall (fun e => fatal e = false) (trace (start root))).
  { repeat constructor. simpl. now rewrite Es. }
  assert (Hfin : forall o,
             holds (fun st => Forall (fun e => fatal e = false) (trace st))
                   (fun st => stopped (trace st)) o ->
             fst (finish o) = Some (snapshot, newcache, Some err) ->
             snapshot = None /\ newcache = None /\
             exists ev, In ev (snd (finish o)) /\ fatal ev = true).
  { intros [[?|?|] st] Hh Heq; simpl in *; inversion Heq; subst.
    destruct Hh as (pre & ev & post & Htr & Hf & _).
    repeat split. exists ev. split; [|exact Hf].
    rewrite Htr. apply in_app_iff. right. now left. }
  destruct (negb (Z.land (info_Mode info) os_ModeDir =? 0)%Z) eqn:Ed.
  - intros Heq. destruct (Hfin _ (directory_stopped s fuel "" _ Hstart) Heq)
      as (? & ? & ?). auto.
  - destruct (negb (Z.land (info_Mode info) os_ModeType =? 0)%Z) eqn:Et.
    + simpl. intros Heq. inversion Heq; subst. repeat split. right. left.
      exists info. apply negb_false_iff, Z.eqb_eq in Ed.
      apply negb_true_iff, Z.eqb_neq in Et. auto.
    + intros Heq. destruct (Hfin _ (file_stopped s "" info _ Hstart) Heq)
        as (? & ? & ?). auto.
Qed.

(** ** The cache and the contents, exactly *)

Lemma classic_in (x : string) (l : list string) : In x l \/ ~ In x l.
Proof. destruct (in_dec string_dec x l); auto. Qed.

(** The cache that a scan returns holds exactly the file entries of the
    snapshot, each at its path, with its stat and its digest. *)
Lemma Scan_cache_of_snapshot (fuel : nat) (root : string) (cache : option Cache)
      (ignores : list string) (ignoreSize : Z)
      (rootEntry : Entry) (newcache : Cache) (err : option error)
      (key : string) (ce : CacheEntry) :
  fst (Scan fuel root cache ignores ignoreSize) = Some (Some rootEntry, Some newcache, err) ->
  Entries newcache !! key = Some ce <->
  exists names entry info,
    joins "" names = key /\ lookup_path rootEntry names = Some entry /\
    Entry_Kind entry = EntryKind_File /\ stat_of root key info /\
    ce = entry_for info (Entry_Digest entry).
Proof.
  intros Hs.
  assert (Hstat : forall path info entry,
             In (EvFile path info entry) (snd (Scan fuel root cache ignores ignoreSize)) ->
             stat_of root path info).
  { revert Hs. rewrite Scan_eq.
    destruct (newPathIgnorer ignores) as [ig|e]; [|discriminate].
    cbv zeta. destruct (os_Stat root) as [rootinfo|e] eqn:Es.
    2:{ destruct (os_IsNotExist e); discriminate. }
    unfold stat_of. rewrite Es.
    destruct (Z.land (info_Mode rootinfo) os_ModeDir =? 0)%Z eqn:Ed; simpl.
    - destruct (negb (Z.land (info_Mode rootinfo) os_ModeType =? 0)%Z); [discriminate |].
      destruct (file _ _ _ _) as [[e|e|] st] eqn:Ef; simpl; try discriminate.
      intros _ path info entry Hin. exists rootinfo. split; [reflexivity |].
      rewrite Ed.
      destruct (file_Done _ _ _ _ _ _ Ef) as (_ & _ & events & Htr & Hq & _).
      rewrite Htr in Hin. simpl in Hin. destruct Hin as [Hin | Hin]; [discriminate |].
      apply in_app_iff in Hin as [Hin | [Hin | []]].
      + rewrite List.Forall_forall in Hq. destruct (Hq _ Hin) as [_ Hn]. discriminate.
      + inversion Hin; subst. auto.
    - pose proof (traversal_inv_directory (scanner_of root cache ig ignoreSize) fuel ""
                    (start root) (start_inv (scanner_of root cache ig ignoreSize) _ Es))
        as Hinv.
      destruct (directory _ _ _ _) as [[e|e|] st]; simpl in *; try discriminate.
      intros _ path info entry Hin. exists rootinfo. split; [reflexivity |]. rewrite Ed.
      now destruct (inv_files _ _ Hinv _ _ _ Hin) as (_ & Hl & _). }
  destruct (Scan_files_and_keys _ _ _ _ _ _ _ _ Hs) as [Hf Hc]. split.
  - intros Hk. destruct (Hc _ _ Hk) as (info & entry & Hin & Hkind & ->).
    destruct (Scan_located _ _ _ _ _ _ _ _ Hs _ _ _ Hin) as (names & Hj & Hl).
    exists names, entry, info. repeat split; auto. now apply (Hstat _ _ entry).
  - intros (names & entry & info & Hj & Hl & Hkind & Hst & ->).
    destruct (Scan_reported _ _ _ _ _ _ _ _ Hs names entry Hl Hkind) as [info' Hin].
    rewrite Hj in Hin. destruct (Hf _ _ _ Hin) as (_ & _ & Hce). rewrite Hce.
    pose proof (Hstat _ _ _ Hin) as Hst'.
    destruct Hst as (ri & Hri & Hi), Hst' as (ri' & Hri' & Hi').
    rewrite Hri in Hri'. inversion Hri'; subst ri'.
    destruct (Z.land (info_Mode ri) os_ModeDir =? 0)%Z.
    + destruct Hi as [_ ->], Hi' as [_ ->]. reflexivity.
    + rewrite Hi in Hi'. now inversion Hi'.
Qed.


(** ** The rounds of a loop, whatever the state *)

Section Rounds.
Variable s : scanner.
Variable rec : string -> state -> outcome Entry * state.
Hypothesis rec_fst : forall path st1 st2, fst (rec path st1) = fst (rec path st2).

(** The rounds of a loop that went through all gave an entry or
    nothing. *)
Lemma loop_Done_rounds (path : string) (names : list string) :
  forall contents st contents' st',
    directory_loop rec s path names contents st = (Done contents', st') ->
    forall name st0, In name names ->
      fst (directory_round rec s path name st0) = Continue \/
      exists child, fst (directory_round rec s path name st0) = Content child.
Proof.
  induction names as [|name0 names IH]; intros contents st contents' st' Hl name st0 Hin;
    [destruct Hin |].
  simpl in Hl.
  destruct (directory_round rec s path name0 st) as [r st1] eqn:Er.
  destruct Hin as [<- | Hin].
  - rewrite (round_fst s rec rec_fst path name0 st0 st), Er. simpl.
    destruct r; try discriminate; eauto.
  - destruct r; try discriminate; eapply IH; eauto.
Qed.

(** A loop whose rounds all give an entry or nothing goes through. *)
Lemma loop_goes_through (path : string) (names : list string) :
  (forall name st0, In name names ->
     fst (directory_round rec s path name st0) = Continue \/
     exists child, fst (directory_round rec s path name st0) = Content child) ->
  forall contents st,
    exists contents', fst (directory_loop rec s path names contents st) = Done contents'.
Proof.
  induction names as [|name0 names IH]; intros Hr contents st; [simpl; eauto |].
  simpl. pose proof (Hr name0 st (or_introl eq_refl)) as H0.
  destruct (directory_round rec s path name0 st) as [r st1]. simpl in H0.
  assert (Hr' : forall name st0, In name names ->
            fst (directory_round rec s path name st0) = Continue \/
            exists child, fst (directory_round rec s path name st0) = Content child).
  { intros name st0 Hin. apply Hr. now right. }
  destruct H0 as [-> | [child ->]]; now apply IH.
Qed.

(** The contents that a loop returns: under each listed name for which
    the round gives an entry, that entry. *)
Lemma loop_Done_contents (path : string) (names : list string) :
  forall contents st contents' st',
    directory_loop rec s path names contents st = (Done contents', st') ->
    forall name child,
      contents' !! name = Some child <->
      (In name names /\ forall st0, fst (directory_round rec s path name st0) = Content child)
      \/ (~ (In name names /\
             exists c, forall st0, fst (directory_round rec s path name st0) = Content c)
          /\ contents !! name = Some child).
Proof.
  induction names as [|name0 names IH]; intros contents st contents' st' Hl name child.
  - simpl in Hl. inversion Hl; subst. split.
    + intros Hc. right. split; [now intros [[] _] | exact Hc].
    + intros [[[] _] | [_ Hc]]. exact Hc.
  - simpl in Hl.
    destruct (directory_round rec s path name0 st) as [r st1] eqn:Er.
    assert (Hval : forall st0, fst (directory_round rec s path name0 st0) = r).
    { intros st0. now rewrite (round_fst s rec rec_fst path name0 st0 st), Er. }
    destruct r as [|entry| |]; try discriminate.
    + rewrite (IH _ _ _ _ Hl). split.
      * intros [[Hin Hv] | [Hn Hc]]; [left; split; [now right | exact Hv] |].
        right. split; [|exact Hc]. intros [[<- | Hin] [c Hv]].
        -- specialize (Hv st). rewrite Hval in Hv. discriminate.
        -- apply Hn. eauto.
      * intros [[[<- | Hin] Hv] | [Hn Hc]].
        -- specialize (Hv st). rewrite Hval in Hv. discriminate.
        -- now left.
        -- right. split; [|exact Hc]. intros [Hin Hv]. apply Hn. split; [now right | exact Hv].
    + rewrite (IH _ _ _ _ Hl). split.
      * intros [[Hin Hv] | [Hn Hc]]; [left; split; [now right | exact Hv] |].
        destruct (decide (name0 = name)) as [<- | Hne].
        -- rewrite lookup_insert_eq in Hc. inversion Hc; subst child.
           left. split; [now left | exact Hval].
        -- rewrite lookup_insert_ne in Hc by assumption.
           right. split; [|exact Hc]. intros [[? | Hin] Hv]; [congruence |].
           apply Hn. eauto.
      * intros [[[<- | Hin] Hv] | [Hn Hc]].
        -- destruct (classic_in name0 names) as [Hin | Hnin].
           ++ left. now split.
           ++ right. split; [now intros [? _] |].
              rewrite lookup_insert_eq. specialize (Hv st). rewrite Hval in Hv.
              now inversion Hv.
        -- now left.
        -- right. split; [intros [Hin Hv]; apply Hn; split; [now right | exact Hv] |].
           destruct (decide (name0 = name)) as [<- | Hne].
           ++ exfalso. apply Hn. split; [now left | eauto].
           ++ now rewrite lookup_insert_ne.
Qed.

End Rounds.

End Properties.

(** ** Listing a directory in another order *)

Section Order.
Context {hasher : Hasher} {host : Host} {ignorer : Ignores}.

Section Relisted.
Variable listing : string -> result (list string).
Hypothesis listing_same : same_names host listing.

(** A round on the relisted host gives what it gives on the host, when
    that is an entry or nothing. *)
Lemma round_relisted (s : scanner) (rec1 rec2 : string -> state -> outcome Entry * state)
      (path name : string) (st1 st2 : state) (r : round) :
  (forall p sta e sta', rec1 p sta = (Done e, sta') ->
                        forall stb, fst (rec2 p stb) = Done e) ->
  fst (@directory_round hasher host rec1 s path name st1) = r ->
  (r = Continue \/ exists child, r = Content child) ->
  fst (@directory_round hasher (relisted host listing) rec2 s path name st2) = r.
Proof.
  intros Hrec. unfold directory_round. simpl.
  destruct (ignored (s_pathIgnorer s) (Join path name)); [auto |].
  destruct (os_Lstat (Join (root s) (Join path name))) as [info|err].
  2:{ destruct (os_IsNotExist err); auto. }
  destruct (content_kind (info_Mode info)) as [kind|]; [|auto].
  destruct (_ && _); [auto |].
  destruct kind.
  - destruct (rec1 _ _) as [[e|e|] sta'] eqn:E1; simpl; intros <- Hok.
    + pose proof (Hrec _ _ _ _ E1
                    (log (EvLstat (Join (root s) (Join path name))) st2)) as H2.
      destruct (rec2 _ _) as [o2 stb']. simpl in H2. now subst o2.
    + destruct Hok as [? | [? ?]]; discriminate.
    + destruct Hok as [? | [? ?]]; discriminate.
  - intros <- _.
    change (@file hasher (relisted host listing)) with (@file hasher host).
    apply round_of_fst. now rewrite !file_fst.
  - destruct symlinksSupported; [|auto]. intros <- _.
    change (@symlink (relisted host listing)) with (@symlink host).
    apply round_of_fst, symlink_fst.
Qed.

(** What [scanner.directory] returns on the host, it returns on the
    relisted host. *)
Lemma directory_relisted (s : scanner) (fuel : nat) :
  forall path st1 entry st1',
    @directory hasher host fuel s path st1 = (Done entry, st1') ->
    forall st2, fst (@directory hasher (relisted host listing) fuel s path st2) = Done entry.
Proof.
  induction fuel as [|fuel IH]; intros path st1 entry st1' Hd st2; [discriminate |].
  rewrite directory_S in Hd. rewrite directory_S. simpl filesystem_DirectoryContents.
  pose proof (listing_same (Join (root s) path)) as Hsame.
  destruct (@filesystem_DirectoryContents host (Join (root s) path)) as [l1|e1];
    [|discriminate].
  destruct (listing (Join (root s) path)) as [l2|e2]; [|contradiction].
  destruct (directory_loop (directory fuel s) s path l1 ∅ _) as [[c1|e|] sta] eqn:El1;
    inversion Hd; subst; clear Hd.
  set (rec1 := @directory hasher host fuel s) in *.
  set (rec2 := @directory hasher (relisted host listing) fuel s) in *.
  assert (Hf1 : forall p sta stb, fst (rec1 p sta) = fst (rec1 p stb))
    by apply directory_fst.
  assert (Hf2 : forall p sta stb, fst (rec2 p sta) = fst (rec2 p stb))
    by apply directory_fst.
  pose proof (loop_Done_rounds (host := host) s rec1 Hf1 path l1 _ _ _ _ El1) as Hr1.
  assert (Hsame12 : forall name sta stb r,
             fst (@directory_round hasher host rec1 s path name sta) = r ->
             (r = Continue \/ exists child, r = Content child) ->
             fst (@directory_round hasher (relisted host listing) rec2 s path name stb)
             = r).
  { intros name sta stb r. apply round_relisted. exact IH. }
  assert (Hr2 : forall name st0, In name l2 ->
             fst (@directory_round hasher (relisted host listing) rec2 s path name st0)
             = Continue \/
             exists child,
               fst (@directory_round hasher (relisted host listing) rec2 s path name st0)
               = Content child).
  { intros name st0 Hin. apply Hsame in Hin.
    destruct (Hr1 name st0 Hin) as [H1 | [child H1]].
    - left. apply (Hsame12 name st0 st0); auto.
    - right. exists child. apply (Hsame12 name st0 st0); eauto. }
  destruct (loop_goes_through (host := relisted host listing) s rec2 path l2 Hr2 ∅
              (log (EvReadDir (Join (root s) path)) st2)) as [c2 Hc2].
  destruct (@directory_loop hasher (relisted host listing) rec2 s path l2 ∅ _)
    as [o2 stb] eqn:El2.
  simpl in Hc2. subst o2. simpl. do 2 f_equal.
  apply map_eq. intros name. apply option_eq. intros child.
  rewrite (loop_Done_contents (host := relisted host listing) s rec2 Hf2 path l2
             _ _ _ _ El2 name child).
  rewrite (loop_Done_contents (host := host) s rec1 Hf1 path l1 _ _ _ _ El1 name child).
  rewrite !lookup_empty. split.
  - intros [[Hin Hv] | [_ ?]]; [|discriminate]. left. apply Hsame in Hin.
    split; [exact Hin |]. intros st0. specialize (Hv st0).
    destruct (Hr1 name st0 Hin) as [H1 | [c H1]].
    + rewrite (Hsame12 name st0 st0 _ H1) in Hv by auto. discriminate.
    + rewrite (Hsame12 name st0 st0 _ H1) in Hv by eauto. congruence.
  - intros [[Hin Hv] | [_ ?]]; [|discriminate]. left.
    split; [now apply Hsame |]. intros st0.
    apply (Hsame12 name st0 st0); eauto.
Qed.

End Relisted.

(** The snapshot and the cache of a scan do not depend on the order in
    which the directories are listed: a scan that returns without an
    error returns the same on a host that lists, for every directory, the
    same names in any other order. *)
Theorem Scan_any_order (listing : string -> result (list string))
      (fuel : nat) (root : string) (cache : option Cache)
      (ignores : list string) (ignoreSize : Z)
      (snapshot : option Entry) (newcache : Cache) :
  same_names host listing ->
  fst (@Scan hasher host ignorer fuel root cache ignores ignoreSize)
  = Some (snapshot, Some newcache, None) ->
  fst (@Scan hasher (relisted host listing) ignorer fuel root cache ignores ignoreSize)
  = Some (snapshot, Some newcache, None).
Proof.
  intros Hsame Hs.
  (* the snapshot *)
  assert (Hsnap : exists c2,
             fst (@Scan hasher (relisted host listing) ignorer fuel root cache ignores
                    ignoreSize) = Some (snapshot, Some c2, None)).
  { revert Hs. rewrite !Scan_eq.
    destruct (newPathIgnorer ignores) as [ig|e]; [|discriminate].
    cbv zeta. simpl os_Stat.
    destruct (@os_Stat host root) as [info|e]; [|eauto].
    destruct (negb (Z.land (info_Mode info) os_ModeDir =? 0)%Z).
    - destruct (@directory hasher host fuel _ "" (start root)) as [[e|e|] st1] eqn:Ed;
        simpl; try discriminate.
      intros Heq. inversion Heq; subst.
      pose proof (directory_relisted listing Hsame _ _ _ _ _ _ Ed (start root)) as H2.
      destruct (@directory hasher (relisted host listing) fuel _ "" (start root))
        as [o2 st2].
      simpl in H2. subst o2. simpl. eauto.
    - destruct (negb (Z.land (info_Mode info) os_ModeType =? 0)%Z); [discriminate |].
      change (@file hasher (relisted host listing)) with (@file hasher host).
      destruct (file _ _ _ _) as [[e|e|] st1]; simpl; try discriminate.
      intros Heq. inversion Heq; subst. eauto. }
  destruct Hsnap as [c2 H2]. rewrite H2.
  (* the cache: the file entries of the snapshot *)
  assert (Hc : c2 = newcache); [|now subst].
  destruct snapshot as [rootEntry|].
  - destruct newcache as [m1], c2 as [m2]. f_equal.
    apply map_eq. intros key. apply option_eq. intros ce.
    rewrite (@Scan_cache_of_snapshot hasher (relisted host listing) ignorer
               _ _ _ _ _ _ _ _ key ce H2).
    rewrite (@Scan_cache_of_snapshot hasher host ignorer _ _ _ _ _ _ _ _ key ce Hs).
    reflexivity.
  - revert Hs H2. rewrite !Scan_eq.
    destruct (newPathIgnorer ignores) as [ig|e]; [|discriminate].
    cbv zeta. simpl os_Stat.
    destruct (@os_Stat host root) as [info|e].
    + destruct (negb (Z.land (info_Mode info) os_ModeDir =? 0)%Z).
      * destruct (@directory hasher host fuel _ "" (start root)) as [[?|?|] ?];
          discriminate.
      * destruct (negb (Z.land (info_Mode info) os_ModeType =? 0)%Z); [discriminate |].
        destruct (@file hasher host _ "" info (start root)) as [[?|?|] ?]; discriminate.
    + destruct (os_IsNotExist e); [|discriminate]. simpl. congruence.
Qed.

End Order.


(** ** The claims on the small host *)

(** C1, as stated, fails: the input cache has an entry for the path with
    the type bits, size and modification time of the stat, and the file is
    opened all the same, because the digest of the entry is nil. *)
Lemma file_cache_reuse_counterexample :
  ~ (forall (s : scanner) (path : string) (info : FileInfo),
        (exists cached, Entries (cache s) !! path = Some cached /\ valid_hit cached info)
        <-> ~ opened (trace (snd (demo_file s path info (mkState ∅ []))))).
Proof.
  intros H.
  destruct (H (cached_f None) "" (plain_file 11)) as [Hreuse _].
  apply Hreuse.
  - exists (mkCacheEntry 420 noon 11 None). split; [reflexivity |].
    repeat split.
  - exists "/f". vm_compute. now left.
Qed.

Lemma file_cache_reuse_witness :
  exists events,
    trace (snd (demo_file (cached_f (Some hello)) "" (plain_file 11) (mkState ∅ [])))
    = ([] ++ events)%list /\
    (~ opened events <-> @usable_hit (cached_f (Some hello)) "" (plain_file 11)) /\
    (forall cached d,
        Entries (cache (cached_f (Some hello))) !! "" = Some cached ->
        valid_hit cached (plain_file 11) ->
        Digest cached = Some d ->
        exists entry,
          fst (demo_file (cached_f (Some hello)) "" (plain_file 11) (mkState ∅ []))
          = Done entry /\
          Entry_Digest entry = Digest cached) /\
    (~ @usable_hit (cached_f (Some hello)) "" (plain_file 11) ->
     In (EvOpen (Join (root (cached_f (Some hello))) "")) events /\
     forall entry,
       fst (demo_file (cached_f (Some hello)) "" (plain_file 11) (mkState ∅ []))
       = Done entry ->
       exists f, @os_Open demo_host (Join (root (cached_f (Some hello))) "") = Ok f /\
                 Entry_Digest entry = @digest_of plain_hasher f).
Proof.
  exact (@file_cache_reuse plain_hasher demo_host (cached_f (Some hello)) ""
           (plain_file 11) (mkState ∅ [])).
Defined.

Ltac find_event := repeat (first [left; reflexivity | right]).

Lemma Scan_cache_coherence_witness :
  exists snapshot newcache,
    fst demo_run = Some (Some snapshot, Some newcache, None) /\
    lookup_path snapshot ["sub"; "x"]
    = Some (mkEntry EntryKind_File false (Some hello) "" ∅) /\
    Entries newcache !! "sub/x" = Some (mkCacheEntry 420 noon 11 (Some hello)).
Proof.
  eexists. eexists. split; [vm_compute; reflexivity |].
  split; [vm_compute; reflexivity |].
  destruct (proj2
    (@Scan_cache_coherence plain_hasher demo_host spec_Ignores 5 "/r" None ["*.log"] 50
       _ _ _ eq_refl) _ ["sub"; "x"] (mkEntry EntryKind_File false (Some hello) "" ∅)
       eq_refl eq_refl eq_refl)
    as (info & ce & _ & Hce & _).
  vm_compute. reflexivity.
Defined.

Lemma Scan_cache_keys_witness :
  exists snapshot newcache,
    fst demo_run = Some (snapshot, Some newcache, None) /\
    (forall key,
        is_Some (Entries newcache !! key) ->
        exists info entry,
          In (EvFile key info entry) (snd demo_run) /\
          Entry_Kind entry = EntryKind_File /\
          exists rootEntry names,
            snapshot = Some rootEntry /\ joins "" names = key /\
            lookup_path rootEntry names = Some entry) /\
    (forall key,
        (forall info entry, ~ In (EvFile key info entry) (snd demo_run)) ->
        Entries newcache !! key = None).
Proof.
  eexists. eexists. split; [vm_compute; reflexivity |].
  refine (@Scan_cache_keys plain_hasher demo_host spec_Ignores 5 "/r" None ["*.log"] 50
            _ _ _ _).
  vm_compute. reflexivity.
Defined.

(** C3, as stated, fails: the root [/nothing] does not exist, and with the
    ignore list [["["]], which does not compile, [Scan] returns an error and
    no cache. *)
Lemma Scan_missing_root_counterexample :
  ~ (forall (fuel : nat) (root : string) (cache : option Cache)
            (ignores : list string) (ignoreSize : Z) (err : error),
        @os_Stat demo_host root = Err err -> os_IsNotExist err = true ->
        fst (demo_Scan fuel root cache ignores ignoreSize)
        = Some (None, Some (mkCache ∅), None)).
Proof.
  intros H.
  specialize (H 0%nat "/nothing" None ["["] 0%Z (PathError "stat" "/nothing" ENOENT)
                eq_refl eq_refl).
  vm_compute in H. discriminate.
Qed.

Lemma Scan_missing_root_witness :
  (forall ig, @newPathIgnorer spec_Ignores ["*.log"] = Ok ig ->
     demo_Scan 0 "/nothing" None ["*.log"] 7
     = (Some (None, Some (mkCache ∅), None), [EvStat "/nothing"])) /\
  (forall e, @newPathIgnorer spec_Ignores ["*.log"] = Err e ->
     demo_Scan 0 "/nothing" None ["*.log"] 7
     = (Some (None, None, Some (errors_Wrap e "unable to create ignorer")), [])).
Proof.
  apply (@Scan_missing_root plain_hasher demo_host spec_Ignores 0 "/nothing" None
           ["*.log"] 7 (PathError "stat" "/nothing" ENOENT)); reflexivity.
Defined.

Lemma hash_size_mismatch_fatal_witness :
  (exists err,
      fst (demo_file (mkScanner "/short" (mkCache ∅) (mkPathIgnorer (fun _ => false)) 0)
             "" (plain_file 12) (mkState ∅ [])) = Failed err) /\
  (exists err, fst (demo_Scan 0 "/short" None [] 0) = Some (None, None, Some err)).
Proof.
  pose proof (@hash_size_mismatch_fatal plain_hasher demo_host spec_Ignores)
    as [Hfile Hscan].
  split.
  - apply (Hfile (mkScanner "/short" (mkCache ∅) (mkPathIgnorer (fun _ => false)) 0)
             "" (plain_file 12) (mkState ∅ []) (mkStream [hello] None)).
    + intros (cached & d & Hl & _). vm_compute in Hl. discriminate.
    + reflexivity.
    + left. vm_compute. discriminate.
  - apply (Hscan 0%nat "/short" None [] 0%Z "" 12%Z 11%Z false).
    + vm_compute. find_event.
    + right. vm_compute. discriminate.
Defined.

Lemma lstat_failure_handling_witness :
  (forall rec names contents st,
      @directory_loop plain_hasher demo_host rec
        (mkScanner "/r" (mkCache ∅) (mkPathIgnorer (fun _ => false)) 0)
        "" ("gone" :: names) contents st
      = @directory_loop plain_hasher demo_host rec
          (mkScanner "/r" (mkCache ∅) (mkPathIgnorer (fun _ => false)) 0)
          "" names contents
          (mkState (newCache st) (trace st ++ [EvLstat "/r/gone"]))) /\
  (exists e, fst (demo_Scan 3 "/bad" None [] 0) = Some (None, None, Some e)).
Proof.
  pose proof (@lstat_failure_handling plain_hasher demo_host spec_Ignores)
    as (Hskip & _ & Hscan).
  split.
  - intros rec names contents st.
    apply (Hskip rec (mkScanner "/r" (mkCache ∅) (mkPathIgnorer (fun _ => false)) 0)
             "" "gone" names contents st (PathError "stat" "/r/gone" ENOENT));
      reflexivity.
  - apply (Hscan 3%nat "/bad" None [] 0%Z "/bad/denied"
             (PathError "lstat" "/bad/denied" EACCES)).
    + vm_compute. find_event.
    + reflexivity.
    + reflexivity.
Defined.

Lemma size_filter_witness :
  exists rootEntry newcache,
    fst demo_run = Some (Some rootEntry, Some newcache, None) /\
    (Entry_Contents rootEntry !! "big.bin" = None /\
     Entries newcache !! "big.bin" = None) /\
    (exists entry,
        Entry_Contents rootEntry !! "a.txt" = Some entry /\
        Entry_Kind entry = EntryKind_File /\
        Entries newcache !! "a.txt"
        = Some (entry_for (plain_file 11) (Entry_Digest entry))) /\
    (exists entry,
        Entry_Contents rootEntry !! "sub" = Some entry /\
        Entry_Kind entry = EntryKind_Directory).
Proof.
  eexists. eexists. split; [vm_compute; reflexivity |].
  pose (listed := ["a.txt"; "gone"; "big.bin"; "sub"; "link"; "sock"; "b.log"]).
  assert (Hin : forall name, (name = "a.txt" \/ name = "big.bin" \/ name = "sub") ->
                             In name listed).
  { intros name [-> | [-> | ->]]; simpl; tauto. }
  pose proof (fun name info Hn =>
                @size_filter plain_hasher demo_host spec_Ignores 5 "/r" None
                  ["*.log"] 50 log_ignorer _ _ None [] listed _ name info
                  eq_refl eq_refl eq_refl eq_refl eq_refl (Hin name Hn)) as H.
  split; [|split].
  - destruct (H "big.bin" (plain_file 100) ltac:(tauto) eq_refl eq_refl)
      as [Hreg _].
    destruct (Hreg eq_refl) as (Hc & Hk & _).
    split; [apply Hc | apply Hk]; split; [reflexivity | discriminate | reflexivity | discriminate].
  - destruct (H "a.txt" (plain_file 11) ltac:(tauto) eq_refl eq_refl)
      as [Hreg _].
    destruct (Hreg eq_refl) as (_ & _ & Hthere & _). apply Hthere.
    intros [_ Hle]. vm_compute in Hle. now apply Hle.
  - destruct (H "sub" a_directory ltac:(tauto) eq_refl eq_refl)
      as (_ & Hdir & _).
    apply Hdir. reflexivity.
Defined.

(** C10, as stated, fails: [/f] is a regular file, and with the ignore list
    [["["]], which does not compile, [Scan] returns an error and no file
    entry. *)
Lemma Scan_root_file_counterexample :
  ~ (forall (fuel : nat) (root : string) (cache : option Cache)
            (ignores : list string) (ignoreSize : Z) (info : FileInfo),
        @os_Stat demo_host root = Ok info -> regular info ->
        exists entry newcache,
          fst (demo_Scan fuel root cache ignores ignoreSize)
          = Some (Some entry, Some newcache, None) /\
          Entry_Kind entry = EntryKind_File /\
          is_Some (Entries newcache !! "")).
Proof.
  intros H.
  destruct (H 0%nat "/f" None ["["] 0%Z (plain_file 11) eq_refl eq_refl)
    as (entry & newcache & Hs & _).
  vm_compute in Hs. discriminate.
Qed.

(** The same failure with an ignore list that compiles: the regular file
    [/locked] cannot be opened, and [Scan] returns the error. *)
Example Scan_root_file_unreadable :
  @os_Stat demo_host "/locked" = Ok (plain_file 11) /\
  fst (demo_Scan 0 "/locked" None [] 0)
  = Some (None, None,
          Some (errors_Wrap (PathError "open" "/locked" EACCES) "unable to open file")).
Proof. split; reflexivity. Qed.

(** The file is opened under the cleaned root: through the link [/r/jump]
    the root [/r/jump/../f] is a regular file for [os.Stat], and the scan
    then opens [/r/f], which is not there. *)
Example Scan_root_file_cleaned :
  @os_Stat linked_host "/r/jump/../f" = Ok (plain_file 11) /\
  @Scan plain_hasher linked_host spec_Ignores 0 "/r/jump/../f" None [] 0
  = (Some (None, None,
           Some (errors_Wrap (PathError "open" "/r/f" ENOENT) "unable to open file")),
     [EvStat "/r/jump/../f"; EvOpen "/r/f"]).
Proof. split; reflexivity. Qed.

Lemma Scan_root_file_witness :
  (forall fuel' ignores' ig' ignoreSize',
      @newPathIgnorer spec_Ignores ignores' = Ok ig' ->
      demo_Scan fuel' "/f" None ignores' ignoreSize' = demo_Scan 0 "/f" None ["*"] 1) /\
  exists entry,
    fst (demo_Scan 0 "/f" None ["*"] 1)
    = Some (Some entry,
            Some (mkCache {[ "" := entry_for (plain_file 11) (Entry_Digest entry) ]}),
            None)
    /\ Entry_Kind entry = EntryKind_File.
Proof.
  destruct (@Scan_root_file plain_hasher demo_host spec_Ignores 0 "/f" None ["*"] 1
              (mkPathIgnorer (last_match [(false, [GlobStar])])) (plain_file 11)
              eq_refl eq_refl eq_refl) as (_ & Hindep & Hfile & _).
  split; [exact Hindep |]. apply Hfile.
  right. exists (mkStream [hello] None). repeat split.
Defined.

(** ** More on the small host *)

Lemma Scan_excluded_absent_witness :
  exists snapshot newcache,
    fst demo_run = Some (snapshot, Some newcache, None) /\
    (Entries newcache !! "b.log" = None /\
     forall rootEntry names entry,
       snapshot = Some rootEntry -> joins "" names = "b.log" ->
       lookup_path rootEntry names = Some entry ->
       Entry_Kind entry <> EntryKind_File) /\
    (Entries newcache !! "big.bin" = None /\
     forall rootEntry names entry,
       snapshot = Some rootEntry -> joins "" names = "big.bin" ->
       lookup_path rootEntry names = Some entry ->
       Entry_Kind entry <> EntryKind_File).
Proof.
  eexists. eexists. split; [vm_compute; reflexivity |]. split.
  - refine (@Scan_excluded_absent plain_hasher demo_host spec_Ignores 5 "/r" None
              ["*.log"] 50 (mkPathIgnorer (last_match [(false, [GlobStar; GlobChar "."; GlobChar "l"; GlobChar "o"; GlobChar "g"])]))
              a_directory _ _ _ "b.log" _ eq_refl eq_refl _ _).
    + vm_compute. reflexivity.
    + vm_compute. discriminate.
    + left. reflexivity.
  - refine (@Scan_excluded_absent plain_hasher demo_host spec_Ignores 5 "/r" None
              ["*.log"] 50 (mkPathIgnorer (last_match [(false, [GlobStar; GlobChar "."; GlobChar "l"; GlobChar "o"; GlobChar "g"])]))
              a_directory _ _ _ "big.bin" _ eq_refl eq_refl _ _).
    + vm_compute. reflexivity.
    + vm_compute. discriminate.
    + right. exists (plain_file 100). split; [reflexivity |].
      vm_compute. split; [reflexivity | discriminate].
Defined.

Lemma Scan_root_kind_witness :
  exists rootEntry newcache,
    fst demo_run = Some (Some rootEntry, newcache, None) /\
    None = None :> option error /\
    (Entry_Kind rootEntry = EntryKind_Directory \/ Entry_Kind rootEntry = EntryKind_File).
Proof.
  eexists. eexists. split; [vm_compute; reflexivity |].
  refine (@Scan_root_kind plain_hasher demo_host spec_Ignores 5 "/r" None ["*.log"] 50
            _ _ _ _).
  vm_compute. reflexivity.
Defined.

Lemma Scan_more_fuel_witness :
  demo_Scan (2 + 3) "/r" None ["*.log"] 50 = demo_Scan 2 "/r" None ["*.log"] 50.
Proof.
  destruct (demo_Scan 2 "/r" None ["*.log"] 50) as [[r|] events] eqn:E.
  - apply (@Scan_more_fuel plain_hasher demo_host spec_Ignores 2 3 "/r" None ["*.log"] 50
             r events E).
  - vm_compute in E. discriminate.
Defined.

Lemma Scan_again_witness :
  exists snapshot newcache,
    fst demo_run = Some (snapshot, Some newcache, None) /\
    fst (demo_Scan 5 "/r" (Some newcache) ["*.log"] 50)
    = Some (snapshot, Some newcache, None) /\
    ~ opened (snd (demo_Scan 5 "/r" (Some newcache) ["*.log"] 50)).
Proof.
  eexists. eexists. split; [vm_compute; reflexivity |].
  refine (@Scan_again plain_hasher demo_host spec_Ignores 5 "/r" None ["*.log"] 50
            _ _ _ _).
  - vm_compute. reflexivity.
  - intros key ce Hk.
    destruct (@Scan_files_and_keys plain_hasher demo_host spec_Ignores 5 "/r" None
                ["*.log"] 50 _ _ _ eq_refl) as [_ Hc].
    destruct (Hc _ _ Hk) as (info & entry & Hin & _ & ->).
    vm_compute in Hin.
    repeat (destruct Hin as [Hin | Hin]; [try discriminate; inversion Hin; discriminate |]).
    destruct Hin.
Defined.

Lemma Scan_fatal_events_witness :
  exists err, fst (demo_Scan 3 "/bad" None [] 0) = Some (None, None, Some err).
Proof.
  apply (@Scan_fatal_events plain_hasher demo_host spec_Ignores 3 "/bad" None [] 0
           (EvLstat "/bad/denied")).
  - vm_compute. find_event.
  - reflexivity.
Defined.

(** ** The snapshot and the events on the small host *)

Lemma Scan_directory_contents_witness :
  exists rootEntry newcache sub listed,
    fst demo_run = Some (Some rootEntry, newcache, None) /\
    lookup_path rootEntry ["sub"] = Some sub /\
    @filesystem_DirectoryContents demo_host (Join "/r" (joins "" ["sub"])) = Ok listed /\
    forall name,
      is_Some (Entry_Contents sub !! name) <->
      In name listed /\
      @included demo_host (scanner_of "/r" None log_ignorer 50)
        (Join (joins "" ["sub"]) name) = true.
Proof.
  eexists. eexists. eexists.
  destruct (@Scan_directory_contents plain_hasher demo_host spec_Ignores 5 "/r" None
              ["*.log"] 50 log_ignorer _ _ _ ["sub"] _ eq_refl eq_refl eq_refl eq_refl)
    as (listed & Hl & Hk).
  exists listed. split; [vm_compute; reflexivity |]. split; [vm_compute; reflexivity |].
  split; [exact Hl | exact Hk].
Defined.

Lemma Scan_entry_kinds_witness :
  exists rootEntry newcache entry,
    fst demo_run = Some (Some rootEntry, newcache, None) /\
    lookup_path rootEntry ["sub"; "x"] = Some entry /\
    ignored log_ignorer (joins "" ["sub"; "x"]) = false /\
    exists info,
      @os_Lstat demo_host (Join "/r" (joins "" ["sub"; "x"])) = Ok info /\
      content_kind (info_Mode info) = Some (Entry_Kind entry) /\
      (Entry_Kind entry = EntryKind_File ->
       ~ (0 < 50 /\ 50 <= uint64 (info_Size info))%Z).
Proof.
  eexists. eexists. eexists.
  split; [vm_compute; reflexivity |]. split; [vm_compute; reflexivity |].
  apply (@Scan_entry_kinds plain_hasher demo_host spec_Ignores 5 "/r" None
           ["*.log"] 50 log_ignorer _ _ _ ["sub"; "x"] _ eq_refl eq_refl);
    [discriminate | reflexivity].
Defined.

Lemma Scan_left_out_witness :
  exists rootEntry newcache,
    fst demo_run = Some (Some rootEntry, newcache, None) /\
    lookup_path rootEntry (["b.log"] ++ []) = None /\
    lookup_path rootEntry (["sock"] ++ ["below"]) = None.
Proof.
  eexists. eexists. split; [vm_compute; reflexivity |]. split.
  - apply (@Scan_left_out plain_hasher demo_host spec_Ignores 5 "/r" None
             ["*.log"] 50 log_ignorer _ _ _ ["b.log"] [] eq_refl eq_refl);
      [discriminate | reflexivity].
  - apply (@Scan_left_out plain_hasher demo_host spec_Ignores 5 "/r" None
             ["*.log"] 50 log_ignorer _ _ _ ["sock"] ["below"] eq_refl eq_refl);
      [discriminate | reflexivity].
Defined.

Lemma Scan_well_formed_witness :
  exists rootEntry newcache entry,
    fst demo_run = Some (Some rootEntry, newcache, None) /\
    lookup_path rootEntry ["link"] = Some entry /\
    Entry_Kind entry = EntryKind_Symlink /\
    Entry_Executable entry = false /\ Entry_Digest entry = None /\
    Entry_Target entry <> "" /\ Entry_Contents entry = ∅.
Proof.
  eexists. eexists. eexists.
  split; [vm_compute; reflexivity |]. split; [vm_compute; reflexivity |].
  split; [reflexivity |].
  exact (@Scan_well_formed plain_hasher demo_host spec_Ignores 5 "/r" None
           ["*.log"] 50 _ _ _ ["link"] _ eq_refl eq_refl).
Defined.

Lemma Scan_symlink_entries_witness :
  exists rootEntry newcache entry,
    fst demo_run = Some (Some rootEntry, newcache, None) /\
    lookup_path rootEntry ["link"] = Some entry /\
    @symlinksSupported demo_host = true /\
    ["link"] <> [] /\
    @os_Readlink demo_host (Join "/r" (joins "" ["link"])) = Ok (Entry_Target entry) /\
    exists info,
      @os_Lstat demo_host (Join "/r" (joins "" ["link"])) = Ok info /\
      Z.land (info_Mode info) os_ModeSymlink <> 0%Z.
Proof.
  eexists. eexists. eexists.
  split; [vm_compute; reflexivity |]. split; [vm_compute; reflexivity |].
  exact (@Scan_symlink_entries plain_hasher demo_host spec_Ignores 5 "/r" None
           ["*.log"] 50 _ _ _ ["link"] _ eq_refl eq_refl eq_refl).
Defined.

Lemma Scan_file_entries_witness :
  exists rootEntry newcache entry info,
    fst demo_run = Some (Some rootEntry, newcache, None) /\
    lookup_path rootEntry ["a.txt"] = Some entry /\
    @os_Lstat demo_host (Join "/r" (joins "" ["a.txt"])) = Ok info /\
    regular info /\
    Entry_Executable entry
    = negb (Z.land (info_Mode info) AnyExecutablePermission =? 0)%Z /\
    (forall cached d,
        Entries (cache (scanner_of "/r" None log_ignorer 50)) !! joins "" ["a.txt"]
        = Some cached ->
        valid_hit cached info -> Digest cached = Some d ->
        Entry_Digest entry = Some d) /\
    (~ usable_hit (scanner_of "/r" None log_ignorer 50) (joins "" ["a.txt"]) info ->
     exists f, @os_Open demo_host (Join "/r" (joins "" ["a.txt"])) = Ok f /\
               read_error f = None /\
               uint64 (copied_of f) = uint64 (info_Size info) /\
               Entry_Digest entry = @digest_of plain_hasher f).
Proof.
  eexists. eexists. eexists.
  destruct (@Scan_file_entries plain_hasher demo_host spec_Ignores 5 "/r" None
              ["*.log"] 50 log_ignorer _ _ _ ["a.txt"] _ eq_refl eq_refl eq_refl eq_refl)
    as (info & H).
  exists info. split; [vm_compute; reflexivity |]. split; [vm_compute; reflexivity |].
  exact H.
Defined.


Lemma Scan_terminates_witness :
  exists r,
    fst (demo_Scan 2 "/r" None ["*.log"] 50) = Some r /\
    demo_Scan 5 "/r" None ["*.log"] 50 = demo_Scan 2 "/r" None ["*.log"] 50.
Proof.
  apply (@Scan_terminates plain_hasher demo_host spec_Ignores 2 5 "/r" None
           ["*.log"] 50); [reflexivity | lia].
Defined.

Lemma Scan_cache_transparent_witness :
  fst (demo_Scan 5 "/r" (Some stale_cache) ["*.log"] 50)
  = fst (demo_Scan 5 "/r" None ["*.log"] 50).
Proof.
  apply (@Scan_cache_transparent plain_hasher demo_host spec_Ignores 5 "/r" stale_cache
           ["*.log"] 50).
  intros path info (rootinfo & Hroot & Hstat) cached d Hl (_ & Hsize & _) Hd.
  inversion Hroot; subst rootinfo. change (@os_Lstat demo_host (Join "/r" path) = Ok info) in Hstat.
  unfold stale_cache in Hl. simpl in Hl.
  apply lookup_insert_Some in Hl as [[<- <-] | [_ Hl]].
  - exists (mkStream [hello] None). simpl in *. inversion Hd; subst.
    repeat split. now rewrite <- Hsize.
  - apply lookup_singleton_Some in Hl as [<- <-].
    inversion Hstat; subst info. discriminate.
Defined.

Lemma Scan_fails_fast_witness :
  Forall (fun e => @fatal demo_host e = false) [EvStat "/short"; EvOpen "/short"] /\
  ([EvClose "/short"] = [] \/ exists name, [EvClose "/short"] = [EvClose name]).
Proof.
  apply (@Scan_fails_fast plain_hasher demo_host spec_Ignores 0 "/short" None [] 0
           [EvStat "/short"; EvOpen "/short"] [EvClose "/short"] (EvCopy "" 12 11 false));
    reflexivity.
Defined.

Lemma Scan_error_cause_witness :
  exists err,
    fst (demo_Scan 3 "/bad" None [] 0) = Some (None, None, Some err) /\
    ((exists e, @newPathIgnorer spec_Ignores [] = Err e /\
                err = errors_Wrap e "unable to create ignorer") \/
     (exists info, @os_Stat demo_host "/bad" = Ok info /\
                   Z.land (info_Mode info) os_ModeDir = 0%Z /\
                   Z.land (info_Mode info) os_ModeType <> 0%Z /\
                   err = errors_New "invalid snapshot root type") \/
     (exists ev, In ev (snd (demo_Scan 3 "/bad" None [] 0)) /\
                 @fatal demo_host ev = true)).
Proof.
  eexists. split; [vm_compute; reflexivity |].
  destruct (@Scan_error_cause plain_hasher demo_host spec_Ignores 3 "/bad" None [] 0
              None None _ eq_refl) as (_ & _ & H).
  exact H.
Defined.

Lemma Scan_any_order_witness :
  exists snapshot newcache,
    fst demo_run = Some (snapshot, Some newcache, None) /\
    fst (@Scan plain_hasher (relisted demo_host demo_reversed) spec_Ignores
           5 "/r" None ["*.log"] 50)
    = Some (snapshot, Some newcache, None).
Proof.
  eexists. eexists. split; [vm_compute; reflexivity |].
  apply (@Scan_any_order plain_hasher demo_host spec_Ignores demo_reversed 5 "/r" None
           ["*.log"] 50).
  - intros name. unfold demo_reversed.
    destruct (@filesystem_DirectoryContents demo_host name) as [listed|e];
      [|reflexivity].
    intros x. apply in_rev.
  - vm_compute. reflexivity.
Defined.

End SyncSpec.

(* ===================================================================== *)
(** * Properties of [connect] and [reconnect] *)
(* ===================================================================== *)

Module SessionSpec.
Import Url Errors Session SessionTerms.

Section ConnectSpec.
Context {endpoint connection Version IgnoreSpecification Mode : Type}.
Variable newLocalEndpoint :
string -> Version -> string -> IgnoreSpecification -> bool -> result endpoint.
Variable newRemoteEndpoint :
connection -> string -> Version -> string -> IgnoreSpecification -> bool ->
result endpoint.
Variable agent_DialSSH : URL -> string -> Mode -> result connection.
Variable agent_ModeEndpoint : Mode.
Variable Protocol_String : Protocol -> string.

(** C9: [connect] on a URL whose protocol is neither Local nor SSH (Custom
  included) makes no call at all, so builds no endpoint, and returns an
  error whose message is ["unknown protocol: "] followed by the protocol
  value; on a Local URL it calls [newLocalEndpoint] with the path of the
  URL, and nothing else; on an SSH URL it dials through the agent in
  endpoint mode, and on the connection it gets it calls
  [newRemoteEndpoint] with the path of the URL. *)
Theorem connect_by_protocol (session : string) (version : Version) (url : URL)
    (ignores : IgnoreSpecification) (alpha : bool) (prompter : string) :
let run := connect newLocalEndpoint newRemoteEndpoint agent_DialSSH agent_ModeEndpoint
             Protocol_String in
(Protocol_ url <> Protocol_Local -> Protocol_ url <> Protocol_SSH ->
 exists err,
   run session version url ignores alpha prompter = ([], Err err) /\
   Error err = "unknown protocol: " ++ Protocol_String (Protocol_ url) /\
   occurs_in (Protocol_String (Protocol_ url)) (Error err)) /\
(Protocol_ url = Protocol_Local ->
 run session version url ignores alpha prompter =
 ([Call_newLocalEndpoint session version (Path url) ignores alpha],
  match newLocalEndpoint session version (Path url) ignores alpha with
  | Ok e => Ok e
  | Err err => Err (errors_Wrap err "unable to create local endpoint")
  end)) /\
(Protocol_ url = Protocol_SSH ->
 run session version url ignores alpha prompter =
 match agent_DialSSH url prompter agent_ModeEndpoint with
 | Err err =>
     ([Call_DialSSH url prompter agent_ModeEndpoint],
      Err (errors_Wrap err "unable to connect to SSH remote"))
 | Ok c =>
     ([Call_DialSSH url prompter agent_ModeEndpoint;
       Call_newRemoteEndpoint c session version (Path url) ignores alpha],
      match newRemoteEndpoint c session version (Path url) ignores alpha with
      | Ok e => Ok e
      | Err err => Err (errors_Wrap err "unable to create remote endpoint")
      end)
 end).
Proof.
intros run. unfold run, connect. split; [|split].
- intros Hl Hs. destruct (decide (Protocol_ url = Protocol_Local)); [contradiction |].
  destruct (decide (Protocol_ url = Protocol_SSH)); [contradiction |].
  eexists. split; [reflexivity |]. split; [reflexivity |].
  exists "unknown protocol: ", "". simpl.
  now rewrite UrlSpec.append_nil_r.
- intros Hl. destruct (decide (Protocol_ url = Protocol_Local)); [|contradiction].
  destruct (newLocalEndpoint _ _ _ _ _); reflexivity.
- intros Hs. destruct (decide (Protocol_ url = Protocol_Local)); [congruence |].
  destruct (decide (Protocol_ url = Protocol_SSH)); [|contradiction].
  destruct (agent_DialSSH _ _ _) as [c|err]; [|reflexivity].
  destruct (newRemoteEndpoint _ _ _ _ _ _); reflexivity.
Qed.

End ConnectSpec.

Lemma connect_by_protocol_witness :
  exists err,
    connect (endpoint := string) (connection := unit) (Version := nat)
            (IgnoreSpecification := list string) (Mode := bool)
            (fun _ _ path _ _ => Ok path) (fun _ _ _ path _ _ => Ok path)
            (fun _ _ _ => Ok tt) true demo_Protocol_String
            "session" 1%nat (mkURL Protocol_Custom "" "" 0 "git://host/repo")
            [] true "prompter"
    = ([], Err err) /\
    Error err = "unknown protocol: Custom" /\
    occurs_in "Custom" (Error err).
Proof.
  apply (connect_by_protocol (endpoint := string) (connection := unit) (Version := nat)
           (IgnoreSpecification := list string) (Mode := bool)
           (fun _ _ path _ _ => Ok path) (fun _ _ _ path _ _ => Ok path)
           (fun _ _ _ => Ok tt) true demo_Protocol_String
           "session" 1%nat (mkURL Protocol_Custom "" "" 0 "git://host/repo")
           [] true "prompter"); discriminate.
Defined.

(** ** [reconnect] *)

Section ReconnectSpec.
Context {endpoint connection Version IgnoreSpecification Mode : Type}.
Variable newLocalEndpoint :
  string -> Version -> string -> IgnoreSpecification -> bool -> result endpoint.
Variable newRemoteEndpoint :
  connection -> string -> Version -> string -> IgnoreSpecification -> bool ->
  result endpoint.
Variable agent_DialSSH : URL -> string -> Mode -> result connection.
Variable agent_ModeEndpoint : Mode.
Variable Protocol_String : Protocol -> string.
Variable endpoint_nil : endpoint -> bool.
Variable session : string.
Variable version : Version.
Variable url : URL.
Variable ignores : IgnoreSpecification.
Variable alpha : bool.

(** The call [connect(session, version, url, ignores, alpha, "")] of the
    goroutine, and the moves and the runs of this call of [reconnect]. *)
#[local] Abbreviation connected :=
  (connect newLocalEndpoint newRemoteEndpoint agent_DialSSH agent_ModeEndpoint
     Protocol_String session version url ignores alpha "").
#[local] Abbreviation step :=
  (reconnect_step newLocalEndpoint newRemoteEndpoint agent_DialSSH agent_ModeEndpoint
     Protocol_String endpoint_nil session version url ignores alpha).
#[local] Abbreviation run :=
  (reconnect_run newLocalEndpoint newRemoteEndpoint agent_DialSSH agent_ModeEndpoint
     Protocol_String endpoint_nil session version url ignores alpha).
#[local] Abbreviation invariant :=
  (reconnect_inv newLocalEndpoint newRemoteEndpoint agent_DialSSH agent_ModeEndpoint
     Protocol_String endpoint_nil session version url ignores alpha).

Lemma reconnect_inv_step (m : move) (st st' : reconnecting) :
  invariant st -> step m st = Some st' -> invariant st'.
Proof.
  unfold reconnect_inv. destruct st as [d b f c cl]. simpl.
  destruct m; simpl.
  - destruct d; [discriminate |]. intros Hi Heq. inversion Heq; subst; clear Heq. simpl.
    destruct b, f; simpl in *; intuition congruence.
  - destruct b; try discriminate. destruct connected as [made result] eqn:Ec.
    intros (-> & -> & Hf) Heq. inversion Heq; subst; clear Heq. simpl. auto.
  - destruct b as [|result|]; try discriminate. destruct d; [|discriminate].
    intros (-> & -> & -> & Hf) Heq. inversion Heq; subst; clear Heq. simpl.
    split; [reflexivity |]. unfold to_close.
    destruct f as [|r].
    + split; [reflexivity |]. destruct (snd connected) as [e|e]; [|reflexivity].
      destruct (endpoint_nil e); reflexivity.
    + right. destruct Hf as [-> _]. split; [reflexivity |]. split; [reflexivity |].
      destruct (snd connected) as [e|e]; [|reflexivity].
      destruct (endpoint_nil e); reflexivity.
  - destruct b as [|result|]; try discriminate. destruct f; [|discriminate].
    intros (-> & -> & -> & _) Heq. inversion Heq; subst; clear Heq. simpl. auto.
  - destruct f; [|discriminate]. destruct d; [|discriminate].
    intros Hi Heq. inversion Heq; subst; clear Heq. simpl.
    destruct b; simpl in *; intuition.
Qed.

Lemma reconnect_inv_run (moves : list move) :
  forall st st', invariant st -> run moves st = Some st' -> invariant st'.
Proof.
  induction moves as [|m moves IH]; intros st st' Hi Hr; simpl in Hr.
  - now inversion Hr; subst.
  - destruct (step m st) as [st1|] eqn:Es; [|discriminate].
    eapply IH; [|exact Hr]. eapply reconnect_inv_step; eauto.
Qed.

Lemma reconnect_inv_start : invariant reconnect_start.
Proof. now repeat split. Qed.

(** What [reconnect] returns: whatever the order of the events, it returns
    the cancellation error, and then the context has been cancelled, or
    the very pair that [connect], called once with an empty prompter,
    returned, and then nothing has been closed. *)
Theorem reconnect_returns (moves : list move) (st : reconnecting)
    (r : result endpoint) :
run moves reconnect_start = Some st ->
foreground st = Returned r ->
(r = Err reconnect_cancelled /\ cancelled st = true) \/
(r = snd connected /\ made st = fst connected /\ closed st = [] /\
 background st = Ended).
Proof.
intros Hr Hf. pose proof (reconnect_inv_run moves _ _ reconnect_inv_start Hr) as Hi.
unfold reconnect_inv in Hi. rewrite Hf in Hi.
destruct (background st); intuition.
Qed.

(** No endpoint is lost and none is used after its close: when both the
    goroutine and [reconnect] are through, an endpoint that [connect]
    built has either been returned by [reconnect], and not closed, or been
    closed exactly once, and then [reconnect] returned the cancellation
    error; when [connect] built none, nothing has been closed. *)
Theorem reconnect_endpoint_kept_or_closed (moves : list move) (st : reconnecting)
    (r : result endpoint) :
run moves reconnect_start = Some st ->
background st = Ended ->
foreground st = Returned r ->
match snd connected with
| Ok e =>
    (r = Ok e /\ closed st = []) \/
    (r = Err reconnect_cancelled /\ cancelled st = true /\
     closed st = if endpoint_nil e then [] else [e])
| Err err =>
    closed st = [] /\ (r = Err err \/ (r = Err reconnect_cancelled /\ cancelled st = true))
end.
Proof.
intros Hr Hb Hf. pose proof (reconnect_inv_run moves _ _ reconnect_inv_start Hr) as Hi.
unfold reconnect_inv in Hi. rewrite Hb, Hf in Hi. unfold to_close in Hi.
destruct Hi as [_ Hi]. destruct (snd connected) as [e|err]; intuition.
Qed.

(** The goroutine is not left behind: once [connect] has returned, the
    goroutine can always go on without any help from outside, by handing
    the result over while [reconnect] waits, or by giving up after
    [reconnect] has returned; and when no move is left, it has ended and
    [reconnect] has returned.  No run takes more than four moves. *)
Theorem reconnect_goroutine_ends (moves : list move) (st : reconnecting) :
run moves reconnect_start = Some st ->
(List.length moves <= 4)%nat /\
(forall result, background st = Selecting result ->
   is_Some (step Handover st) \/ is_Some (step GoroutineGivesUp st)) /\
(background st <> Connecting ->
 (forall m, m <> Cancel -> step m st = None) ->
 background st = Ended /\ exists r, foreground st = Returned r).
Proof.
intros Hr. pose proof (reconnect_inv_run moves _ _ reconnect_inv_start Hr) as Hi.
split; [|split].
- (* each move but the handover advances one of three counters *)
  assert (Hw : forall moves st st', run moves st = Some st' ->
                 (List.length moves + moves_left st' <= moves_left st)%nat).
  { clear. induction moves as [|m moves IH]; intros st st' Hr; simpl in Hr.
    - inversion Hr; subst. simpl. lia.
    - destruct (step m st) as [st1|] eqn:Es; [|discriminate].
      specialize (IH _ _ Hr). simpl.
      assert (Hs : (1 + moves_left st1 <= moves_left st)%nat).
      { clear - Es. destruct st as [d b f c cl]. unfold moves_left.
        destruct m; simpl in Es.
        - destruct d; inversion Es; subst; simpl. lia.
        - destruct b; try discriminate. destruct connected.
          inversion Es; subst; simpl. lia.
        - destruct b; try discriminate. destruct d; inversion Es; subst; simpl. lia.
        - destruct b; try discriminate. destruct f; inversion Es; subst; simpl. lia.
        - destruct f; try discriminate. destruct d; inversion Es; subst; simpl. lia. }
      lia. }
  specialize (Hw _ _ _ Hr). change (moves_left reconnect_start) with 4%nat in Hw. lia.
- intros result Hb. unfold reconnect_inv in Hi. rewrite Hb in Hi.
  destruct st as [d b f c cl]. simpl in *. subst b.
  destruct f as [|r]; [left; simpl; eauto |].
  right. destruct Hi as (_ & _ & _ & _ & ->). simpl. eauto.
- intros Hb Hstuck. destruct st as [d b f c cl]. simpl in *.
  unfold reconnect_inv in Hi. simpl in Hi.
  destruct b as [|result|]; [congruence | |].
  + exfalso. destruct f as [|r].
    * specialize (Hstuck Handover ltac:(discriminate)). discriminate.
    * destruct Hi as (_ & _ & _ & _ & ->).
      specialize (Hstuck GoroutineGivesUp ltac:(discriminate)). discriminate.
  + split; [reflexivity |]. destruct f as [|r]; [|eauto].
    exfalso. destruct Hi as (_ & -> & _).
    specialize (Hstuck FunctionGivesUp ltac:(discriminate)). discriminate.
Qed.

End ReconnectSpec.


(** ** [reconnect] on an example *)

Lemma reconnect_returns_witness :
  exists st r,
    demo_reconnect [ConnectReturns; Handover] = Some st /\
    foreground st = Returned r /\
    r = Ok "/home/user/project" /\ closed st = [] /\ background st = Ended.
Proof.
  eexists. eexists. split; [reflexivity |]. split; [reflexivity |].
  destruct (reconnect_returns (endpoint := string) (connection := unit) (Version := nat)
              (IgnoreSpecification := list string) (Mode := bool)
              (fun _ _ path _ _ => Ok path) (fun _ _ _ path _ _ => Ok path)
              (fun _ _ _ => Ok tt) true demo_Protocol_String
              (fun e => String.eqb e "")
              "session" 1%nat (mkURL Protocol_Local "" "" 0 "/home/user/project") [] true
              [ConnectReturns; Handover] _ _ eq_refl eq_refl)
    as [[Hr _] | (Hr & _ & Hc & Hb)]; [discriminate |].
  split; [exact Hr |]. split; [exact Hc | exact Hb].
Defined.

Lemma reconnect_endpoint_kept_or_closed_witness :
  exists st,
    demo_reconnect [ConnectReturns; Cancel; FunctionGivesUp; GoroutineGivesUp] = Some st /\
    foreground st = Returned (Err reconnect_cancelled) /\
    closed st = ["/home/user/project"].
Proof.
  eexists. split; [reflexivity |]. split; [reflexivity |].
  destruct (reconnect_endpoint_kept_or_closed
              (endpoint := string) (connection := unit) (Version := nat)
              (IgnoreSpecification := list string) (Mode := bool)
              (fun _ _ path _ _ => Ok path) (fun _ _ _ path _ _ => Ok path)
              (fun _ _ _ => Ok tt) true demo_Protocol_String
              (fun e => String.eqb e "")
              "session" 1%nat (mkURL Protocol_Local "" "" 0 "/home/user/project") [] true
              [ConnectReturns; Cancel; FunctionGivesUp; GoroutineGivesUp] _ _
              eq_refl eq_refl eq_refl)
    as [[Hr _] | (_ & _ & Hc)]; [discriminate | exact Hc].
Defined.

Lemma reconnect_goroutine_ends_witness :
  exists st,
    demo_reconnect [Cancel; FunctionGivesUp; ConnectReturns] = Some st /\
    (List.length [Cancel; FunctionGivesUp; ConnectReturns] <= 4)%nat /\
    background st = Selecting (Ok "/home/user/project") /\
    exists st', demo_reconnect [Cancel; FunctionGivesUp; ConnectReturns; GoroutineGivesUp]
                = Some st' /\ background st' = Ended.
Proof.
  eexists. split; [reflexivity |].
  destruct (reconnect_goroutine_ends
              (endpoint := string) (connection := unit) (Version := nat)
              (IgnoreSpecification := list string) (Mode := bool)
              (fun _ _ path _ _ => Ok path) (fun _ _ _ path _ _ => Ok path)
              (fun _ _ _ => Ok tt) true demo_Protocol_String
              (fun e => String.eqb e "")
              "session" 1%nat (mkURL Protocol_Local "" "" 0 "/home/user/project") [] true
              [Cancel; FunctionGivesUp; ConnectReturns] _ eq_refl)
    as (Hlen & _ & _).
  split; [exact Hlen |]. split; [reflexivity |].
  eexists. split; reflexivity.
Defined.

End SessionSpec.
